(** * Colour-perception quiz (script.js): conversions and scoring

    A shallow embedding of the computational core of [script.js]:
    [hexToRgb], [rgbToHsl], the hex-formatting half of
    [generateRandomColor] and [calculateScore]; then of the rest of
    [generateRandomColor], of [setupQuestions] and of the event handlers
    as functions on a record of what they read and write on the page.

    JavaScript Numbers are IEEE 754 binary64 values; they are embedded as
    Rocq's primitive [float], whose operations are the binary64 ones
    (round to nearest, ties to even).  Integers that the program obtains
    from bitwise operators or from [Math.floor] are Numbers with an
    integral value: they are carried as [Z] and injected into binary64
    with [Number_of_Z] where floating-point arithmetic consumes them.
    Strings are sequences of code units below 256 ([string]). *)

From Stdlib Require Import ZArith List Bool Ascii String Floats Lia.
From Stdlib Require Import DecimalString.
From Stdlib Require Import Permutation.
Import ListNotations.

Local Open Scope string_scope.
Local Open Scope Z_scope.

(* ================================================================= *)
(** ** The JavaScript primitives the program uses *)

Module JS.

Definition Number := float.

(** 𝔽(z): the Number value for the mathematical integer [z] (rounded
    to nearest, ties to even; exact when |z| < 2^53). *)
Definition Number_of_Z (z : Z) : Number :=
  SF2Prim (binary_normalize prec emax z 0 false).

(** truncate(ℝ(x)) for a finite [x]; [None] for NaN, +∞ and -∞. *)
Definition truncate (x : Number) : option Z :=
  match Prim2SF x with
  | S754_zero _ => Some 0
  | S754_finite s m e =>
      let mag := if 0 <=? e then Zpos m * 2 ^ e else Zpos m / 2 ^ (- e) in
      Some (if s then - mag else mag)
  | S754_infinity _ | S754_nan => None
  end.

(** ToInt32: NaN, the zeros and the infinities go to 0; a finite value
    is truncated and wrapped modulo 2^32 into [-2^31, 2^31). *)
Definition ToInt32 (x : Number) : Z :=
  match truncate x with
  | None => 0
  | Some int =>
      let int32bit := int mod 2 ^ 32 in
      if 2 ^ 31 <=? int32bit then int32bit - 2 ^ 32 else int32bit
  end.

(** [x >> n]: ToInt32 of the left operand, sign-propagating shift by the
    low five bits of the count. *)
Definition sar (x : Number) (n : Z) : Z := Z.shiftr (ToInt32 x) (n mod 32).

(** [x & y] on two int32 values (the results of [>>] and of ToInt32). *)
Definition bitand (x y : Z) : Z := Z.land x y.

(** *** Strings *)

Definition code (c : ascii) : Z := Z.of_nat (nat_of_ascii c).

(** [s.slice(start)] for a non-negative [start]. *)
Fixpoint slice (s : string) (start : nat) {struct start} : string :=
  match start, s with
  | O, _ => s
  | S n, String _ s' => slice s' n
  | S _, EmptyString => EmptyString
  end.

(** WhiteSpace and LineTerminator code units below 256: TAB, LF, VT, FF,
    CR, SP and NBSP. *)
Definition is_white_space (c : ascii) : bool :=
  let n := code c in
  ((9 <=? n) && (n <=? 13)) || (n =? 32) || (n =? 160).

Fixpoint trim_start (s : string) : string :=
  match s with
  | String c s' => if is_white_space c then trim_start s' else s
  | EmptyString => EmptyString
  end.

(** The value of a digit character: 0-9, then a-z and A-Z for 10..35. *)
Definition digit_value (c : ascii) : option Z :=
  let n := code c in
  if (48 <=? n) && (n <=? 57) then Some (n - 48)
  else if (97 <=? n) && (n <=? 122) then Some (n - 87)
  else if (65 <=? n) && (n <=? 90) then Some (n - 55)
  else None.

Definition radix_digit (R : Z) (c : ascii) : option Z :=
  match digit_value c with
  | Some d => if d <? R then Some d else None
  | None => None
  end.

(** The digit values of the longest prefix of [s] made of radix-[R]
    digits. *)
Fixpoint digits_prefix (R : Z) (s : string) : list Z :=
  match s with
  | String c s' =>
      match radix_digit R c with
      | Some d => d :: digits_prefix R s'
      | None => []
      end
  | EmptyString => []
  end.

Definition mathInt_of_digits (R : Z) (ds : list Z) : Z :=
  fold_left (fun acc d => acc * R + d) ds 0.

Definition strip_sign (s : string) : bool * string :=
  match s with
  | String c s' =>
      if (c =? "-")%char then (true, s')
      else if (c =? "+")%char then (false, s')
      else (false, s)
  | EmptyString => (false, s)
  end.

(** Does [s] start with "0x" or "0X"? *)
Definition has_0x (s : string) : bool :=
  match s with
  | String c1 (String c2 _) => ((c1 =? "0") && ((c2 =? "x") || (c2 =? "X")))%char
  | _ => false
  end.

(** [parseInt(string, radix)] for an integer [radix] (ECMA-262, 19.2.5):
    leading white space is skipped, then an optional sign, then, for
    radix 16 (or 0), an optional "0x"/"0X"; the longest run of radix
    digits is the number, NaN when that run is empty.  The program only
    calls it with radix 16, for which the standard prescribes the exact
    integer. *)
Definition parseInt (input : string) (radix : Z) : Number :=
  let '(neg, str) := strip_sign (trim_start input) in
  let R := radix in
  if negb (R =? 0) && ((R <? 2) || (36 <? R)) then nan
  else
    let stripPrefix := ((R =? 0) || (R =? 16)) && has_0x str in
    let str := if stripPrefix then slice str 2 else str in
    let R := if stripPrefix then 16 else if R =? 0 then 10 else R in
    match digits_prefix R str with
    | [] => nan
    | ds =>
        let mathInt := mathInt_of_digits R ds in
        if mathInt =? 0 then (if neg then neg_zero else zero)
        else Number_of_Z (if neg then - mathInt else mathInt)
    end.

(** A digit of [Number.prototype.toString(radix)]: 0-9 then a-z. *)
Definition digit_char (d : Z) : ascii :=
  ascii_of_nat (Z.to_nat (if d <? 10 then 48 + d else 87 + d)).

Fixpoint radix_digits (fuel : nat) (R n : Z) (acc : string) : string :=
  match fuel with
  | O => acc
  | S fuel' =>
      let acc' := String (digit_char (n mod R)) acc in
      if n / R =? 0 then acc' else radix_digits fuel' R (n / R) acc'
  end.

(** [n.toString(radix)] for an integral Number [n] and 2 <= radix <= 36:
    no leading zeros, lowercase letters, "-" before a negative value. *)
Definition toString (n : Z) (radix : Z) : string :=
  let fuel := S (Z.to_nat (Z.log2 (Z.abs n))) in
  if n =? 0 then "0"
  else if n <? 0 then String "-" (radix_digits fuel radix (- n) "")
  else radix_digits fuel radix n "".

Fixpoint repeat_fill (fill cur : string) (n : nat) : string :=
  match n with
  | O => EmptyString
  | S n' =>
      match cur with
      | String c cur' => String c (repeat_fill fill cur' n')
      | EmptyString =>
          match fill with
          | String c fill' => String c (repeat_fill fill fill' n')
          | EmptyString => EmptyString
          end
      end
  end.

(** [s.padStart(targetLength, fillString)]. *)
Definition padStart (s : string) (targetLength : nat) (fillString : string) : string :=
  let len := String.length s in
  if (targetLength <=? len)%nat then s
  else repeat_fill fillString fillString (targetLength - len) ++ s.

Definition upper_char (c : ascii) : ascii :=
  let n := code c in
  if (97 <=? n) && (n <=? 122) then ascii_of_nat (Z.to_nat (n - 32)) else c.

Definition lower_char (c : ascii) : ascii :=
  let n := code c in
  if (65 <=? n) && (n <=? 90) then ascii_of_nat (Z.to_nat (n + 32)) else c.

Fixpoint map_string (f : ascii -> ascii) (s : string) : string :=
  match s with
  | String c s' => String (f c) (map_string f s')
  | EmptyString => EmptyString
  end.

(** [s.toUpperCase()] and [s.toLowerCase()] on ASCII strings. *)
Definition toUpperCase (s : string) : string := map_string upper_char s.
Definition toLowerCase (s : string) : string := map_string lower_char s.


(** *** Math and Number methods *)

Definition is_pos_zero (x : Number) : bool := is_zero x && negb (get_sign x).
Definition is_neg_zero (x : Number) : bool := is_zero x && get_sign x.

(** [Math.max(...args)]: NaN if an argument is NaN; otherwise the
    largest, with +0 above -0; -∞ for no argument. *)
Fixpoint Math_max_from (highest : Number) (args : list Number) : Number :=
  match args with
  | [] => highest
  | number :: rest =>
      if is_nan number then nan
      else
        let highest :=
          if is_pos_zero number && is_neg_zero highest then zero else highest in
        Math_max_from (if (highest <? number)%float then number else highest) rest
  end.

Definition Math_max (args : list Number) : Number :=
  Math_max_from neg_infinity args.

(** [Math.min(...args)], symmetrically. *)
Fixpoint Math_min_from (lowest : Number) (args : list Number) : Number :=
  match args with
  | [] => lowest
  | number :: rest =>
      if is_nan number then nan
      else
        let lowest :=
          if is_neg_zero number && is_pos_zero lowest then neg_zero else lowest in
        Math_min_from (if (number <? lowest)%float then number else lowest) rest
  end.

Definition Math_min (args : list Number) : Number :=
  Math_min_from infinity args.

Definition Math_abs (x : Number) : Number := abs x.
Definition Math_sqrt (x : Number) : Number := sqrt x.

(** [x ** 2].  ECMA-262 leaves exponentiation implementation-approximated;
    the engines compute a square as the correctly rounded product. *)
Definition square (x : Number) : Number := (x * x)%float.

(** An array of Numbers read at an index: a missing element is
    [undefined], which arithmetic turns into NaN. *)
Definition get (arr : list Number) (j : nat) : Number := nth j arr nan.

(** [arr[j] = v] for an index inside the array (the program never writes
    outside: its arrays have three elements and [j < 3]). *)
Fixpoint set (arr : list Number) (j : nat) (v : Number) : list Number :=
  match arr, j with
  | [], _ => []
  | _ :: rest, O => v :: rest
  | x :: rest, S j' => x :: set rest j' v
  end.

(** The decimal digits of a non-negative integer. *)
Definition decimal_digits (n : Z) : string :=
  NilZero.string_of_uint (N.to_uint (Z.to_N n)).

Fixpoint zeros (n : nat) : string :=
  match n with
  | O => EmptyString
  | S n' => String "0" (zeros n')
  end.

(** The integer [n] for which [n / 10^f - x] is closest to zero, the
    larger one on a tie, for [x = m * 2^e]. *)
Definition nearest_scaled (m : positive) (e : Z) (f : nat) : Z :=
  let scaled := Zpos m * 10 ^ Z.of_nat f in
  if 0 <=? e then scaled * 2 ^ e
  else (2 * scaled + 2 ^ (- e)) / 2 ^ (- e + 1).

Definition insert_point (digits : string) (f : nat) : string :=
  match f with
  | O => digits
  | _ =>
      let k := String.length digits in
      let digits := if (k <=? f)%nat then zeros (f + 1 - k) ++ digits else digits in
      let k := String.length digits in
      substring 0 (k - f) digits ++ "." ++ substring (k - f) f digits
  end.

(** [x.toFixed(f)] for 0 <= f <= 100 (ECMA-262, 21.1.3.3).  A value of
    magnitude 10^21 or more prints in exponent notation, which is not
    modelled: the result is [None] there. *)
Definition toFixed (x : Number) (f : nat) : option string :=
  match Prim2SF x with
  | S754_nan => Some "NaN"
  | S754_infinity false => Some "Infinity"
  | S754_infinity true => Some "-Infinity"
  | S754_zero _ => Some (insert_point "0" f)
  | S754_finite s m e =>
      let n := nearest_scaled m e f in
      if 10 ^ (21 + Z.of_nat f) <=? n then None
      else Some ((if s then "-" else "") ++ insert_point (decimal_digits n) f)
  end.

End JS.

Import JS.

(* ================================================================= *)
(** ** Colour conversions *)

(** [hexToRgb(hex)], script.js lines 6-14. *)
Definition hexToRgb (hex : string) : list Z :=
  let bigint := parseInt (slice hex 1) 16 in
  let r := bitand (sar bigint 16) 255 in
  let g := bitand (sar bigint 8) 255 in
  let b := bitand (ToInt32 bigint) 255 in
  [r; g; b].

(** The hex-formatting half of [generateRandomColor], script.js lines
    59-62: each byte in radix 16, padded to two digits, joined behind
    "#" and upper-cased. *)
Definition hexOf (r g b : Z) : string :=
  let hexR := padStart (toString r 16) 2 "0" in
  let hexG := padStart (toString g 16) 2 "0" in
  let hexB := padStart (toString b 16) 2 "0" in
  toUpperCase ("#" ++ hexR ++ hexG ++ hexB).

(** [generateRandomColor()], script.js lines 54-63; the three draws
    [Math.floor(Math.random() * 256)] are its inputs. *)
Definition generateRandomColor (r g b : Z) : string * Z * Z * Z :=
  (hexOf r g b, r, g, b).


Section Hsl.
Local Open Scope float_scope.

(** [rgbToHsl(r, g, b)], script.js lines 23-48.  [h] is declared without
    a value: were no [case] of the [switch] to match, it would stay
    [undefined] and [h /= 6] would make it NaN. *)
Definition rgbToHsl (r g b : Number) : list Number :=
  let r := r / 255 in
  let g := g / 255 in
  let b := b / 255 in
  let max := Math_max [r; g; b] in
  let min := Math_min [r; g; b] in
  let l := (max + min) / 2 in
  let '(h, s) :=
    if max =? min then (0, 0)
    else
      let d := max - min in
      let s := if 0.5 <? l then d / (2 - max - min) else d / (max + min) in
      let h :=
        if max =? r then (g - b) / d + (if g <? b then 6 else 0)
        else if max =? g then (b - r) / d + 2
        else if max =? b then (r - g) / d + 4
        else nan in
      (h / 6, s) in
  [h * 360; s * 100; l * 100].

End Hsl.

(* ================================================================= *)
(** ** The quiz session and its score *)

Module Question.
(** One quiz item, [{ hex, r, g, b }] (script.js line 92). *)
Record t := { hex : string; r : Z; g : Z; b : Z }.
End Question.

(** A JavaScript completion: a value, or a thrown [TypeError] (reading a
    property of [undefined] or of [null]). *)
Inductive Completion (A : Type) : Type :=
| Return : A -> Completion A
| TypeError : Completion A.
Arguments Return {A} _.
Arguments TypeError {A}.

Definition bind {A B} (c : Completion A) (k : A -> Completion B) : Completion B :=
  match c with
  | Return a => k a
  | TypeError => TypeError
  end.

Notation "x <- c ;; k" := (bind c (fun x => k))
  (at level 61, c at next level, right associativity).

Definition lookup {A} (arr : list A) (i : nat) : Completion A :=
  match nth_error arr i with
  | Some a => Return a
  | None => TypeError
  end.

(** [value || fallback] on a string: the empty string is falsy. *)
Definition or_else (value fallback : string) : string :=
  match value with
  | EmptyString => fallback
  | _ => value
  end.

(** The three accumulators of [calculateScore] (lines 122-124). *)
Record Totals := {
  totalRgbError : list Number;
  totalHslError : list Number;
  squaredErrors : list Number
}.

(** What [calculateScore] computes before it formats it (lines 159-164). *)
Record ScoreReport := {
  avgRgbError : list Number;
  avgHslError : list Number;
  rmse : Number
}.

Section Score.
Local Open Scope float_scope.

(** The normalised HSL error of channel [j] (lines 144-152). *)
Definition hslError (j : nat) (userAnswerHsl correctAnswerHsl : list Number) : Number :=
  if (j =? 0)%nat then
    let diff := Math_abs (get userAnswerHsl j - get correctAnswerHsl j) in
    let shortestDiff := Math_min [diff; 360 - diff] in
    shortestDiff / 180
  else (get userAnswerHsl j - get correctAnswerHsl j) / 100.

(** One round of the inner loop over [j] (lines 137-154). *)
Definition channel_step
    (userAnswerRgb correctAnswerRgb userAnswerHsl correctAnswerHsl : list Number)
    (acc : Totals) (j : nat) : Totals :=
  let rgbError := (get userAnswerRgb j - get correctAnswerRgb j) / 255 in
  let herr := hslError j userAnswerHsl correctAnswerHsl in
  {| totalRgbError :=
       set (totalRgbError acc) j (get (totalRgbError acc) j + rgbError);
     totalHslError :=
       set (totalHslError acc) j (get (totalHslError acc) j + herr);
     squaredErrors := squaredErrors acc ++ [square rgbError] |}.

(** The user's colour for an input value (lines 130-131). *)
Definition userRgb (value : string) : list Z :=
  let userAnswerHex := ("#" ++ or_else value "000000")%string in
  hexToRgb userAnswerHex.

(** One round of the outer loop (lines 128-154); [inputs] holds the
    [value] of the elements [answer-0], [answer-1], ... *)
Definition question_step (questions : list Question.t) (inputs : list string)
    (acc : Totals) (i : nat) : Completion Totals :=
  q <- lookup questions i ;;
  let correctAnswerRgb :=
    map Number_of_Z [Question.r q; Question.g q; Question.b q] in
  value <- lookup inputs i ;;
  let userAnswerRgb := map Number_of_Z (userRgb value) in
  let correctAnswerHsl :=
    rgbToHsl (get correctAnswerRgb 0) (get correctAnswerRgb 1) (get correctAnswerRgb 2) in
  let userAnswerHsl :=
    rgbToHsl (get userAnswerRgb 0) (get userAnswerRgb 1) (get userAnswerRgb 2) in
  Return (fold_left
            (channel_step userAnswerRgb correctAnswerRgb userAnswerHsl correctAnswerHsl)
            [0%nat; 1%nat; 2%nat] acc).

Fixpoint for_each (step : Totals -> nat -> Completion Totals)
    (indices : list nat) (acc : Totals) : Completion Totals :=
  match indices with
  | [] => Return acc
  | i :: rest => acc' <- step acc i ;; for_each step rest acc'
  end.

Definition initial : Totals :=
  {| totalRgbError := [0; 0; 0]; totalHslError := [0; 0; 0]; squaredErrors := [] |}.

Definition length_Number (arr : list Number) : Number :=
  Number_of_Z (Z.of_nat (List.length arr)).

(** The final figures (lines 159-164). *)
Definition report (numQuestions : nat) (acc : Totals) : ScoreReport :=
  let n := Number_of_Z (Z.of_nat numQuestions) in
  let avgRgbError := map (fun error => (error / n) * 100) (totalRgbError acc) in
  let avgHslError := map (fun error => (error / n) * 100) (totalHslError acc) in
  let meanSquaredError :=
    fold_left (fun sum error => sum + error) (squaredErrors acc) 0
    / length_Number (squaredErrors acc) in
  let rmse := Math_sqrt meanSquaredError * 100 in
  {| avgRgbError := avgRgbError; avgHslError := avgHslError; rmse := rmse |}.

(** [calculateScore()], script.js lines 121-164, for a configured
    [numQuestions]: the score of the session [questions] against the
    values of the answer inputs. *)
Definition calculateScore (numQuestions : nat)
    (questions : list Question.t) (inputs : list string) : Completion ScoreReport :=
  acc <- for_each (question_step questions inputs) (seq 0 numQuestions) initial ;;
  Return (report numQuestions acc).

(** The text of the three result spans (lines 167-169). *)
Record Display := {
  rgbErrorText : option string;
  hslErrorText : option string;
  rmseScoreText : option string
}.

Definition percentages (a b c : string) (v : list Number) : option string :=
  match toFixed (get v 0) 2, toFixed (get v 1) 2, toFixed (get v 2) 2 with
  | Some x, Some y, Some z =>
      Some (a ++ ": " ++ x ++ "%, " ++ b ++ ": " ++ y ++ "%, " ++ c ++ ": " ++ z ++ "%")%string
  | _, _, _ => None
  end.

Definition display (rep : ScoreReport) : Display :=
  {| rgbErrorText := percentages "R" "G" "B" (avgRgbError rep);
     hslErrorText := percentages "H" "S" "L" (avgHslError rep);
     rmseScoreText := toFixed (rmse rep) 4 |}.

End Score.

(** [const numQuestions = 10] (script.js line 66). *)
Definition numQuestions : nat := 10.

(** The question stored for one drawn colour (script.js lines 91-92). *)
Definition question_of (r g b : Z) : Question.t :=
  let '(hex, r, g, b) := generateRandomColor r g b in
  {| Question.hex := hex; Question.r := r; Question.g := g; Question.b := b |}.

(** [setupQuestions()], script.js lines 81-116, without the page: the
    questions it stores and the answers it resets; [draw i] is the
    colour drawn for question [i]. *)
Definition setupQuestions (numQuestions : nat) (draw : nat -> Z * Z * Z)
    : list Question.t * list string :=
  (map (fun i => let '(r, g, b) := draw i in question_of r g b) (seq 0 numQuestions),
   repeat EmptyString numQuestions).

(* ================================================================= *)
(** ** Random colours *)

(** [Math.floor(x)] for a finite [x], as the integer it is; [None] for
    NaN and the infinities. *)
Definition Math_floor (x : Number) : option Z :=
  match Prim2SF x with
  | S754_zero _ => Some 0
  | S754_finite s m e =>
      let n := if s then Zneg m else Zpos m in
      Some (if 0 <=? e then n * 2 ^ e else n / 2 ^ (- e))
  | S754_infinity _ | S754_nan => None
  end.

(** [Math.floor(Math.random() * 256)], [u] being the random Number. *)
Definition random_channel (u : Number) : option Z := Math_floor (u * 256)%float.

(** [generateRandomColor()] with its three calls of [Math.random()]
    made explicit (script.js lines 54-63); [None] when a channel is not
    a finite Number, which no value of [Math.random()] gives. *)
Definition generateRandomColor_of (u1 u2 u3 : Number) : option (string * Z * Z * Z) :=
  match random_channel u1, random_channel u2, random_channel u3 with
  | Some r, Some g, Some b => Some (generateRandomColor r g b)
  | _, _, _ => None
  end.

(* ================================================================= *)
(** ** The page: what the handlers of script.js read and write *)

Module Page.
Record t := {
  questions : list Question.t;   (* the global [questions] *)
  answers : list string;         (* the global [answers] *)
  values : list string;          (* the [value] of the inputs answer-0, answer-1, ... *)
  submitDisabled : bool;         (* [submitButton.disabled] *)
  resultShown : bool;            (* [resultArea.style.display] is 'block' *)
  resultText : option Display    (* the text of the three result spans *)
}.
End Page.

(** [setupQuestions()] on the page (script.js lines 81-103): the inputs
    it creates are empty. *)
Definition setupQuestions_page (draw : nat -> Z * Z * Z) (p : Page.t) : Page.t :=
  let '(qs, ans) := setupQuestions numQuestions draw in
  {| Page.questions := qs; Page.answers := ans;
     Page.values := repeat EmptyString numQuestions;
     Page.submitDisabled := true; Page.resultShown := false;
     Page.resultText := Page.resultText p |}.

(** [Array.from(answerInputs).every(inp => inp.value.length === 6)]
    (line 111). *)
Definition allFilled (values : list string) : bool :=
  forallb (fun value => (String.length value =? 6)%nat) values.

Fixpoint set_value (values : list string) (i : nat) (v : string) : list string :=
  match values, i with
  | [], _ => []
  | _ :: rest, O => v :: rest
  | x :: rest, S i' => x :: set_value rest i' v
  end.

(** The 'input' listener (lines 109-114), after the browser has stored
    the text [v] in the input [answer-i]. *)
Definition on_input (i : nat) (v : string) (p : Page.t) : Page.t :=
  let values := set_value (Page.values p) i v in
  {| Page.questions := Page.questions p; Page.answers := Page.answers p;
     Page.values := values;
     Page.submitDisabled := negb (allFilled values);
     Page.resultShown := Page.resultShown p;
     Page.resultText := Page.resultText p |}.

(** A click on the submit button (line 174): a disabled button gets no
    click; an exception in [calculateScore] leaves the page as it is. *)
Definition on_submit (p : Page.t) : Page.t :=
  if Page.submitDisabled p then p
  else
    match calculateScore numQuestions (Page.questions p) (Page.values p) with
    | Return rep =>
        {| Page.questions := Page.questions p; Page.answers := Page.answers p;
           Page.values := Page.values p;
           Page.submitDisabled := Page.submitDisabled p;
           Page.resultShown := true;
           Page.resultText := Some (display rep) |}
    | TypeError => p
    end.

(** What happens on the page: the user edits an answer, clicks the
    submit button, or clicks the retry button (line 177), for which the
    colours drawn are given. *)
Inductive Event :=
| Input (i : nat) (v : string)
| Submit
| Retry (draw : nat -> Z * Z * Z).

Definition handle (p : Page.t) (ev : Event) : Page.t :=
  match ev with
  | Input i v => on_input i v p
  | Submit => on_submit p
  | Retry draw => setupQuestions_page draw p
  end.

(** The page after loading (line 180) and a sequence of events. *)
Definition page_after (p0 : Page.t) (draw : nat -> Z * Z * Z) (events : list Event)
    : Page.t :=
  fold_left handle events (setupQuestions_page draw p0).

(* ================================================================= *)
(** ** Definitions used by the statements and the proofs *)

(** Finite enumeration *)
Definition range (n : nat) : list Z := map Z.of_nat (seq 0 n).

Definition all_ascii : list ascii := map ascii_of_nat (seq 0 256).

(** What [parseInt] needs of a character that is a hex digit. *)
Definition hex_char_ok (c : ascii) : bool :=
  match radix_digit 16 c with
  | Some d =>
      negb (is_white_space c) && negb (c =? "-")%char && negb (c =? "+")%char
      && negb (c =? "x")%char && negb (c =? "X")%char && (0 <=? d) && (d <? 16)
  | None => true
  end.

Definition hex_byte (n : Z) : string := toUpperCase (padStart (toString n 16) 2 "0").

Definition hex_byte_ok (n : Z) : bool :=
  match hex_byte n with
  | String c1 (String c2 EmptyString) =>
      match radix_digit 16 c1, radix_digit 16 c2 with
      | Some d1, Some d2 => d1 * 16 + d2 =? n
      | _, _ => false
      end
  | _ => false
  end.

(** The channel value [z / 255]. *)
Definition norm (z : Z) : Number := (Number_of_Z z / 255)%float.

Section HslSpec.

Local Open Scope float_scope.

(** [rgbToHsl] as the specification words it, the channel that holds the
    maximum being decided on the integer channels: red first, then
    green, then blue. *)
Definition hue_of (r g b : Z) (R G B d : Number) : Number :=
  (if (r =? Z.max (Z.max r g) b)%Z then (G - B) / d + (if (g <? b)%Z then 6 else 0)
   else if (g =? Z.max (Z.max r g) b)%Z then (B - R) / d + 2
   else (R - G) / d + 4) / 6.

Definition hue_turns (r g b : Z) : Number :=
  let mx := Z.max (Z.max r g) b in
  let mn := Z.min (Z.min r g) b in
  hue_of r g b (norm r) (norm g) (norm b) (norm mx - norm mn).

Definition lightness_of (max min : Number) : Number := (max + min) / 2.

Definition saturation_of (max min : Number) : Number :=
  let d := max - min in
  if 0.5 <? lightness_of max min then d / (2 - max - min) else d / (max + min).

Definition lightness (mx mn : Z) : Number := lightness_of (norm mx) (norm mn).

Definition saturation (mx mn : Z) : Number := saturation_of (norm mx) (norm mn).

Definition hsl_spec (r g b : Z) : list Number :=
  let mx := Z.max (Z.max r g) b in
  let mn := Z.min (Z.min r g) b in
  if (mx =? mn)%Z then [0 * 360; 0 * 100; lightness mx mn * 100]
  else [hue_turns r g b * 360; saturation mx mn * 100; lightness mx mn * 100].

Definition norm_ok (x : Z) : bool :=
  let X := norm x in
  negb (is_nan X) && negb (is_neg_zero X) && (neg_infinity <? X) && (X <? infinity)
  && (0 <=? X) && (X <=? 1).

Definition norm_pair_ok (x y : Z) : bool :=
  let X := norm x in let Y := norm y in
  Bool.eqb (X <? Y) (x <? y)%Z && Bool.eqb (X =? Y) (x =? y)%Z.

End HslSpec.

(** The 256 normalised channel values. *)
Definition channel_values : list Number :=
  Eval vm_compute in map norm (range 256).

Section Checks.

Local Open Scope float_scope.

Definition in_percent (x : Number) : bool := (0 <=? x) && (x <=? 100).

Definition in_degrees (x : Number) : bool := (0 <=? x) && (x <? 360).

(** Lightness and saturation of a (max, min) pair lie in [0, 100]. *)
Definition sl_ok (max min : Number) : bool :=
  (max <? min)
  || (in_percent (lightness_of max min * 100)
      && ((max =? min) || in_percent (saturation_of max min * 100))).

(** The hue of three normalised channels, every test made on the
    Numbers themselves. *)
Definition hue_f (R G B : Number) : Number :=
  let max := if R <? G then (if G <? B then B else G) else (if R <? B then B else R) in
  let min := if G <? R then (if B <? G then B else G) else (if B <? R then B else R) in
  let d := max - min in
  (if R =? max then (G - B) / d + (if G <? B then 6 else 0)
   else if G =? max then (B - R) / d + 2
   else (R - G) / d + 4) / 6.

Definition hue_ok (R G B : Number) : bool :=
  ((R =? G) && (G =? B)) || in_degrees (hue_f R G B * 360).

End Checks.

(** Neither NaN nor an infinity. *)
Definition finite (x : Number) : Prop :=
  match Prim2SF x with
  | S754_zero _ | S754_finite _ _ _ => True
  | S754_infinity _ | S754_nan => False
  end.

(** A question as [setupQuestions] stores it: channels in [0, 255] and
    the hex string [generateRandomColor] made from them. *)
Definition well_formed (q : Question.t) : Prop :=
  0 <= Question.r q <= 255 /\ 0 <= Question.g q <= 255 /\ 0 <= Question.b q <= 255
  /\ Question.hex q = hexOf (Question.r q) (Question.g q) (Question.b q).

(** Draws as [Math.floor(Math.random() * 256)] makes them: integers in
    [0, 255]. *)
Definition byte_draw (draw : nat -> Z * Z * Z) : Prop :=
  forall i, let '(r, g, b) := draw i in
            0 <= r <= 255 /\ 0 <= g <= 255 /\ 0 <= b <= 255.

(** The answer that repeats a question's colour: the six digits of its
    hex string. *)
Definition answer_of (q : Question.t) : string := slice (Question.hex q) 1.

Section Spec.

Local Open Scope float_scope.

Definition zero_totals (k : nat) : Totals :=
  {| totalRgbError := [0; 0; 0]; totalHslError := [0; 0; 0];
     squaredErrors := repeat 0 (3 * k) |}.

Definition zero_report : ScoreReport :=
  {| avgRgbError := [0; 0; 0]; avgHslError := [0; 0; 0]; rmse := 0 |}.

(** The normalised RGB errors of one question, channel by channel. *)
Definition rgbErrors (q : Question.t) (value : string) : list Number :=
  map (fun uc => (Number_of_Z (fst uc) - Number_of_Z (snd uc)) / 255)
      (combine (userRgb value) [Question.r q; Question.g q; Question.b q]).

Definition squared_errors_at (questions : list Question.t) (inputs : list string)
    (i : nat) : list Number :=
  match nth_error questions i, nth_error inputs i with
  | Some q, Some value => map square (rgbErrors q value)
  | _, _ => []
  end.

(** All the squared errors of a session in one list. *)
Definition pooled_squared_errors (n : nat) (questions : list Question.t)
    (inputs : list string) : list Number :=
  flat_map (squared_errors_at questions inputs) (seq 0 n).

Definition sum_of (l : list Number) : Number := fold_left (fun s e => s + e) l 0.

(** Square root of the mean, as a percentage. *)
Definition root_mean_percent (l : list Number) : Number :=
  Math_sqrt (sum_of l / length_Number l) * 100.

End Spec.

(** What [parseInt] looks at in a character does not depend on its case. *)
Definition case_blind (f : ascii -> ascii) (c : ascii) : bool :=
  match digit_value (f c), digit_value c with
  | Some d, Some d' => d =? d'
  | None, None => true
  | _, _ => false
  end
  && Bool.eqb (is_white_space (f c)) (is_white_space c)
  && Bool.eqb (f c =? "-")%char (c =? "-")%char
  && Bool.eqb (f c =? "+")%char (c =? "+")%char
  && Bool.eqb (f c =? "0")%char (c =? "0")%char
  && Bool.eqb ((f c =? "x") || (f c =? "X"))%char ((c =? "x") || (c =? "X"))%char.

(** Whether a shift record has lost non-zero bits. *)
Definition inexact (mrs : shr_record) : bool := shr_r mrs || shr_s mrs.

(** The value [m * 2^e] in units of [2^-1074], the smallest positive
    binary64 number. *)
Definition scaled (m e : Z) : Z := m * 2 ^ (e + 1074).

(** Zero or a finite number. *)
Definition finite_sf (x : spec_float) : Prop :=
  match x with
  | S754_zero _ | S754_finite _ _ _ => True
  | _ => False
  end.

(** The sign bit of a zero or of a finite number. *)
Definition sign_sf (x : spec_float) : bool :=
  match x with
  | S754_zero s | S754_finite s _ _ => s
  | _ => false
  end.

(** The magnitude in units of [2^-1074]. *)
Definition mag (x : spec_float) : Z :=
  match x with
  | S754_finite _ m e => scaled (Zpos m) e
  | _ => 0
  end.

(** Zero of either sign, or a positive finite number. *)
Definition nonneg_sf (x : spec_float) : Prop :=
  match x with
  | S754_zero _ | S754_finite false _ _ => True
  | _ => False
  end.

(** ** Numbers *)

(** Zero (of either sign) or a positive finite Number. *)
Definition nn (x : Number) : Prop := nonneg_sf (Prim2SF x).

(** +0 or a positive finite Number. *)
Definition pos0 (x : Number) : Prop :=
  finite_sf (Prim2SF x) /\ sign_sf (Prim2SF x) = false.

(** The magnitude of a Number in units of [2^-1074]. *)
Definition fmag (x : Number) : Z := mag (Prim2SF x).

(** [b] is the positive finite Number [mb * 2^eb]. *)
Definition is_bound (b : Number) (mb : positive) (eb : Z) : Prop :=
  Prim2SF b = S754_finite false mb eb /\ bounded prec emax mb eb = true.

(** Sample questions. *)
Definition red_question : Question.t :=
  {| Question.hex := "#FF0000"; Question.r := 255; Question.g := 0; Question.b := 0 |}.

Definition black_question : Question.t :=
  {| Question.hex := "#000000"; Question.r := 0; Question.g := 0; Question.b := 0 |}.

Definition sample_draw (i : nat) : Z * Z * Z :=
  nth i [(255, 0, 0); (0, 255, 0); (0, 0, 255); (18, 52, 86); (0, 0, 0);
         (255, 255, 255); (200, 200, 10); (1, 2, 3); (128, 128, 128)]
      (250, 128, 114).

(** A session of [numQuestions] questions. *)
Definition sample_session : list Question.t :=
  fst (setupQuestions numQuestions sample_draw).

Definition is_ascii_string (s : string) : bool :=
  forallb (fun c => code c <? 128) (list_ascii_of_string s).

(** ** Definitions used by the further properties *)

(** The stored channels of a question. *)
Definition channels (q : Question.t) : Z * Z * Z :=
  (Question.r q, Question.g q, Question.b q).

(** A string of hexadecimal digits only. *)
Fixpoint all_hex (s : string) : bool :=
  match s with
  | String c s' =>
      match radix_digit 16 c with
      | Some _ => all_hex s'
      | None => false
      end
  | EmptyString => true
  end.

(** The number that the hexadecimal digits of [s] spell after [acc]. *)
Fixpoint hex_number (acc : Z) (s : string) : Z :=
  match s with
  | String c s' =>
      match digit_value c with
      | Some d => hex_number (acc * 16 + d) s'
      | None => acc
      end
  | EmptyString => acc
  end.

(** A string of white space only. *)
Fixpoint all_white_space (s : string) : bool :=
  match s with
  | String c s' => is_white_space c && all_white_space s'
  | EmptyString => true
  end.

(** The three low bytes of an integer, most significant first. *)
Definition low_bytes (v : Z) : list Z :=
  [(v / 65536) mod 256; (v / 256) mod 256; v mod 256].

(** What [parseInt] does with a string of hex digits, in one formula
    that covers the empty string. *)
Definition parsed (neg : bool) (s : string) : Number :=
  match digits_prefix 16 s with
  | [] => nan
  | ds =>
      let mathInt := mathInt_of_digits 16 ds in
      if mathInt =? 0 then (if neg then neg_zero else zero)
      else Number_of_Z (if neg then - mathInt else mathInt)
  end.

(** One of the characters 0-9 and A-F. *)
Definition is_upper_hex (c : ascii) : bool :=
  ((48 <=? code c) && (code c <=? 57)) || ((65 <=? code c) && (code c <=? 70)).

Fixpoint all_upper_hex (s : string) : bool :=
  match s with
  | String c s' => is_upper_hex c && all_upper_hex s'
  | EmptyString => true
  end.

(** The two characters of [hex_byte n] are the upper-case digits of
    [n / 16] and [n mod 16]. *)
Definition hex_byte_shape (n : Z) : bool :=
  String.eqb (hex_byte n)
    (String (upper_char (digit_char (n / 16)))
       (String (upper_char (digit_char (n mod 16))) ""))
  && is_upper_hex (upper_char (digit_char (n / 16)))
  && is_upper_hex (upper_char (digit_char (n mod 16))).

(** A hex digit in either case is, upper-cased, the digit that
    [toString] writes for its value. *)
Definition hex_char_upper (c : ascii) : bool :=
  match radix_digit 16 c with
  | Some d => Ascii.eqb (upper_char c) (upper_char (digit_char d))
  | None => true
  end.

Section HslChecks.
Local Open Scope float_scope.

(** Saturation is positive off the grey axis; lightness is 0 only at
    black and 100 only at white. *)
Definition sl_extremes (max min : Number) : bool :=
  (max <? min)
  || (((max =? min)
       || ((0 <? saturation_of max min * 100)
           && negb (saturation_of max min * 100 =? 0)))
      && Bool.eqb (lightness_of max min * 100 =? 0) (max =? 0)
      && Bool.eqb (lightness_of max min * 100 =? 100) (min =? 1)).

(** The sextant of the hue circle that the order of the channels
    selects, and the exact hues of the colours with two equal channels. *)
Definition hue_sector_ok (R G B : Number) : bool :=
  let h := hue_f R G B * 360 in
  ((R =? G) && (G =? B))
  || (if (G <=? R) && (B <=? R) then
        (if G <? B then (300 <=? h) && (h <? 360) && (negb (B =? R) || (h =? 300))
         else (0 <=? h) && (h <=? 60)
              && (negb (G =? B) || (h =? 0)) && (negb (G =? R) || (h =? 60)))
      else if B <=? G then
        (60 <=? h) && (h <=? 180)
        && (negb (B =? R) || (h =? 120)) && (negb (B =? G) || (h =? 180))
      else (180 <=? h) && (h <=? 300) && (negb (R =? G) || (h =? 240))).

End HslChecks.

(** The value [m * 2^e] in units of [2^-K]. *)
Definition scaled_by (K m e : Z) : Z := m * 2 ^ (e + K).

Definition random_channel_ok (z : Z) : bool :=
  let u := (Number_of_Z z / 256)%float in
  (0 <=? u)%float && (u <? 1)%float
  && match random_channel u with Some z' => z' =? z | None => false end.

(** A finite Number of magnitude at most the integer [k]. *)
Definition within (k : Z) (x : Number) : Prop :=
  finite_sf (Prim2SF x) /\ fmag x <= k * 2 ^ 1074.

(** A question whose channels are bytes. *)
Definition byte_channels (q : Question.t) : Prop :=
  0 <= Question.r q <= 255 /\ 0 <= Question.g q <= 255 /\ 0 <= Question.b q <= 255.

(** What the loop of [calculateScore] keeps true of its accumulators
    after [k] questions. *)
Definition score_invariant (k : Z) (acc : Totals) : Prop :=
  exists a0 a1 a2 b0 b1 b2,
    totalRgbError acc = [a0; a1; a2] /\ totalHslError acc = [b0; b1; b2]
    /\ within k a0 /\ within k a1 /\ within k a2
    /\ (pos0 b0 /\ within k b0) /\ within k b1 /\ within k b2
    /\ Forall (fun e => pos0 e /\ within 1 e) (squaredErrors acc)
    /\ Z.of_nat (List.length (squaredErrors acc)) = 3 * k.

(** Between -100 and 100. *)
Definition in_signed_percent (x : Number) : bool :=
  ((-100 <=? x) && (x <=? 100))%float.

(** A value of [Math.random()]: at least 0 and below 1. *)
Definition unit_interval (u : Number) : bool := ((0 <=? u) && (u <? 1))%float.

Definition byte_event (ev : Event) : Prop :=
  match ev with
  | Retry draw => byte_draw draw
  | _ => True
  end.

(** What every reachable page satisfies. *)
Definition page_invariant (p : Page.t) : Prop :=
  List.length (Page.questions p) = numQuestions
  /\ List.length (Page.values p) = numQuestions
  /\ Forall well_formed (Page.questions p)
  /\ Page.submitDisabled p = negb (allFilled (Page.values p)).

(** A page before the script has run, and a session of events: ten
    answers typed, then a click on the submit button. *)
Definition blank_page : Page.t :=
  {| Page.questions := []; Page.answers := []; Page.values := [];
     Page.submitDisabled := false; Page.resultShown := false;
     Page.resultText := None |}.

Definition sample_events : list Event :=
  map (fun i => Input i "80FF00") (seq 0 numQuestions) ++ [Submit].

(** The squared error of two different bytes is at least [2^-17]. *)
Definition square_error_ok (u c : Z) : bool :=
  (u =? c) || (0x1p-17 <=? square ((Number_of_Z u - Number_of_Z c) / 255))%float.

(** The question with the same channels and the [hex] that
    [generateRandomColor] gives them. *)
Definition redrawn (q : Question.t) : Question.t :=
  {| Question.hex := hexOf (Question.r q) (Question.g q) (Question.b q);
     Question.r := Question.r q; Question.g := Question.g q;
     Question.b := Question.b q |}.

(* ================================================================= *)
(** ** Sample evaluations *)

Example hexOf_sample : hexOf 255 10 0 = "#FF0A00".
Proof. reflexivity. Qed.

Example hexToRgb_sample : hexToRgb "#FF0A00" = [255; 10; 0].
Proof. vm_compute. reflexivity. Qed.

Example hexToRgb_lower : hexToRgb "#ff0a00" = [255; 10; 0].
Proof. vm_compute. reflexivity. Qed.

Example hexToRgb_not_hex : hexToRgb "#GGGGGG" = [0; 0; 0].
Proof. vm_compute. reflexivity. Qed.

Example hexToRgb_prefix : hexToRgb "#12G456" = [0; 0; 18].
Proof. vm_compute. reflexivity. Qed.

Example hexToRgb_minus : hexToRgb "#-00001" = [255; 255; 255].
Proof. vm_compute. reflexivity. Qed.

(* ================================================================= *)
(** ** Lemmas *)

Lemma digits2_pos_size p : digits2_pos p = Pos.size p.
Proof. induction p; simpl; congruence. Qed.

Lemma digits2_pos_iter_xO d p :
  Zpos (digits2_pos (Pos.iter xO p d)) = Zpos (digits2_pos p) + Zpos d.
Proof.
  revert p. induction d using Pos.peano_ind; intros p.
  - simpl. lia.
  - rewrite Pos.iter_succ. simpl. rewrite Pos2Z.inj_succ, IHd. lia.
Qed.

Lemma iter_xO_value d p : Zpos (Pos.iter xO p d) = Zpos p * 2 ^ Zpos d.
Proof.
  revert p. induction d using Pos.peano_ind; intros p.
  - simpl. lia.
  - rewrite Pos.iter_succ, Pos2Z.inj_xO, IHd, Pos2Z.inj_succ, Z.pow_succ_r by lia. lia.
Qed.

Lemma digits2_pos_le p n : 0 <= n -> Zpos p < 2 ^ n -> Zpos (digits2_pos p) <= n.
Proof.
  intros Hn Hp. rewrite digits2_pos_size.
  destruct (Z_le_gt_dec (Zpos (Pos.size p)) n) as [H|H]; [exact H|exfalso].
  pose proof (Pos.size_le p) as Hs.
  assert (2 ^ (n+1) <= 2 ^ Zpos (Pos.size p)) by (apply Z.pow_le_mono_r; lia).
  rewrite Z.pow_add_r in H0 by lia.
  assert (Zpos (2 ^ Pos.size p) = 2 ^ Zpos (Pos.size p)) by (rewrite Pos2Z.inj_pow; reflexivity).
  lia.
Qed.

Lemma binary_round_aux_canonical sx m e :
  Zpos (digits2_pos m) = 53 -> -1074 <= e <= 971 ->
  binary_round_aux prec emax sx (Zpos m) e loc_Exact = S754_finite sx m e.
Proof.
  intros Hm He.
  assert (Hs : fexp prec emax (Zpos (digits2_pos m) + e) - e = 0).
  { unfold fexp, SpecFloat.emin, prec, emax. lia. }
  unfold binary_round_aux, shr_fexp, Zdigits2. rewrite Hs.
  unfold shr, shr_record_of_loc, loc_of_shr_record, round_nearest_even, shr_m.
  rewrite Hs.
  replace (e <=? emax - prec) with true; [reflexivity|].
  symmetry. apply Z.leb_le. unfold emax, prec. lia.
Qed.

(** Binary64 holds every integer below 2^53 exactly. *)
Lemma binary_normalize_small p :
  Zpos p < 2 ^ 53 ->
  exists m e, binary_normalize prec emax (Zpos p) 0 false = S754_finite false m e
    /\ bounded prec emax m e = true /\ e <= 0 /\ Zpos m = Zpos p * 2 ^ (- e).
Proof.
  intros Hp.
  pose proof (digits2_pos_le p 53 ltac:(lia) Hp) as Hk.
  assert (Hk1 : 1 <= Zpos (digits2_pos p)) by lia.
  unfold binary_normalize, binary_round, shl_align.
  assert (Hf : fexp prec emax (Zpos (digits2_pos p) + 0) = Zpos (digits2_pos p) - 53).
  { unfold fexp, SpecFloat.emin, prec, emax. lia. }
  rewrite Hf.
  assert (Hcan : forall q e, Zpos (digits2_pos q) = 53 -> -52 <= e <= 0 ->
                 bounded prec emax q e = true).
  { intros q e Hq He. unfold bounded, canonical_mantissa. rewrite Hq.
    apply andb_true_intro. split.
    - apply Z.eqb_eq. unfold fexp, SpecFloat.emin, prec, emax. lia.
    - apply Z.leb_le. unfold prec, emax. lia. }
  destruct (Zpos (digits2_pos p) - 53 - 0) eqn:Hd; try lia.
  - exists p, 0.
    rewrite binary_round_aux_canonical by lia.
    repeat split; try lia. apply Hcan; lia.
  - set (q := Pos.iter xO p p0).
    set (e := Zpos (digits2_pos p) - 53).
    assert (Hq : Zpos (digits2_pos q) = 53).
    { unfold q. rewrite digits2_pos_iter_xO. lia. }
    assert (He : -52 <= e <= 0) by (unfold e; lia).
    exists q, e.
    rewrite binary_round_aux_canonical by lia.
    repeat split; try lia.
    + apply Hcan; lia.
    + unfold q. rewrite iter_xO_value. f_equal. f_equal. lia.
Qed.

Lemma ToInt32_Number_of_Z (z : Z) :
  0 <= z < 2 ^ 31 -> ToInt32 (Number_of_Z z) = z.
Proof.
  intros Hz. unfold ToInt32, truncate, Number_of_Z.
  destruct z as [|p|p]; try lia.
  - reflexivity.
  - destruct (binary_normalize_small p) as (m & e & Hn & Hb & He & Hm).
    { assert (2 ^ 31 < 2 ^ 53) by (apply Z.pow_lt_mono_r; lia). lia. }
    rewrite Hn, Prim2SF_SF2Prim by exact Hb.
    assert (Hmag : (if 0 <=? e then Zpos m * 2 ^ e else Zpos m / 2 ^ (- e)) = Zpos p).
    { destruct (Z.leb_spec 0 e).
      - assert (e = 0) by lia. subst e. cbn in Hm. lia.
      - rewrite Hm. apply Z.div_mul. apply Z.pow_nonzero; lia. }
    rewrite Hmag.
    rewrite Z.mod_small by lia.
    destruct (Z.leb_spec (2 ^ 31) (Zpos p)); lia.
Qed.

Lemma In_range n z : 0 <= z < Z.of_nat n -> In z (range n).
Proof.
  intros Hz. unfold range. apply in_map_iff. exists (Z.to_nat z). split; [lia|].
  apply in_seq. lia.
Qed.

Lemma forall_range (P : Z -> bool) n :
  forallb P (range n) = true -> forall z, 0 <= z < Z.of_nat n -> P z = true.
Proof.
  intros H z Hz. rewrite forallb_forall in H. apply H, In_range, Hz.
Qed.

Lemma In_all_ascii c : In c all_ascii.
Proof.
  unfold all_ascii. apply in_map_iff. exists (nat_of_ascii c). split.
  - apply ascii_nat_embedding.
  - apply in_seq. pose proof (nat_ascii_bounded c). lia.
Qed.

Lemma forall_ascii (P : ascii -> bool) :
  forallb P all_ascii = true -> forall c, P c = true.
Proof. intros H c. rewrite forallb_forall in H. apply H, In_all_ascii. Qed.

Lemma hex_char_facts c d :
  radix_digit 16 c = Some d ->
  is_white_space c = false /\ (c =? "-")%char = false /\ (c =? "+")%char = false
  /\ (c =? "x")%char = false /\ (c =? "X")%char = false /\ 0 <= d < 16.
Proof.
  intros H. pose proof (forall_ascii hex_char_ok ltac:(vm_compute; reflexivity) c) as Hc.
  unfold hex_char_ok in Hc. rewrite H in Hc.
  repeat (apply andb_prop in Hc; destruct Hc as [Hc ?]).
  repeat match goal with H : negb _ = true |- _ => apply negb_true_iff in H end.
  repeat split; try assumption; lia.
Qed.

Lemma mathInt_of_digits_app R ds d :
  mathInt_of_digits R (ds ++ [d]) = mathInt_of_digits R ds * R + d.
Proof. unfold mathInt_of_digits. rewrite fold_left_app. reflexivity. Qed.

Lemma digits_prefix_range s : Forall (fun d => 0 <= d < 16) (digits_prefix 16 s).
Proof.
  induction s as [|c s IH]; simpl; [constructor|].
  destruct (radix_digit 16 c) as [d|] eqn:E; [|constructor].
  constructor; [|exact IH]. apply (hex_char_facts c d E).
Qed.

Lemma mathInt_of_digits_bound ds :
  Forall (fun d => 0 <= d < 16) ds ->
  0 <= mathInt_of_digits 16 ds < 16 ^ Z.of_nat (List.length ds).
Proof.
  induction ds as [|d ds IH] using rev_ind; intros H.
  - cbn. lia.
  - apply Forall_app in H. destruct H as [H1 H2]. inversion H2; subst.
    specialize (IH H1). rewrite mathInt_of_digits_app, length_app. cbn [List.length].
    replace (Z.of_nat (List.length ds + 1)) with (Z.succ (Z.of_nat (List.length ds))) by lia.
    rewrite Z.pow_succ_r by lia. lia.
Qed.

(** [parseInt] on a non-empty string of hex digits. *)
Lemma parseInt_hex_digits s :
  s <> "" -> List.length (digits_prefix 16 s) = String.length s ->
  parseInt s 16 =
    let v := mathInt_of_digits 16 (digits_prefix 16 s) in
    if v =? 0 then zero else Number_of_Z v.
Proof.
  intros Hne Hlen. destruct s as [|c s]; [congruence|].
  simpl in Hlen. destruct (radix_digit 16 c) as [d|] eqn:Ec; [|discriminate].
  destruct (hex_char_facts c d Ec) as (Hws & Hm & Hp & _).
  assert (H0x : has_0x (String c s) = false).
  { destruct s as [|c2 s]; [reflexivity|]. cbn [has_0x].
    simpl in Hlen. destruct (radix_digit 16 c2) as [d2|] eqn:Ec2; [|simpl in Hlen; lia].
    destruct (hex_char_facts c2 d2 Ec2) as (_ & _ & _ & Hx & HX & _).
    rewrite Hx, HX, andb_false_r. reflexivity. }
  unfold parseInt. cbn [trim_start]. rewrite Hws.
  unfold strip_sign. rewrite Hm, Hp, H0x.
  cbn [Z.eqb Pos.eqb negb andb orb Z.ltb Z.compare Pos.compare Pos.compare_cont].
  cbn [digits_prefix]. rewrite Ec. reflexivity.
Qed.

Lemma ToInt32_zero : ToInt32 zero = 0.
Proof. vm_compute. reflexivity. Qed.

(** [hexToRgb] on "#" (or any first character) followed by hex digits
    only: the three bytes of the number they spell. *)
Lemma hexToRgb_hex_digits c0 s :
  s <> "" -> List.length (digits_prefix 16 s) = String.length s ->
  (String.length s <= 7)%nat ->
  let v := mathInt_of_digits 16 (digits_prefix 16 s) in
  hexToRgb (String c0 s) =
    [Z.land (Z.shiftr v 16) 255; Z.land (Z.shiftr v 8) 255; Z.land (Z.shiftr v 0) 255].
Proof.
  intros Hne Hlen H7 v. unfold hexToRgb. cbn [slice].
  rewrite parseInt_hex_digits by assumption. fold v.
  pose proof (mathInt_of_digits_bound _ (digits_prefix_range s)) as Hb. fold v in Hb.
  assert (Hv : 0 <= v < 2 ^ 31).
  { split; [lia|]. apply Z.lt_le_trans with (1 := proj2 Hb).
    rewrite Hlen.
    apply Z.le_trans with (16 ^ 7); [apply Z.pow_le_mono_r; lia|vm_compute; discriminate]. }
  assert (Hi : ToInt32 (if v =? 0 then zero else Number_of_Z v) = v).
  { destruct (Z.eqb_spec v 0) as [->|]; [apply ToInt32_zero|apply ToInt32_Number_of_Z, Hv]. }
  unfold sar, bitand. rewrite Hi. reflexivity.
Qed.

(** [(v >> n) & 255] is byte [n/8] of a non-negative [v]. *)
Lemma byte_of_word v n : 0 <= n -> Z.land (Z.shiftr v n) 255 = (v / 2 ^ n) mod 256.
Proof.
  intros Hn. change 255 with (Z.ones 8).
  rewrite Z.land_ones, Z.shiftr_div_pow2 by lia. reflexivity.
Qed.

Lemma hexToRgb_six_digits c0 c1 c2 c3 c4 c5 c6 d1 d2 d3 d4 d5 d6 :
  radix_digit 16 c1 = Some d1 -> radix_digit 16 c2 = Some d2 ->
  radix_digit 16 c3 = Some d3 -> radix_digit 16 c4 = Some d4 ->
  radix_digit 16 c5 = Some d5 -> radix_digit 16 c6 = Some d6 ->
  hexToRgb (String c0 (String c1 (String c2 (String c3 (String c4 (String c5 (String c6 "")))))))
  = [d1 * 16 + d2; d3 * 16 + d4; d5 * 16 + d6].
Proof.
  intros H1 H2 H3 H4 H5 H6.
  rewrite hexToRgb_hex_digits;
    cbn [digits_prefix String.length List.length]; rewrite ?H1, ?H2, ?H3, ?H4, ?H5, ?H6;
    try (cbn [List.length]; lia); try discriminate.
  apply hex_char_facts in H1, H2, H3, H4, H5, H6.
  destruct H1 as (_ & _ & _ & _ & _ & H1), H2 as (_ & _ & _ & _ & _ & H2),
           H3 as (_ & _ & _ & _ & _ & H3), H4 as (_ & _ & _ & _ & _ & H4),
           H5 as (_ & _ & _ & _ & _ & H5), H6 as (_ & _ & _ & _ & _ & H6).
  unfold mathInt_of_digits. cbn [fold_left].
  rewrite !byte_of_word by lia.
  set (R := d1 * 16 + d2). set (G := d3 * 16 + d4). set (B := d5 * 16 + d6).
  replace ((((((0 * 16 + d1) * 16 + d2) * 16 + d3) * 16 + d4) * 16 + d5) * 16 + d6)
    with ((R * 256 + G) * 256 + B) by (unfold R, G, B; ring).
  assert (HR : 0 <= R < 256) by (unfold R; lia).
  assert (HG : 0 <= G < 256) by (unfold G; lia).
  assert (HB : 0 <= B < 256) by (unfold B; lia).
  repeat f_equal.
  - change (2 ^ 16) with (256 * 256).
    rewrite <- Z.div_div by lia.
    rewrite Z.div_add_l, (Z.div_small B), Z.add_0_r by lia.
    rewrite Z.div_add_l, (Z.div_small G), Z.add_0_r by lia.
    apply Z.mod_small, HR.
  - change (2 ^ 8) with 256.
    rewrite Z.div_add_l, (Z.div_small B), Z.add_0_r, Z.add_comm, Z.mod_add by lia.
    apply Z.mod_small, HG.
  - change (2 ^ 0) with 1. rewrite Z.div_1_r, Z.add_comm, Z.mod_add by lia.
    apply Z.mod_small, HB.
Qed.

Lemma hex_byte_digits n :
  0 <= n <= 255 ->
  exists c1 c2 d1 d2, hex_byte n = String c1 (String c2 "")
    /\ radix_digit 16 c1 = Some d1 /\ radix_digit 16 c2 = Some d2 /\ d1 * 16 + d2 = n.
Proof.
  intros Hn.
  pose proof (forall_range hex_byte_ok 256 ltac:(vm_compute; reflexivity) n ltac:(lia)) as H.
  unfold hex_byte_ok in H.
  destruct (hex_byte n) as [|c1 [|c2 [|? ?]]]; try discriminate.
  destruct (radix_digit 16 c1) as [d1|] eqn:E1; [|discriminate].
  destruct (radix_digit 16 c2) as [d2|] eqn:E2; [|discriminate].
  exists c1, c2, d1, d2. repeat split; try assumption. apply Z.eqb_eq, H.
Qed.

Lemma map_string_app f s t : map_string f (s ++ t) = map_string f s ++ map_string f t.
Proof. induction s as [|c s IH]; simpl; congruence. Qed.

Lemma hexOf_bytes r g b :
  hexOf r g b = String "#" (hex_byte r ++ hex_byte g ++ hex_byte b).
Proof.
  unfold hexOf, hex_byte, toUpperCase. cbn [append]. cbn [map_string].
  rewrite !map_string_app. reflexivity.
Qed.

Theorem hexToRgb_hexOf r g b :
  0 <= r <= 255 -> 0 <= g <= 255 -> 0 <= b <= 255 ->
  hexToRgb (hexOf r g b) = [r; g; b].
Proof.
  intros Hr Hg Hb. rewrite hexOf_bytes.
  destruct (hex_byte_digits r Hr) as (c1 & c2 & d1 & d2 & -> & H1 & H2 & <-).
  destruct (hex_byte_digits g Hg) as (c3 & c4 & d3 & d4 & -> & H3 & H4 & <-).
  destruct (hex_byte_digits b Hb) as (c5 & c6 & d5 & d6 & -> & H5 & H6 & <-).
  cbn [append]. apply hexToRgb_six_digits; assumption.
Qed.

Lemma norm_facts x :
  0 <= x <= 255 ->
  is_nan (norm x) = false /\ is_neg_zero (norm x) = false
  /\ (neg_infinity <? norm x)%float = true /\ (norm x <? infinity)%float = true
  /\ (0 <=? norm x)%float = true /\ (norm x <=? 1)%float = true.
Proof.
  intros Hx.
  pose proof (forall_range norm_ok 256 ltac:(vm_compute; reflexivity) x ltac:(lia)) as H.
  unfold norm_ok in H.
  repeat (apply andb_prop in H; destruct H as [H ?]).
  repeat match goal with H : negb _ = true |- _ => apply negb_true_iff in H end.
  repeat split; assumption.
Qed.

Lemma norm_pairs_ok_true :
  forallb (fun x => forallb (norm_pair_ok x) (range 256)) (range 256) = true.
Proof. vm_compute. reflexivity. Qed.

Lemma norm_order x y :
  0 <= x <= 255 -> 0 <= y <= 255 ->
  (norm x <? norm y)%float = (x <? y) /\ (norm x =? norm y)%float = (x =? y).
Proof.
  intros Hx Hy.
  pose proof (proj1 (forallb_forall _ _) norm_pairs_ok_true x (In_range 256 x ltac:(lia))) as H.
  cbv beta in H.
  pose proof (proj1 (forallb_forall _ _) H y (In_range 256 y ltac:(lia))) as H'.
  clear H. rename H' into H.
  unfold norm_pair_ok in H. apply andb_prop in H. destruct H as [H1 H2].
  apply eqb_prop in H1, H2. split; assumption.
Qed.

Lemma is_neg_zero_neg_infinity : is_neg_zero neg_infinity = false.
Proof. reflexivity. Qed.

Lemma Math_max_norm r g b :
  0 <= r <= 255 -> 0 <= g <= 255 -> 0 <= b <= 255 ->
  Math_max [norm r; norm g; norm b] = norm (Z.max (Z.max r g) b).
Proof.
  intros Hr Hg Hb.
  destruct (norm_facts r Hr) as (Nr & Zr & Lr & _).
  destruct (norm_facts g Hg) as (Ng & Zg & _).
  destruct (norm_facts b Hb) as (Nb & Zb & _).
  unfold Math_max. cbn [Math_max_from].
  rewrite Nr, is_neg_zero_neg_infinity, andb_false_r, Lr, Ng, Zr, andb_false_r.
  rewrite (proj1 (norm_order r g Hr Hg)), Nb.
  destruct (Z.ltb_spec r g).
  - rewrite Zg, andb_false_r, (proj1 (norm_order g b Hg Hb)).
    destruct (Z.ltb_spec g b); f_equal; lia.
  - rewrite Zr, andb_false_r, (proj1 (norm_order r b Hr Hb)).
    destruct (Z.ltb_spec r b); f_equal; lia.
Qed.

Lemma Math_min_norm r g b :
  0 <= r <= 255 -> 0 <= g <= 255 -> 0 <= b <= 255 ->
  Math_min [norm r; norm g; norm b] = norm (Z.min (Z.min r g) b).
Proof.
  intros Hr Hg Hb.
  destruct (norm_facts r Hr) as (Nr & Zr & _ & Lr & _).
  destruct (norm_facts g Hg) as (Ng & Zg & _).
  destruct (norm_facts b Hb) as (Nb & Zb & _).
  unfold Math_min. cbn [Math_min_from].
  rewrite Nr, Zr. cbn [andb]. rewrite Lr, Ng, Zg. cbn [andb].
  rewrite (proj1 (norm_order g r Hg Hr)), Nb, Zb. cbn [andb].
  destruct (Z.ltb_spec g r).
  - rewrite (proj1 (norm_order b g Hb Hg)).
    destruct (Z.ltb_spec b g); f_equal; lia.
  - rewrite (proj1 (norm_order b r Hb Hr)).
    destruct (Z.ltb_spec b r); f_equal; lia.
Qed.

(** On integer channels [rgbToHsl] is [hsl_spec]. *)
Lemma rgbToHsl_hsl_spec r g b :
  0 <= r <= 255 -> 0 <= g <= 255 -> 0 <= b <= 255 ->
  rgbToHsl (Number_of_Z r) (Number_of_Z g) (Number_of_Z b) = hsl_spec r g b.
Proof.
  intros Hr Hg Hb. unfold rgbToHsl, hsl_spec.
  fold (norm r) (norm g) (norm b).
  rewrite Math_max_norm, Math_min_norm by assumption.
  set (mx := Z.max (Z.max r g) b). set (mn := Z.min (Z.min r g) b).
  assert (Hmx : 0 <= mx <= 255) by (unfold mx; lia).
  assert (Hmn : 0 <= mn <= 255) by (unfold mn; lia).
  rewrite (proj2 (norm_order mx mn Hmx Hmn)).
  destruct (mx =? mn) eqn:E; [reflexivity|].
  unfold hue_turns, hue_of, saturation, saturation_of, lightness, lightness_of. fold mx mn.
  rewrite (proj2 (norm_order mx r Hmx Hr)), (proj2 (norm_order mx g Hmx Hg)),
          (proj2 (norm_order mx b Hmx Hb)), (proj1 (norm_order g b Hg Hb)).
  rewrite (Z.eqb_sym mx r), (Z.eqb_sym mx g).
  destruct (r =? mx) eqn:Er; [reflexivity|].
  destruct (g =? mx) eqn:Eg; [reflexivity|].
  replace (mx =? b) with true; [reflexivity|].
  symmetry. apply Z.eqb_eq. apply Z.eqb_neq in Er, Eg. unfold mx in *. lia.
Qed.

Lemma channel_values_eq : channel_values = map norm (range 256).
Proof. vm_compute. reflexivity. Qed.

Lemma In_channel_values z : 0 <= z <= 255 -> In (norm z) channel_values.
Proof.
  intros Hz. rewrite channel_values_eq. apply in_map, In_range. lia.
Qed.

Lemma sl_all_ok :
  forallb (fun max => forallb (sl_ok max) channel_values) channel_values = true.
Proof. vm_compute. reflexivity. Qed.

Lemma hue_all_ok :
  forallb (fun R => forallb (fun G => forallb (hue_ok R G) channel_values)
                      channel_values) channel_values = true.
Proof. vm_compute. reflexivity. Qed.

Lemma norm_max r g b :
  (if r <? g then (if g <? b then norm b else norm g)
   else (if r <? b then norm b else norm r)) = norm (Z.max (Z.max r g) b).
Proof.
  destruct (Z.ltb_spec r g), (Z.ltb_spec g b), (Z.ltb_spec r b); f_equal; lia.
Qed.

Lemma norm_min r g b :
  (if g <? r then (if b <? g then norm b else norm g)
   else (if b <? r then norm b else norm r)) = norm (Z.min (Z.min r g) b).
Proof.
  destruct (Z.ltb_spec g r), (Z.ltb_spec b g), (Z.ltb_spec b r); f_equal; lia.
Qed.

Lemma hue_turns_hue_f r g b :
  0 <= r <= 255 -> 0 <= g <= 255 -> 0 <= b <= 255 ->
  hue_f (norm r) (norm g) (norm b) = hue_turns r g b.
Proof.
  intros Hr Hg Hb. unfold hue_f, hue_turns, hue_of.
  rewrite (proj1 (norm_order r g Hr Hg)), (proj1 (norm_order g b Hg Hb)),
          (proj1 (norm_order r b Hr Hb)), (proj1 (norm_order g r Hg Hr)),
          (proj1 (norm_order b g Hb Hg)), (proj1 (norm_order b r Hb Hr)).
  rewrite norm_max, norm_min.
  set (mx := Z.max (Z.max r g) b).
  assert (Hmx : 0 <= mx <= 255) by (unfold mx; lia).
  rewrite (proj2 (norm_order r mx Hr Hmx)), (proj2 (norm_order g mx Hg Hmx)).
  reflexivity.
Qed.

(** Every hue lies in [0, 360). *)
Lemma hue_turns_range r g b :
  0 <= r <= 255 -> 0 <= g <= 255 -> 0 <= b <= 255 -> ~ (r = g /\ g = b) ->
  in_degrees (hue_turns r g b * 360)%float = true.
Proof.
  intros Hr Hg Hb Hne.
  pose proof (proj1 (forallb_forall _ _) hue_all_ok _ (In_channel_values r Hr)) as H1.
  cbv beta in H1.
  pose proof (proj1 (forallb_forall _ _) H1 _ (In_channel_values g Hg)) as H2.
  cbv beta in H2.
  pose proof (proj1 (forallb_forall _ _) H2 _ (In_channel_values b Hb)) as H3.
  unfold hue_ok in H3.
  rewrite (proj2 (norm_order r g Hr Hg)), (proj2 (norm_order g b Hg Hb)) in H3.
  rewrite hue_turns_hue_f in H3 by assumption.
  apply orb_prop in H3. destruct H3 as [H3|H3]; [|exact H3].
  apply andb_prop in H3. destruct H3 as [E1 E2].
  apply Z.eqb_eq in E1, E2. tauto.
Qed.

Lemma lightness_range mx mn :
  0 <= mn <= mx -> mx <= 255 -> in_percent (lightness mx mn * 100)%float = true.
Proof.
  intros H1 H2.
  pose proof (proj1 (forallb_forall _ _) sl_all_ok _ (In_channel_values mx ltac:(lia))) as Ha.
  cbv beta in Ha.
  pose proof (proj1 (forallb_forall _ _) Ha _ (In_channel_values mn ltac:(lia))) as Hb.
  unfold sl_ok in Hb.
  rewrite (proj1 (norm_order mx mn ltac:(lia) ltac:(lia))) in Hb.
  destruct (Z.ltb_spec mx mn); [lia|]. cbn [orb] in Hb.
  apply andb_prop in Hb. apply Hb.
Qed.

Lemma saturation_range mx mn :
  0 <= mn < mx -> mx <= 255 -> in_percent (saturation mx mn * 100)%float = true.
Proof.
  intros H1 H2.
  pose proof (proj1 (forallb_forall _ _) sl_all_ok _ (In_channel_values mx ltac:(lia))) as Ha.
  cbv beta in Ha.
  pose proof (proj1 (forallb_forall _ _) Ha _ (In_channel_values mn ltac:(lia))) as Hb.
  unfold sl_ok in Hb.
  rewrite (proj1 (norm_order mx mn ltac:(lia) ltac:(lia))),
          (proj2 (norm_order mx mn ltac:(lia) ltac:(lia))) in Hb.
  destruct (Z.ltb_spec mx mn); [lia|]. destruct (Z.eqb_spec mx mn); [lia|].
  cbn [orb] in Hb. apply andb_prop in Hb. apply Hb.
Qed.

Lemma sub_self x : finite x -> (x - x)%float = zero.
Proof.
  unfold finite. intros H. apply Prim2SF_inj. rewrite sub_spec.
  destruct (Prim2SF x) as [s|s| |s m e]; try contradiction.
  - destruct s; reflexivity.
  - unfold SF64sub, SFsub. rewrite Z.sub_diag. reflexivity.
Qed.

Lemma finite_between lo hi x :
  finite lo -> finite hi ->
  (lo <=? x)%float = true -> ((x <=? hi)%float = true \/ (x <? hi)%float = true) ->
  finite x.
Proof.
  unfold finite. rewrite leb_spec, leb_spec, ltb_spec.
  destruct (Prim2SF x) as [s|s| |s m e]; try (intros; exact I).
  - destruct (Prim2SF lo) as [sl|sl| |sl ml el], (Prim2SF hi) as [sh|sh| |sh mh eh];
      try contradiction; intros _ _; destruct s; cbn; intros H1 [H2|H2]; discriminate.
  - destruct (Prim2SF lo) as [sl|sl| |sl ml el]; try contradiction; intros _ _ H; discriminate.
Qed.

Lemma finite_in_percent x : in_percent x = true -> finite x.
Proof.
  unfold in_percent. intros H. apply andb_prop in H. destruct H as [H1 H2].
  apply (finite_between 0%float 100%float); [exact I|exact I|exact H1|left; exact H2].
Qed.

Lemma finite_in_degrees x : in_degrees x = true -> finite x.
Proof.
  unfold in_degrees. intros H. apply andb_prop in H. destruct H as [H1 H2].
  apply (finite_between 0%float 360%float); [exact I|exact I|exact H1|right; exact H2].
Qed.

Lemma Prim2SF_Number_of_Z_pos p :
  Zpos p < 2 ^ 53 ->
  exists m e, Prim2SF (Number_of_Z (Zpos p)) = S754_finite false m e.
Proof.
  intros Hp. destruct (binary_normalize_small p Hp) as (m & e & Hn & Hb & _).
  exists m, e. unfold Number_of_Z. rewrite Hn. apply Prim2SF_SF2Prim, Hb.
Qed.

Lemma zero_div_Number_of_Z z :
  0 < z < 2 ^ 53 -> (0 / Number_of_Z z)%float = zero.
Proof.
  intros Hz. destruct z as [|p|p]; try lia.
  destruct (Prim2SF_Number_of_Z_pos p (proj2 Hz)) as (m & e & H).
  apply Prim2SF_inj. rewrite div_spec, H. reflexivity.
Qed.

Lemma hsl_spec_range r g b :
  0 <= r <= 255 -> 0 <= g <= 255 -> 0 <= b <= 255 ->
  exists h s l, hsl_spec r g b = [h; s; l]
    /\ in_degrees h = true /\ in_percent s = true /\ in_percent l = true.
Proof.
  intros Hr Hg Hb. unfold hsl_spec.
  set (mx := Z.max (Z.max r g) b). set (mn := Z.min (Z.min r g) b).
  assert (Hm : 0 <= mn <= mx /\ mx <= 255) by (unfold mx, mn; lia).
  pose proof (lightness_range mx mn (proj1 Hm) (proj2 Hm)) as Hl.
  destruct (Z.eqb_spec mx mn) as [E|E].
  - do 3 eexists. split; [reflexivity|].
    split; [reflexivity|]. split; [reflexivity|exact Hl].
  - do 3 eexists. split; [reflexivity|]. split; [|split].
    + apply hue_turns_range; try assumption. unfold mx, mn in E. lia.
    + apply saturation_range; lia.
    + exact Hl.
Qed.

Lemma Number_of_Z_finite z : 0 <= z < 2 ^ 53 -> finite (Number_of_Z z).
Proof.
  intros Hz. destruct z as [|p|p]; try lia.
  - exact I.
  - unfold finite. destruct (Prim2SF_Number_of_Z_pos p (proj2 Hz)) as (m & e & ->). exact I.
Qed.

Section ScoreLemmas.

Local Open Scope float_scope.

Lemma question_step_unfold qs inputs acc i q v :
  nth_error qs i = Some q -> nth_error inputs i = Some v ->
  question_step qs inputs acc i =
    let C := map Number_of_Z [Question.r q; Question.g q; Question.b q] in
    let U := map Number_of_Z (userRgb v) in
    Return (fold_left
              (channel_step U C (rgbToHsl (get U 0) (get U 1) (get U 2))
                                (rgbToHsl (get C 0) (get C 1) (get C 2)))
              [0%nat; 1%nat; 2%nat] acc).
Proof.
  intros Hq Hv. unfold question_step, lookup. rewrite Hq, Hv. reflexivity.
Qed.

(** A colour compared with itself has no error in any channel. *)
Lemma channel_steps_same x0 x1 x2 h s l a0 a1 a2 b0 b1 b2 sq :
  finite x0 -> finite x1 -> finite x2 -> finite h -> finite s -> finite l ->
  fold_left (channel_step [x0; x1; x2] [x0; x1; x2] [h; s; l] [h; s; l])
    [0%nat; 1%nat; 2%nat]
    {| totalRgbError := [a0; a1; a2]; totalHslError := [b0; b1; b2];
       squaredErrors := sq |}
  = {| totalRgbError := [a0 + 0; a1 + 0; a2 + 0];
       totalHslError := [b0 + 0; b1 + 0; b2 + 0];
       squaredErrors := sq ++ [0; 0; 0] |}.
Proof.
  intros F0 F1 F2 Fh Fs Fl.
  cbn [fold_left]. unfold channel_step, hslError, Math_abs.
  cbn [get set nth totalRgbError totalHslError squaredErrors Nat.eqb].
  rewrite !sub_self by assumption.
  rewrite <- !app_assoc. reflexivity.
Qed.

End ScoreLemmas.

Lemma userRgb_answer r g b :
  0 <= r <= 255 -> 0 <= g <= 255 -> 0 <= b <= 255 ->
  userRgb (slice (hexOf r g b) 1) = [r; g; b].
Proof.
  intros Hr Hg Hb. unfold userRgb. rewrite hexOf_bytes. cbn [slice].
  destruct (hex_byte_digits r Hr) as (c1 & c2 & d1 & d2 & -> & H1 & H2 & <-).
  destruct (hex_byte_digits g Hg) as (c3 & c4 & d3 & d4 & -> & H3 & H4 & <-).
  destruct (hex_byte_digits b Hb) as (c5 & c6 & d5 & d6 & -> & H5 & H6 & <-).
  cbn [append or_else]. apply hexToRgb_six_digits; assumption.
Qed.

Lemma repeat_three (x : Number) k :
  (repeat x (3 * k) ++ [x; x; x])%list = repeat x (3 * S k).
Proof.
  replace (3 * S k)%nat with (3 * k + 3)%nat by lia.
  rewrite repeat_app. reflexivity.
Qed.

Lemma question_step_perfect qs i q k :
  well_formed q -> nth_error qs i = Some q ->
  question_step qs (map answer_of qs) (zero_totals k) i = Return (zero_totals (S k)).
Proof.
  intros (Hr & Hg & Hb & Hh) Hq.
  rewrite (question_step_unfold qs _ _ i q (answer_of q) Hq)
    by (apply map_nth_error, Hq).
  unfold answer_of. rewrite Hh, userRgb_answer by assumption.
  cbn [map get nth]. cbv zeta.
  rewrite rgbToHsl_hsl_spec by assumption.
  destruct (hsl_spec_range _ _ _ Hr Hg Hb) as (h & s & l & -> & Dh & Ps & Pl).
  unfold zero_totals.
  rewrite channel_steps_same;
    try (apply Number_of_Z_finite; change (2 ^ 53) with 9007199254740992; lia);
    try (apply finite_in_degrees; assumption); try (apply finite_in_percent; assumption).
  rewrite repeat_three. reflexivity.
Qed.

Lemma for_each_perfect qs k s m :
  Forall well_formed qs -> (s + k <= List.length qs)%nat ->
  for_each (question_step qs (map answer_of qs)) (seq s k) (zero_totals m)
  = Return (zero_totals (m + k)).
Proof.
  intros Hwf. revert s m. induction k as [|k IH]; intros s m Hlen.
  - cbn. rewrite Nat.add_0_r. reflexivity.
  - cbn [seq for_each].
    destruct (nth_error qs s) as [q|] eqn:Hq.
    2:{ apply nth_error_None in Hq. lia. }
    rewrite (question_step_perfect qs s q m).
    + cbn [bind]. rewrite IH by lia. f_equal. f_equal. lia.
    + rewrite Forall_forall in Hwf. apply Hwf. eapply nth_error_In, Hq.
    + exact Hq.
Qed.

Lemma sum_zeros k : sum_of (repeat 0%float k) = 0%float.
Proof.
  unfold sum_of. induction k as [|k IH]; [reflexivity|]. cbn [repeat fold_left].
  change (0 + 0)%float with 0%float. exact IH.
Qed.

Lemma report_zero n :
  (0 < n)%nat -> 3 * Z.of_nat n < 2 ^ 53 -> report n (zero_totals n) = zero_report.
Proof.
  intros Hn Hb. unfold report, zero_totals.
  cbn [totalRgbError totalHslError squaredErrors map].
  fold (sum_of (repeat 0%float (3 * n))). rewrite sum_zeros.
  unfold length_Number. rewrite repeat_length.
  rewrite !zero_div_Number_of_Z by lia. reflexivity.
Qed.

Lemma calculateScore_perfect n qs :
  (0 < n)%nat -> 3 * Z.of_nat n < 2 ^ 53 ->
  List.length qs = n -> Forall well_formed qs ->
  calculateScore n qs (map answer_of qs) = Return zero_report.
Proof.
  intros Hn Hb Hlen Hwf. unfold calculateScore.
  change initial with (zero_totals 0).
  rewrite for_each_perfect by (assumption || lia).
  cbn [bind Nat.add]. rewrite report_zero by assumption. reflexivity.
Qed.

(** The session that [setupQuestions] stores has [numQuestions]
    well-formed questions and as many empty answers. *)
Lemma setupQuestions_well_formed n draw :
  byte_draw draw ->
  List.length (fst (setupQuestions n draw)) = n
  /\ Forall well_formed (fst (setupQuestions n draw))
  /\ snd (setupQuestions n draw) = repeat EmptyString n.
Proof.
  intros Hd. unfold setupQuestions. cbn [fst snd].
  split; [rewrite length_map, length_seq; reflexivity|].
  split; [|reflexivity].
  apply Forall_forall. intros q Hq. apply in_map_iff in Hq.
  destruct Hq as (i & <- & _). specialize (Hd i).
  destruct (draw i) as [[r g] b]. unfold well_formed, question_of. cbn.
  intuition.
Qed.

Lemma setupQuestions_perfect draw :
  byte_draw draw ->
  calculateScore numQuestions (fst (setupQuestions numQuestions draw))
    (map answer_of (fst (setupQuestions numQuestions draw)))
  = Return zero_report.
Proof.
  intros Hd.
  destruct (setupQuestions_well_formed numQuestions draw Hd) as (Hlen & Hwf & _).
  apply calculateScore_perfect; try assumption.
  - unfold numQuestions. lia.
  - vm_compute. reflexivity.
Qed.

(** ** The squared errors that the loop collects *)

Lemma squaredErrors_channel_steps U C UH CH acc :
  squaredErrors (fold_left (channel_step U C UH CH) [0%nat; 1%nat; 2%nat] acc)
  = (squaredErrors acc
     ++ map (fun j => square ((get U j - get C j) / 255)%float) [0%nat; 1%nat; 2%nat])%list.
Proof.
  cbn [fold_left map]. unfold channel_step. cbn [squaredErrors].
  rewrite <- !app_assoc. reflexivity.
Qed.

Lemma squared_errors_of_question q v :
  map (fun j => square ((get (map Number_of_Z (userRgb v)) j
                         - get (map Number_of_Z [Question.r q; Question.g q; Question.b q]) j)
                        / 255)%float) [0%nat; 1%nat; 2%nat]
  = map square (rgbErrors q v).
Proof. reflexivity. Qed.

Lemma for_each_squares qs inputs k s acc :
  (s + k <= List.length qs)%nat -> (s + k <= List.length inputs)%nat ->
  exists acc', for_each (question_step qs inputs) (seq s k) acc = Return acc'
    /\ squaredErrors acc'
       = (squaredErrors acc ++ flat_map (squared_errors_at qs inputs) (seq s k))%list.
Proof.
  revert s acc. induction k as [|k IH]; intros s acc Hq Hi.
  - exists acc. cbn. rewrite app_nil_r. split; reflexivity.
  - cbn [seq for_each flat_map].
    destruct (nth_error qs s) as [q|] eqn:Eq.
    2:{ apply nth_error_None in Eq. lia. }
    destruct (nth_error inputs s) as [v|] eqn:Ev.
    2:{ apply nth_error_None in Ev. lia. }
    rewrite (question_step_unfold qs inputs acc s q v Eq Ev). cbv zeta. cbn [bind].
    destruct (IH (S s) (fold_left
       (channel_step (map Number_of_Z (userRgb v))
          (map Number_of_Z [Question.r q; Question.g q; Question.b q])
          (rgbToHsl (get (map Number_of_Z (userRgb v)) 0)
             (get (map Number_of_Z (userRgb v)) 1) (get (map Number_of_Z (userRgb v)) 2))
          (rgbToHsl (get (map Number_of_Z [Question.r q; Question.g q; Question.b q]) 0)
             (get (map Number_of_Z [Question.r q; Question.g q; Question.b q]) 1)
             (get (map Number_of_Z [Question.r q; Question.g q; Question.b q]) 2)))
       [0%nat; 1%nat; 2%nat] acc)) as (acc' & Hrun & Hsq); try lia.
    exists acc'. split; [exact Hrun|].
    rewrite Hsq, squaredErrors_channel_steps, squared_errors_of_question.
    unfold squared_errors_at at 2. rewrite Eq, Ev, <- app_assoc. reflexivity.
Qed.

Lemma squared_errors_at_length qs inputs i :
  (i < List.length qs)%nat -> (i < List.length inputs)%nat ->
  List.length (squared_errors_at qs inputs i) = 3%nat.
Proof.
  intros Hq Hi. unfold squared_errors_at.
  destruct (nth_error qs i) eqn:Eq; [|apply nth_error_None in Eq; lia].
  destruct (nth_error inputs i) eqn:Ev; [|apply nth_error_None in Ev; lia].
  reflexivity.
Qed.

Lemma pooled_length qs inputs k s :
  (s + k <= List.length qs)%nat -> (s + k <= List.length inputs)%nat ->
  List.length (flat_map (squared_errors_at qs inputs) (seq s k)) = (3 * k)%nat.
Proof.
  revert s. induction k as [|k IH]; intros s Hq Hi; [reflexivity|].
  cbn [seq flat_map]. rewrite length_app, squared_errors_at_length, IH by lia. lia.
Qed.

Lemma calculateScore_rmse n qs inputs :
  (n <= List.length qs)%nat -> (n <= List.length inputs)%nat ->
  exists rep, calculateScore n qs inputs = Return rep
    /\ rmse rep = root_mean_percent (pooled_squared_errors n qs inputs).
Proof.
  intros Hq Hi. unfold calculateScore.
  destruct (for_each_squares qs inputs n 0 initial) as (acc & -> & Hsq); try lia.
  eexists. split; [reflexivity|].
  unfold report. cbn [rmse]. rewrite Hsq. reflexivity.
Qed.

(** ** Answers that parse alike score alike *)

Lemma for_each_ext step1 step2 l acc :
  (forall a i, step1 a i = step2 a i) -> for_each step1 l acc = for_each step2 l acc.
Proof.
  intros H. revert acc. induction l as [|i l IH]; intros acc; [reflexivity|].
  cbn. rewrite H. destruct (step2 acc i); [apply IH|reflexivity].
Qed.

Lemma calculateScore_map_inputs (f : string -> string) n qs inputs :
  (forall v, userRgb (f v) = userRgb v) ->
  calculateScore n qs (map f inputs) = calculateScore n qs inputs.
Proof.
  intros Hf. unfold calculateScore. f_equal.
  apply for_each_ext. intros a i. unfold question_step, lookup.
  destruct (nth_error qs i) as [q|]; [|reflexivity]. cbn [bind].
  rewrite nth_error_map. destruct (nth_error inputs i) as [v|]; [|reflexivity].
  cbn [option_map bind]. rewrite Hf. reflexivity.
Qed.

Lemma userRgb_or_else v : userRgb (or_else v "000000") = userRgb v.
Proof. destruct v; reflexivity. Qed.

(** ** Every string is parsed to three bytes *)

Lemma land_255_range x : 0 <= Z.land x 255 <= 255.
Proof.
  change 255 with (Z.ones 8) at 1 2. rewrite Z.land_ones by lia.
  pose proof (Z.mod_pos_bound x (2 ^ 8) ltac:(lia)). change (2 ^ 8) with 256 in *. lia.
Qed.

Lemma hexToRgb_bytes hex :
  exists r g b, hexToRgb hex = [r; g; b]
    /\ 0 <= r <= 255 /\ 0 <= g <= 255 /\ 0 <= b <= 255.
Proof.
  unfold hexToRgb, bitand. do 3 eexists. split; [reflexivity|].
  repeat split; apply land_255_range.
Qed.

Lemma ToInt32_nan x : is_nan x = true -> ToInt32 x = 0.
Proof.
  intros H. unfold ToInt32, truncate, Prim2SF. rewrite H. reflexivity.
Qed.

Lemma hexToRgb_nan hex :
  is_nan (parseInt (slice hex 1) 16) = true -> hexToRgb hex = [0; 0; 0].
Proof.
  intros H. unfold hexToRgb, sar, bitand. rewrite (ToInt32_nan _ H). reflexivity.
Qed.

Section CaseBlind.

Variable f : ascii -> ascii.

Hypothesis f_blind : forall c, case_blind f c = true.

Lemma case_blind_facts c :
  digit_value (f c) = digit_value c
  /\ is_white_space (f c) = is_white_space c
  /\ (f c =? "-")%char = (c =? "-")%char
  /\ (f c =? "+")%char = (c =? "+")%char
  /\ (f c =? "0")%char = (c =? "0")%char
  /\ ((f c =? "x") || (f c =? "X"))%char = ((c =? "x") || (c =? "X"))%char.
Proof.
  pose proof (f_blind c) as H. unfold case_blind in H.
  repeat (apply andb_prop in H; destruct H as [H ?]).
  repeat match goal with H : Bool.eqb _ _ = true |- _ => apply eqb_prop in H end.
  repeat split; try assumption.
  destruct (digit_value (f c)), (digit_value c); try discriminate; [|reflexivity].
  apply Z.eqb_eq in H. congruence.
Qed.

Lemma trim_start_map s : trim_start (map_string f s) = map_string f (trim_start s).
Proof.
  induction s as [|c s IH]; [reflexivity|]. cbn [map_string trim_start].
  rewrite (proj1 (proj2 (case_blind_facts c))).
  destruct (is_white_space c); [exact IH|reflexivity].
Qed.

Lemma strip_sign_map s :
  strip_sign (map_string f s) = (fst (strip_sign s), map_string f (snd (strip_sign s))).
Proof.
  destruct s as [|c s]; [reflexivity|]. cbn [map_string strip_sign].
  destruct (case_blind_facts c) as (_ & _ & -> & -> & _).
  destruct (c =? "-")%char; [reflexivity|]. destruct (c =? "+")%char; reflexivity.
Qed.

Lemma has_0x_map s : has_0x (map_string f s) = has_0x s.
Proof.
  destruct s as [|c1 [|c2 s]]; try reflexivity. cbn [map_string has_0x].
  destruct (case_blind_facts c1) as (_ & _ & _ & _ & -> & _).
  destruct (case_blind_facts c2) as (_ & _ & _ & _ & _ & ->). reflexivity.
Qed.

Lemma slice_map s n : slice (map_string f s) n = map_string f (slice s n).
Proof.
  revert s. induction n as [|n IH]; intros s; [reflexivity|].
  destruct s as [|c s]; [reflexivity|]. cbn [map_string slice]. apply IH.
Qed.

Lemma digits_prefix_map R s : digits_prefix R (map_string f s) = digits_prefix R s.
Proof.
  induction s as [|c s IH]; [reflexivity|]. cbn [map_string digits_prefix].
  unfold radix_digit. rewrite (proj1 (case_blind_facts c)), IH. reflexivity.
Qed.

Lemma parseInt_map s R : parseInt (map_string f s) R = parseInt s R.
Proof.
  unfold parseInt. rewrite trim_start_map, strip_sign_map.
  destruct (strip_sign (trim_start s)) as [neg str]. cbn [fst snd].
  rewrite has_0x_map.
  destruct (((R =? 0) || (R =? 16)) && has_0x str);
    rewrite ?slice_map, digits_prefix_map; reflexivity.
Qed.

Lemma userRgb_map v : userRgb (map_string f v) = userRgb v.
Proof.
  unfold userRgb, hexToRgb. destruct v as [|c v]; [reflexivity|].
  cbn [map_string or_else append slice].
  change (String (f c) (map_string f v)) with (map_string f (String c v)).
  rewrite parseInt_map. reflexivity.
Qed.

End CaseBlind.

Lemma lower_char_blind c : case_blind lower_char c = true.
Proof. apply (forall_ascii (case_blind lower_char)). vm_compute. reflexivity. Qed.

Lemma upper_char_blind c : case_blind upper_char c = true.
Proof. apply (forall_ascii (case_blind upper_char)). vm_compute. reflexivity. Qed.

Lemma hexToRgb_case_variant r g b s :
  0 <= r <= 255 -> 0 <= g <= 255 -> 0 <= b <= 255 ->
  toLowerCase s = toLowerCase (slice (hexOf r g b) 1) ->
  hexToRgb ("#" ++ s) = [r; g; b].
Proof.
  intros Hr Hg Hb Hs.
  rewrite <- (hexToRgb_hexOf r g b Hr Hg Hb).
  rewrite hexOf_bytes. unfold hexToRgb. cbn [append slice].
  rewrite <- (parseInt_map lower_char lower_char_blind s).
  fold (toLowerCase s). rewrite Hs, hexOf_bytes. cbn [slice].
  unfold toLowerCase. rewrite parseInt_map by apply lower_char_blind. reflexivity.
Qed.

(** * Rounding in binary64: what bounds a rounded result *)

Lemma fexp_eq x : fexp prec emax x = Z.max (x - 53) (-1074).
Proof. reflexivity. Qed.

Lemma Zdigits2_nonneg m : 0 <= Zdigits2 m.
Proof. destruct m; simpl; lia. Qed.

Lemma Zdigits2_upper m : 0 <= m -> m < 2 ^ Zdigits2 m.
Proof.
  intros Hm. destruct m as [|p|p]; [simpl; lia| |lia].
  simpl. rewrite digits2_pos_size.
  pose proof (Pos.size_gt p) as H.
  apply Pos2Z.pos_lt_pos in H. rewrite Pos2Z.inj_pow in H. exact H.
Qed.

Lemma Zdigits2_lower m : 0 < m -> 2 ^ (Zdigits2 m - 1) <= m.
Proof.
  intros Hm. destruct m as [|p|p]; try lia.
  change (Zdigits2 (Zpos p)) with (Zpos (digits2_pos p)). rewrite digits2_pos_size.
  pose proof (Pos.size_le p) as H.
  apply Pos2Z.pos_le_pos in H. rewrite Pos2Z.inj_pow in H.
  change (Zpos p~0) with (2 * Zpos p) in H.
  replace (Zpos (Pos.size p)) with (Z.succ (Zpos (Pos.size p) - 1)) in H by lia.
  rewrite Z.pow_succ_r in H by lia. lia.
Qed.

(** [iter_pos] is plain iteration. *)
Lemma iter_pos_nat {A} (f : A -> A) p x :
  iter_pos f p x = Nat.iter (Pos.to_nat p) f x.
Proof.
  revert x. induction p as [p IH|p IH|]; intros x; cbn [iter_pos].
  - rewrite !IH, Pos2Nat.inj_xI. cbn [Nat.mul].
    rewrite Nat.add_0_r, Nat.iter_succ_r, Nat.iter_add. reflexivity.
  - rewrite !IH, Pos2Nat.inj_xO. cbn [Nat.mul].
    rewrite Nat.add_0_r, Nat.iter_add. reflexivity.
  - reflexivity.
Qed.

Lemma shr_1_spec mrs :
  0 <= shr_m mrs ->
  shr_m (shr_1 mrs) = shr_m mrs / 2
  /\ inexact (shr_1 mrs) = Z.odd (shr_m mrs) || inexact mrs.
Proof.
  destruct mrs as [m r s]. cbn [shr_m]. intros Hm. unfold inexact.
  destruct m as [|[p|p|]|p]; try lia; cbn [shr_1 shr_m shr_r shr_s Z.odd orb].
  - split; [reflexivity|]. reflexivity.
  - split; [rewrite Pos2Z.inj_xI; apply Z.div_unique with 1; lia|reflexivity].
  - split; [rewrite Pos2Z.inj_xO; apply Z.div_unique with 0; lia|reflexivity].
  - split; reflexivity.
Qed.

Lemma shr_iter_spec k mrs :
  0 <= shr_m mrs ->
  let mrs' := Nat.iter k shr_1 mrs in
  shr_m mrs' = shr_m mrs / 2 ^ Z.of_nat k
  /\ (inexact mrs' = true -> inexact mrs = true \/ shr_m mrs mod 2 ^ Z.of_nat k <> 0).
Proof.
  intros Hm. induction k as [|k IH]; cbv zeta.
  - cbn [Nat.iter]. split; [rewrite Z.div_1_r; reflexivity|]. intros H. left. exact H.
  - cbv zeta in IH. destruct IH as [IHm IHi]. rewrite Nat.iter_succ.
    assert (H0 : 0 <= shr_m (Nat.iter k shr_1 mrs)).
    { rewrite IHm. apply Z.div_pos; lia. }
    destruct (shr_1_spec _ H0) as [Em Ei]. rewrite Em, Ei, IHm.
    replace (Z.of_nat (S k)) with (Z.succ (Z.of_nat k)) by lia.
    rewrite Z.pow_succ_r by lia.
    assert (P : 0 < 2 ^ Z.of_nat k) by (apply Z.pow_pos_nonneg; lia).
    split.
    + rewrite Z.div_div by lia. f_equal. lia.
    + intros H. apply orb_prop in H. destruct H as [H|H].
      * right. intros Hz.
        assert (shr_m mrs = 2 * 2 ^ Z.of_nat k * (shr_m mrs / (2 * 2 ^ Z.of_nat k))) as E.
        { pose proof (Z.div_mod (shr_m mrs) (2 * 2 ^ Z.of_nat k) ltac:(lia)). lia. }
        set (q := shr_m mrs / (2 * 2 ^ Z.of_nat k)) in *.
        assert (shr_m mrs / 2 ^ Z.of_nat k = 2 * q) as E2.
        { rewrite E. replace (2 * 2 ^ Z.of_nat k * q) with (2 * q * 2 ^ Z.of_nat k) by ring.
          apply Z.div_mul. lia. }
        rewrite E2, Z.odd_mul in H. discriminate.
      * destruct (IHi H) as [Hi|Hi]; [left; exact Hi|right].
        intros Hz. apply Hi.
        pose proof (Z.div_mod (shr_m mrs) (2 * 2 ^ Z.of_nat k) ltac:(lia)) as E.
        rewrite Hz, Z.add_0_r in E.
        rewrite E. replace (2 * 2 ^ Z.of_nat k * (shr_m mrs / (2 * 2 ^ Z.of_nat k)))
          with (2 * (shr_m mrs / (2 * 2 ^ Z.of_nat k)) * 2 ^ Z.of_nat k) by ring.
        apply Z.mod_mul. lia.
Qed.

Lemma loc_of_shr_record_of_loc m l : loc_of_shr_record (shr_record_of_loc m l) = l.
Proof. destruct l as [|[]]; reflexivity. Qed.

Lemma inexact_shr_record_of_loc m l :
  inexact (shr_record_of_loc m l) = true -> l <> loc_Exact.
Proof. destruct l as [|[]]; cbn; intros H; congruence. Qed.

Lemma shr_m_shr_record_of_loc m l : shr_m (shr_record_of_loc m l) = m.
Proof. destruct l as [|[]]; reflexivity. Qed.

Lemma loc_Exact_inexact mrs : loc_of_shr_record mrs <> loc_Exact -> inexact mrs = true.
Proof. destruct mrs as [m [] []]; cbn; intros H; congruence. Qed.

(** [shr]: the mantissa is divided by [2^n], and the location is inexact
    only if it was or if a non-zero bit went out. *)
Lemma shr_spec m l e n :
  0 <= m -> 0 <= n ->
  let '(mrs, e') := shr (shr_record_of_loc m l) e n in
  shr_m mrs = m / 2 ^ n /\ e' = e + n
  /\ (loc_of_shr_record mrs <> loc_Exact -> l <> loc_Exact \/ m mod 2 ^ n <> 0).
Proof.
  intros Hm Hn. unfold shr. destruct n as [|p|p]; try lia.
  - rewrite shr_m_shr_record_of_loc, loc_of_shr_record_of_loc, Z.div_1_r.
    split; [reflexivity|]. split; [lia|]. intros H. left. exact H.
  - rewrite iter_pos_nat.
    pose proof (shr_iter_spec (Pos.to_nat p) (shr_record_of_loc m l)) as H.
    rewrite shr_m_shr_record_of_loc in H. specialize (H Hm). cbv zeta in H.
    rewrite positive_nat_Z in H. destruct H as [H1 H2].
    split; [exact H1|]. split; [reflexivity|].
    intros Hl. destruct (H2 (loc_Exact_inexact _ Hl)) as [Hi|Hi]; [left|right; exact Hi].
    apply (inexact_shr_record_of_loc m l Hi).
Qed.

Lemma round_nearest_even_spec m l :
  m <= round_nearest_even m l <= m + 1
  /\ (l = loc_Exact -> round_nearest_even m l = m).
Proof.
  destruct l as [|[]]; cbn; try (destruct (Z.even m)); split; try lia; try reflexivity;
    intros; congruence.
Qed.

Lemma scaled_shift m e n :
  -1074 <= e -> 0 <= n -> scaled m (e + n) = m * 2 ^ n * 2 ^ (e + 1074).
Proof.
  intros He Hn. unfold scaled.
  replace (e + n + 1074) with (n + (e + 1074)) by lia.
  rewrite Z.pow_add_r by lia. ring.
Qed.

Lemma shr_nonpos mrs e n : n <= 0 -> shr mrs e n = (mrs, e).
Proof. destruct n; try reflexivity. lia. Qed.

Lemma pow2_pos x : 0 <= x -> 0 < 2 ^ x.
Proof. intros. apply Z.pow_pos_nonneg; lia. Qed.

Lemma div_pow2_mul_le m n : 0 <= m -> 0 <= n -> m / 2 ^ n * 2 ^ n <= m.
Proof.
  intros Hm Hn. pose proof (pow2_pos n Hn).
  pose proof (Z.mul_div_le m (2 ^ n) ltac:(lia)). lia.
Qed.

(** A rounded value does not exceed a binary64 number that the exact
    value does not exceed. *)
Lemma binary_round_aux_upper sx m e l mc ec :
  0 <= m -> -1074 <= e -> e <= fexp prec emax (Zdigits2 m + e) ->
  Zpos (digits2_pos mc) <= 53 -> -1074 <= ec <= 971 ->
  scaled m e <= scaled (Zpos mc) ec ->
  (l <> loc_Exact -> scaled m e < scaled (Zpos mc) ec) ->
  binary_round_aux prec emax sx m e l = S754_zero sx
  \/ exists m3 e3,
       binary_round_aux prec emax sx m e l = S754_finite sx m3 e3
       /\ -1074 <= e3 <= ec /\ scaled (Zpos m3) e3 <= scaled (Zpos mc) ec.
Proof.
  intros Hm He Hfe Hdc Hec Hle Hlt.
  assert (Hmc : Zpos mc < 2 ^ 53).
  { apply Z.lt_le_trans with (2 ^ Zpos (digits2_pos mc)).
    - apply (Zdigits2_upper (Zpos mc)). lia.
    - apply Z.pow_le_mono_r; lia. }
  pose proof (pow2_pos (e + 1074) ltac:(lia)) as Pe.
  pose proof (pow2_pos (ec + 1074) ltac:(lia)) as Pec.
  unfold binary_round_aux, shr_fexp.
  set (d := Zdigits2 m) in *.
  set (n := fexp prec emax (d + e) - e).
  assert (Hn : 0 <= n) by (unfold n; lia).
  pose proof (shr_spec m l e n Hm Hn) as H1.
  destruct (shr (shr_record_of_loc m l) e n) as [mrs1 e1].
  destruct H1 as (Hm1 & He1 & Hl1).
  set (m1 := shr_m mrs1) in *. set (l1 := loc_of_shr_record mrs1) in *.
  destruct (round_nearest_even_spec m1 l1) as (Hr & Hrx).
  set (m2 := round_nearest_even m1 l1) in *.
  pose proof (pow2_pos n Hn) as Pn.
  assert (Hm1pos : 0 <= m1) by (rewrite Hm1; apply Z.div_pos; lia).
  assert (Hfx : e1 = fexp prec emax (d + e)) by (unfold n in He1; lia).
  (* the exponent does not pass that of the bound *)
  assert (He1c : e1 <= ec).
  { destruct (Z_le_gt_dec e1 ec) as [|Hgt]; [assumption|exfalso].
    rewrite fexp_eq in Hfx.
    assert (Hd : d = e1 - e + 53) by lia.
    assert (Hmpos : 0 < m).
    { destruct (Z.eq_dec m 0) as [->|]; [|lia]. unfold d in Hd. cbn in Hd. lia. }
    pose proof (Zdigits2_lower m Hmpos) as Hlow. fold d in Hlow.
    unfold scaled in Hle.
    assert (2 ^ (d - 1) * 2 ^ (e + 1074) <= Zpos mc * 2 ^ (ec + 1074)) as Hc by nia.
    rewrite <- Z.pow_add_r in Hc by lia.
    assert (2 ^ (53 + (ec + 1074)) <= 2 ^ (d - 1 + (e + 1074))) as Hp
      by (apply Z.pow_le_mono_r; lia).
    rewrite Z.pow_add_r in Hp by lia. nia. }
  (* the rounded mantissa stays below the bound *)
  assert (Hm2 : scaled m2 e1 <= scaled (Zpos mc) ec).
  { set (C := Zpos mc * 2 ^ (ec - e1)).
    pose proof (pow2_pos (ec - e1) ltac:(lia)) as Pd.
    assert (HC : scaled (Zpos mc) ec = C * 2 ^ n * 2 ^ (e + 1074)).
    { unfold scaled, C.
      replace (ec + 1074) with ((ec - e1) + (n + (e + 1074))) by lia.
      rewrite !Z.pow_add_r by lia. ring. }
    assert (HmC : m <= C * 2 ^ n).
    { rewrite HC in Hle. unfold scaled in Hle.
      apply (Z.mul_le_mono_pos_r _ _ (2 ^ (e + 1074))); assumption. }
    assert (Hm1C : m1 <= C).
    { rewrite Hm1. apply Z.div_le_upper_bound; lia. }
    assert (Hm2C : m2 <= C).
    { destruct (Z.eq_dec m1 C) as [E|E]; [|lia].
      assert (Hex : l1 = loc_Exact).
      { destruct l1 as [|c] eqn:El; [reflexivity|exfalso].
        destruct Hl1 as [Hl|Hr']; [congruence| |].
        - specialize (Hlt Hl). rewrite HC in Hlt. unfold scaled in Hlt.
          assert (m < C * 2 ^ n)
            by (apply (Z.mul_lt_mono_pos_r (2 ^ (e + 1074))); assumption).
          assert (m / 2 ^ n < C) by (apply Z.div_lt_upper_bound; lia). lia.
        - pose proof (Z.div_mod m (2 ^ n) ltac:(lia)) as Ed.
          pose proof (Z.mod_pos_bound m (2 ^ n) Pn). rewrite <- Hm1 in Ed. nia. }
      rewrite (Hrx Hex). lia. }
    rewrite HC. unfold scaled. rewrite He1.
    replace (e + n + 1074) with (n + (e + 1074)) by lia.
    rewrite Z.pow_add_r, Z.mul_assoc by lia.
    apply Z.mul_le_mono_nonneg_r; [lia|].
    apply Z.mul_le_mono_nonneg_r; [lia|exact Hm2C]. }
  assert (Hm2pos : 0 <= m2) by lia.
  assert (He1lo : -1074 <= e1) by lia.
  (* the second shift *)
  set (n2 := fexp prec emax (Zdigits2 m2 + e1) - e1).
  assert (Hf2 : fexp prec emax (Zdigits2 m2 + e1) <= ec).
  { rewrite fexp_eq. apply Z.max_lub; [|lia].
    destruct (Z.eq_dec m2 0) as [->|Hnz]; [cbn; lia|].
    pose proof (Zdigits2_lower m2 ltac:(lia)) as Hlow.
    unfold scaled in Hm2.
    pose proof (pow2_pos (e1 + 1074) ltac:(lia)) as Pe1.
    assert (2 ^ (Zdigits2 m2 - 1) * 2 ^ (e1 + 1074) < 2 ^ 53 * 2 ^ (ec + 1074)) as Hc by nia.
    pose proof (Zdigits2_nonneg m2).
    assert (Hd1 : 1 <= Zdigits2 m2).
    { destruct m2; cbn in *; lia. }
    rewrite <- !Z.pow_add_r in Hc by lia.
    apply Z.pow_lt_mono_r_iff in Hc; lia. }
  assert (H3 : exists mrs3 e3,
             shr (shr_record_of_loc m2 loc_Exact) e1 n2 = (mrs3, e3)
             /\ 0 <= shr_m mrs3 /\ -1074 <= e3 <= ec
             /\ scaled (shr_m mrs3) e3 <= scaled (Zpos mc) ec).
  { destruct (Z_le_gt_dec n2 0) as [Hn2|Hn2].
    - rewrite shr_nonpos by assumption. do 2 eexists. split; [reflexivity|].
      cbn [shr_record_of_loc shr_m]. split; [lia|]. split; [lia|exact Hm2].
    - pose proof (shr_spec m2 loc_Exact e1 n2 Hm2pos ltac:(lia)) as H2.
      destruct (shr (shr_record_of_loc m2 loc_Exact) e1 n2) as [mrs3 e3].
      destruct H2 as (Hm3 & He3 & _).
      do 2 eexists. split; [reflexivity|].
      pose proof (pow2_pos n2 ltac:(lia)) as Pn2.
      assert (0 <= shr_m mrs3) by (rewrite Hm3; apply Z.div_pos; lia).
      split; [assumption|]. split; [unfold n2 in He3; lia|].
      apply Z.le_trans with (2 := Hm2). rewrite He3, Hm3.
      rewrite scaled_shift by lia. unfold scaled.
      pose proof (div_pow2_mul_le m2 n2 Hm2pos ltac:(lia)).
      pose proof (pow2_pos (e1 + 1074) ltac:(lia)). nia. }
  destruct H3 as (mrs3 & e3 & -> & Hm3 & He3 & Hs3).
  destruct (shr_m mrs3) as [|m3|m3] eqn:Em3; [left; reflexivity| |lia].
  right. exists m3, e3.
  replace (e3 <=? emax - prec) with true
    by (symmetry; apply Z.leb_le; change (emax - prec) with 971; lia).
  split; [reflexivity|]. split; [lia|exact Hs3].
Qed.

(** ** Valid binary64 numbers *)

Lemma bounded_facts m e :
  bounded prec emax m e = true ->
  -1074 <= e <= 971 /\ Zpos (digits2_pos m) <= 53
  /\ (-1074 < e -> Zpos (digits2_pos m) = 53).
Proof.
  unfold bounded, canonical_mantissa. intros H. apply andb_prop in H.
  destruct H as [Hc He]. apply Z.eqb_eq in Hc. apply Z.leb_le in He.
  rewrite fexp_eq in Hc. change (emax - prec) with 971 in He. lia.
Qed.

Lemma bounded_mantissa m e :
  bounded prec emax m e = true ->
  Zpos m < 2 ^ 53 /\ (-1074 < e -> 2 ^ 52 <= Zpos m).
Proof.
  intros H. destruct (bounded_facts m e H) as (He & Hd & Hn). split.
  - apply Z.lt_le_trans with (2 ^ Zpos (digits2_pos m)).
    + apply (Zdigits2_upper (Zpos m)). lia.
    + apply Z.pow_le_mono_r; lia.
  - intros Hlt. pose proof (Zdigits2_lower (Zpos m) ltac:(lia)) as Hl.
    cbn [Zdigits2] in Hl. rewrite (Hn Hlt) in Hl. exact Hl.
Qed.

Lemma scaled_pos m e : -1074 <= e -> 0 < scaled (Zpos m) e.
Proof. intros He. unfold scaled. pose proof (pow2_pos (e + 1074) ltac:(lia)). lia. Qed.

Lemma mag_nonneg x : valid_binary x = true -> 0 <= mag x.
Proof.
  destruct x as [s|s| |s m e]; cbn [mag valid_binary]; try lia. intros H.
  pose proof (scaled_pos m e (proj1 (proj1 (bounded_facts m e H)))). lia.
Qed.

(** ** [binary_round] and [binary_normalize] *)

Lemma binary_round_upper sx mx ex mc ec :
  -1074 <= ex ->
  Zpos (digits2_pos mc) <= 53 -> -1074 <= ec <= 971 ->
  scaled (Zpos mx) ex <= scaled (Zpos mc) ec ->
  let r := binary_round prec emax sx mx ex in
  finite_sf r /\ sign_sf r = sx /\ mag r <= scaled (Zpos mc) ec.
Proof.
  intros Hex Hdc Hec Hle. cbv zeta. unfold binary_round, shl_align.
  set (f := fexp prec emax (Zpos (digits2_pos mx) + ex)).
  assert (Hf : -1074 <= f) by (unfold f; rewrite fexp_eq; lia).
  assert (Haux : forall mz ez,
             -1074 <= ez -> scaled (Zpos mz) ez = scaled (Zpos mx) ex ->
             ez <= fexp prec emax (Zdigits2 (Zpos mz) + ez) ->
             let r := binary_round_aux prec emax sx (Zpos mz) ez loc_Exact in
             finite_sf r /\ sign_sf r = sx /\ mag r <= scaled (Zpos mc) ec).
  { intros mz ez Hez Hs Hfz. cbv zeta.
    destruct (binary_round_aux_upper sx (Zpos mz) ez loc_Exact mc ec)
      as [->|(m3 & e3 & -> & He3 & Hs3)]; try assumption; try lia.
    - congruence.
    - cbn [finite_sf sign_sf mag]. pose proof (scaled_pos mc ec ltac:(lia)).
      repeat split; lia.
    - cbn [finite_sf sign_sf mag]. repeat split. exact Hs3. }
  destruct (f - ex) as [|p|p] eqn:Ed.
  - apply Haux; [lia|reflexivity|]. cbn [Zdigits2]. fold f. lia.
  - apply Haux; [lia|reflexivity|]. cbn [Zdigits2]. fold f. lia.
  - apply Haux; [lia| |].
    + unfold scaled. rewrite iter_xO_value.
      replace (ex + 1074) with (Zpos p + (f + 1074)) by lia.
      rewrite (Z.pow_add_r 2 (Zpos p) (f + 1074)) by lia. ring.
    + cbn [Zdigits2]. rewrite digits2_pos_iter_xO.
      replace (Zpos (digits2_pos mx) + Zpos p + f) with (Zpos (digits2_pos mx) + ex) by lia.
      fold f. lia.
Qed.

Lemma binary_normalize_upper M e mc ec :
  -1074 <= e ->
  Zpos (digits2_pos mc) <= 53 -> -1074 <= ec <= 971 ->
  Z.abs M * 2 ^ (e + 1074) <= scaled (Zpos mc) ec ->
  let r := binary_normalize prec emax M e false in
  finite_sf r /\ mag r <= scaled (Zpos mc) ec
  /\ (sign_sf r = true -> M < 0) /\ (M < 0 -> sign_sf r = true).
Proof.
  intros He Hdc Hec Hle. cbv zeta. destruct M as [|p|p]; cbn [binary_normalize].
  - cbn [finite_sf sign_sf mag]. pose proof (scaled_pos mc ec ltac:(lia)).
    repeat split; try lia; try discriminate.
  - destruct (binary_round_upper false p e mc ec He Hdc Hec Hle) as (Hf & Hs & Hm).
    split; [exact Hf|]. split; [exact Hm|]. split; [congruence|lia].
  - destruct (binary_round_upper true p e mc ec He Hdc Hec Hle) as (Hf & Hs & Hm).
    split; [exact Hf|]. split; [exact Hm|]. split; [lia|intros _; exact Hs].
Qed.

Lemma shl_align_value mx ex ez :
  ez <= ex -> Zpos (fst (shl_align mx ex ez)) = Zpos mx * 2 ^ (ex - ez).
Proof.
  intros H. unfold shl_align. destruct (ez - ex) as [|p|p] eqn:E; try lia.
  - cbn [fst]. replace (ex - ez) with 0 by lia. lia.
  - cbn [fst]. rewrite iter_xO_value. f_equal. f_equal. lia.
Qed.

(** ** Subtraction of non-negative numbers *)

Lemma SFsub_upper x y mc ec :
  valid_binary x = true -> valid_binary y = true -> nonneg_sf x -> nonneg_sf y ->
  Zpos (digits2_pos mc) <= 53 -> -1074 <= ec <= 971 ->
  Z.abs (mag x - mag y) <= scaled (Zpos mc) ec ->
  let r := SFsub prec emax x y in
  finite_sf r /\ mag r <= scaled (Zpos mc) ec
  /\ (mag x < mag y -> sign_sf r = true) /\ (mag y < mag x -> sign_sf r = false)
  /\ (mag x = mag y -> r = S754_zero false \/ exists s, x = S754_zero s /\ r = x).
Proof.
  intros Vx Vy Nx Ny Hdc Hec Hle. cbv zeta.
  pose proof (scaled_pos mc ec ltac:(lia)) as Pc.
  destruct x as [sx|sx| |[] mx ex]; try contradiction;
    destruct y as [sy|sy| |[] my ey]; try contradiction.
  - (* zero - zero *)
    cbn [mag] in *. destruct sx, sy; cbn [SFsub finite_sf mag sign_sf];
      repeat split; try lia; intros _; eauto.
  - (* zero - finite *)
    cbn [SFsub negb finite_sf mag sign_sf] in *.
    pose proof (scaled_pos my ey (proj1 (proj1 (bounded_facts _ _ Vy)))).
    repeat split; try lia.
  - (* finite - zero *)
    cbn [SFsub finite_sf mag sign_sf] in *.
    pose proof (scaled_pos mx ex (proj1 (proj1 (bounded_facts _ _ Vx)))).
    repeat split; try lia.
  - (* finite - finite *)
    cbn [valid_binary] in Vx, Vy.
    destruct (bounded_facts _ _ Vx) as ((Hex & _) & _).
    destruct (bounded_facts _ _ Vy) as ((Hey & _) & _).
    cbn [SFsub cond_Zopp mag] in *.
    set (ez := Z.min ex ey) in *.
    rewrite !shl_align_value by (unfold ez; lia).
    set (M := Zpos mx * 2 ^ (ex - ez) - Zpos my * 2 ^ (ey - ez)).
    assert (HM : M * 2 ^ (ez + 1074) = scaled (Zpos mx) ex - scaled (Zpos my) ey).
    { unfold M, scaled.
      replace (ex + 1074) with ((ex - ez) + (ez + 1074)) by lia.
      replace (ey + 1074) with ((ey - ez) + (ez + 1074)) by lia.
      rewrite (Z.pow_add_r 2 (ex - ez)), (Z.pow_add_r 2 (ey - ez)) by (unfold ez; lia).
      ring. }
    pose proof (pow2_pos (ez + 1074) ltac:(unfold ez; lia)) as Pz.
    destruct (binary_normalize_upper M ez mc ec) as (Hf & Hm & Hs1 & Hs2);
      try assumption; try (unfold ez; lia).
    { rewrite <- (Z.abs_eq (2 ^ (ez + 1074))), <- Z.abs_mul, HM by lia. exact Hle. }
    split; [exact Hf|]. split; [exact Hm|]. split; [|split].
    + intros Hlt. apply Hs2. nia.
    + intros Hlt. destruct (sign_sf _) eqn:Es; [|reflexivity].
      specialize (Hs1 eq_refl). nia.
    + intros Heq. left. assert (M = 0) as -> by nia. reflexivity.
Qed.

(** ** Division by a number at least as large *)

Lemma fexp_mono x y : x <= y -> fexp prec emax x <= fexp prec emax y.
Proof. rewrite !fexp_eq. lia. Qed.

Lemma SFdiv_upper x sy my ey :
  valid_binary x = true -> bounded prec emax my ey = true -> finite_sf x ->
  ey <= 0 -> mag x <= scaled (Zpos my) ey ->
  let r := SFdiv prec emax x (S754_finite sy my ey) in
  finite_sf r /\ sign_sf r = xorb (sign_sf x) sy /\ mag r <= scaled (2 ^ 52) (-52).
Proof.
  intros Vx Vy Fx Hey Hle. cbv zeta.
  destruct x as [sx|sx| |sx mx ex]; try contradiction.
  - cbn [SFdiv finite_sf sign_sf mag]. repeat split.
    unfold scaled. pose proof (pow2_pos (-52 + 1074) ltac:(lia)).
    pose proof (pow2_pos 52 ltac:(lia)). nia.
  - cbn [valid_binary mag sign_sf] in *.
    destruct (bounded_facts _ _ Vx) as ((Hex & _) & _).
    destruct (bounded_facts _ _ Vy) as ((Hey' & _) & _).
    cbn [SFdiv]. unfold SFdiv_core_binary.
    set (d1 := Zdigits2 (Zpos mx)). set (d2 := Zdigits2 (Zpos my)).
    set (e' := Z.min (fexp prec emax (d1 + ex - (d2 + ey))) (ex - ey)).
    set (s := ex - ey - e').
    assert (Hs : 0 <= s) by (unfold s, e'; lia).
    assert (He' : -1074 <= e').
    { unfold e'. apply Z.min_glb; [rewrite fexp_eq|]; lia. }
    set (m' := match s with Z.pos _ => Z.shiftl (Zpos mx) s | 0 => Zpos mx | Z.neg _ => 0 end).
    assert (Hm' : m' = Zpos mx * 2 ^ s).
    { unfold m'. destruct s as [|p|p] eqn:Es; try lia.
      rewrite Z.shiftl_mul_pow2 by lia. reflexivity. }
    pose proof (Z_div_mod m' (Zpos my) ltac:(lia)) as Hdiv.
    destruct (Z.div_eucl m' (Zpos my)) as [q r]. destruct Hdiv as [Hq Hr].
    pose proof (pow2_pos s Hs) as Ps.
    assert (Hq0 : 0 <= q) by nia.
    (* the quotient has enough digits *)
    assert (Hdig : d1 + s - d2 <= Zdigits2 q).
    { pose proof (Zdigits2_lower (Zpos mx) ltac:(lia)) as L1. fold d1 in L1.
      pose proof (Zdigits2_upper (Zpos my) ltac:(lia)) as U2. fold d2 in U2.
      pose proof (Zdigits2_upper q Hq0) as Uq.
      pose proof (Zdigits2_nonneg q) as Nq.
      assert (1 <= d1) by (unfold d1; cbn; lia).
      assert (1 <= d2) by (unfold d2; cbn; lia).
      assert (2 ^ (d1 - 1) * 2 ^ s < 2 ^ Zdigits2 q * 2 ^ d2) as Hc.
      { pose proof (pow2_pos d2 ltac:(lia)). pose proof (pow2_pos (Zdigits2 q) Nq).
        apply Z.le_lt_trans with (Zpos mx * 2 ^ s); [nia|].
        apply Z.lt_le_trans with ((q + 1) * Zpos my); [nia|].
        apply Z.le_trans with (2 ^ Zdigits2 q * Zpos my); nia. }
      rewrite <- !Z.pow_add_r in Hc by lia.
      apply Z.pow_lt_mono_r_iff in Hc; lia. }
    assert (Hpre : e' <= fexp prec emax (Zdigits2 q + e')).
    { apply Z.le_trans with (fexp prec emax (d1 + ex - (d2 + ey))).
      - unfold e'. lia.
      - apply fexp_mono. unfold s in Hdig. lia. }
    (* the quotient does not pass 1 *)
    pose proof (pow2_pos (ey + 1074) ltac:(lia)) as Py.
    pose proof (pow2_pos (e' + 1074) ltac:(lia)) as Pe.
    assert (Hval : q * 2 ^ (e' + 1074) * (Zpos my * 2 ^ (ey + 1074))
                   + r * 2 ^ (e' + 1074) * 2 ^ (ey + 1074)
                   = Zpos mx * 2 ^ (ex + 1074) * 2 ^ 1074).
    {
      replace (ex + 1074) with (s + (e' + 1074) + ey) by (unfold s; lia).
      replace (q * 2 ^ (e' + 1074) * (Zpos my * 2 ^ (ey + 1074))
               + r * 2 ^ (e' + 1074) * 2 ^ (ey + 1074))
        with ((Zpos my * q + r) * 2 ^ (e' + 1074) * 2 ^ (ey + 1074)) by ring.
      rewrite <- Hq, Hm'.
      replace (Zpos mx * 2 ^ s * 2 ^ (e' + 1074) * 2 ^ (ey + 1074))
        with (Zpos mx * (2 ^ s * 2 ^ (e' + 1074) * 2 ^ (ey + 1074))) by ring.
      rewrite <- !Z.pow_add_r by lia.
      replace (Zpos mx * 2 ^ (s + (e' + 1074) + ey) * 2 ^ 1074)
        with (Zpos mx * (2 ^ (s + (e' + 1074) + ey) * 2 ^ 1074)) by ring.
      rewrite <- Z.pow_add_r by (unfold s; lia).
      f_equal. f_equal. lia. }
    assert (H1 : scaled (2 ^ 52) (-52) = 2 ^ 1074).
    { unfold scaled. rewrite <- Z.pow_add_r by lia. f_equal. }
    pose proof (pow2_pos 1074 ltac:(lia)) as PT.
    remember (2 ^ 1074) as T eqn:ET. clear ET.
    assert (PY : 0 < Zpos my * 2 ^ (ey + 1074)) by lia.
    unfold scaled in Hle.
    remember (Zpos my * 2 ^ (ey + 1074)) as Y eqn:EY. clear EY.
    remember (2 ^ (e' + 1074)) as E eqn:EE.
    remember (2 ^ (ey + 1074)) as F eqn:EF. clear EF.
    remember (Zpos mx * 2 ^ (ex + 1074)) as X eqn:EX. clear EX.
    assert (Hq1 : scaled q e' <= T).
    { unfold scaled. rewrite <- EE.
      apply (Z.mul_le_mono_pos_r _ _ Y PY).
      assert (0 <= r * E * F) by (apply Z.mul_nonneg_nonneg; [apply Z.mul_nonneg_nonneg|]; lia).
      apply Z.le_trans with (X * T); [lia|].
      rewrite (Z.mul_comm T Y). apply Z.mul_le_mono_nonneg_r; lia. }
    assert (Hq2 : new_location (Zpos my) r <> loc_Exact -> scaled q e' < T).
    { intros Hl. assert (r <> 0).
      { intros ->. apply Hl. unfold new_location, new_location_even, new_location_odd.
        destruct (Z.even (Zpos my)); reflexivity. }
      unfold scaled. rewrite <- EE.
      apply (Z.mul_lt_mono_pos_r Y); [exact PY|].
      assert (0 < r * E * F) by (apply Z.mul_pos_pos; [apply Z.mul_pos_pos|]; lia).
      apply Z.lt_le_trans with (X * T); [lia|].
      rewrite (Z.mul_comm T Y). apply Z.mul_le_mono_nonneg_r; lia. }
    rewrite H1.
    rewrite <- H1 in Hq1, Hq2.
    change (2 ^ 52) with (Zpos (2 ^ 52)%positive) in H1, Hq1, Hq2.
    destruct (binary_round_aux_upper (xorb sx sy) q e' (new_location (Zpos my) r)
                (2 ^ 52)%positive (-52) Hq0 He' Hpre)
      as [->|(m3 & e3 & -> & He3 & Hs3)]; try assumption; try lia.
    + vm_compute. discriminate.
    + cbn [finite_sf sign_sf mag]. repeat split. lia.
    + cbn [finite_sf sign_sf mag]. repeat split. rewrite <- H1. exact Hs3.
Qed.

(** ** Order and magnitude *)

Lemma SFcompare_mag x y :
  valid_binary x = true -> valid_binary y = true -> nonneg_sf x -> nonneg_sf y ->
  SFcompare x y = Some (mag x ?= mag y).
Proof.
  intros Vx Vy Nx Ny.
  destruct x as [sx|sx| |[] mx ex]; try contradiction;
    destruct y as [sy|sy| |[] my ey]; try contradiction;
    cbn [SFcompare mag valid_binary] in *.
  - reflexivity.
  - pose proof (scaled_pos my ey (proj1 (proj1 (bounded_facts _ _ Vy)))) as P.
    f_equal. symmetry. apply Z.compare_lt_iff. exact P.
  - pose proof (scaled_pos mx ex (proj1 (proj1 (bounded_facts _ _ Vx)))) as P.
    f_equal. symmetry. apply Z.compare_gt_iff. exact P.
  - destruct (bounded_facts _ _ Vx) as ((Hex & _) & _).
    destruct (bounded_facts _ _ Vy) as ((Hey & _) & _).
    destruct (bounded_mantissa _ _ Vx) as (Ux & Lx).
    destruct (bounded_mantissa _ _ Vy) as (Uy & Ly).
    assert (Hlt : forall m1 e1 m2 e2,
               -1074 <= e1 -> e1 < e2 -> Zpos m1 < 2 ^ 53 -> 2 ^ 52 <= Zpos m2 ->
               scaled (Zpos m1) e1 < scaled (Zpos m2) e2).
    { intros m1 e1 m2 e2 H1 H12 U L. unfold scaled.
      pose proof (pow2_pos (e1 + 1074) ltac:(lia)) as P1.
      replace (e2 + 1074) with ((e2 - e1 - 1) + (1 + (e1 + 1074))) by lia.
      rewrite (Z.pow_add_r 2 (e2 - e1 - 1)), (Z.pow_add_r 2 1) by lia.
      change (2 ^ 1) with 2.
      pose proof (pow2_pos (e2 - e1 - 1) ltac:(lia)) as P2.
      change (2 ^ 53) with (2 * 2 ^ 52) in U.
      remember (2 ^ 52) as A. remember (2 ^ (e1 + 1074)) as B.
      remember (2 ^ (e2 - e1 - 1)) as C.
      apply Z.lt_le_trans with (2 * A * B); [nia|].
      apply Z.le_trans with (Zpos m2 * (1 * (2 * B))); [nia|].
      apply Z.mul_le_mono_nonneg_l; [lia|]. apply Z.mul_le_mono_nonneg_r; lia. }
    f_equal. destruct (Z.compare_spec ex ey) as [E|E|E].
    + subst ey. unfold scaled.
      pose proof (pow2_pos (ex + 1074) ltac:(lia)) as P.
      rewrite Pos.compare_cont_spec. cbn [Pos.switch_Eq].
      change (mx ?= my)%positive with (Zpos mx ?= Zpos my). symmetry.
      destruct (Z.compare_spec (Zpos mx) (Zpos my)) as [E|E|E].
      * apply Z.compare_eq_iff. congruence.
      * apply Z.compare_lt_iff. apply Z.mul_lt_mono_pos_r; assumption.
      * apply Z.compare_gt_iff. apply Z.mul_lt_mono_pos_r; assumption.
    + symmetry. apply Z.compare_lt_iff. apply Hlt; try assumption. apply Ly; lia.
    + symmetry. apply Z.compare_gt_iff. apply Hlt; try assumption. apply Lx; lia.
Qed.

Lemma SFltb_mag x y :
  valid_binary x = true -> valid_binary y = true -> nonneg_sf x -> nonneg_sf y ->
  SFltb x y = (mag x <? mag y).
Proof.
  intros. unfold SFltb, Z.ltb. rewrite SFcompare_mag by assumption. reflexivity.
Qed.

Lemma SFleb_mag x y :
  valid_binary x = true -> valid_binary y = true -> nonneg_sf x -> nonneg_sf y ->
  SFleb x y = (mag x <=? mag y).
Proof.
  intros. unfold SFleb, Z.leb. rewrite SFcompare_mag by assumption.
  destruct (mag x ?= mag y); reflexivity.
Qed.

Lemma SFcompare_neg m1 e1 m2 e2 :
  SFcompare (S754_finite true m1 e1) (S754_finite true m2 e2)
  = SFcompare (S754_finite false m2 e2) (S754_finite false m1 e1).
Proof.
  cbn [SFcompare]. rewrite (Z.compare_antisym e1 e2).
  destruct (e1 ?= e2); cbn [CompOpp]; try reflexivity.
  rewrite Pos.compare_cont_antisym. reflexivity.
Qed.

(** A number whose magnitude does not exceed that of [b] lies between
    [-b] and [b]. *)
Lemma SFleb_symmetric_bound r mb eb :
  valid_binary r = true -> finite_sf r -> bounded prec emax mb eb = true ->
  mag r <= scaled (Zpos mb) eb ->
  SFleb (S754_finite true mb eb) r = true
  /\ SFleb r (S754_finite false mb eb) = true.
Proof.
  intros V F Vb H. destruct r as [s|s| |s m e]; try contradiction.
  - split; reflexivity.
  - assert (L : SFleb (S754_finite false m e) (S754_finite false mb eb) = true).
    { rewrite SFleb_mag; try assumption; try exact I. apply Z.leb_le. exact H. }
    destruct s.
    + split; [|reflexivity].
      unfold SFleb in *. rewrite SFcompare_neg. exact L.
    + split; [reflexivity|exact L].
Qed.

Lemma pos0_nn x : pos0 x -> nn x.
Proof.
  unfold pos0, nn. destruct (Prim2SF x) as [s|s| |s m e]; cbn; intros [H1 H2];
    try contradiction; subst; exact I.
Qed.

Lemma is_bound_nn b mb eb : is_bound b mb eb -> nn b.
Proof. intros [H _]. unfold nn. rewrite H. exact I. Qed.

Lemma is_bound_fmag b mb eb : is_bound b mb eb -> fmag b = scaled (Zpos mb) eb.
Proof. intros [H _]. unfold fmag. rewrite H. reflexivity. Qed.

Lemma fmag_nonneg x : 0 <= fmag x.
Proof. apply mag_nonneg, Prim2SF_valid. Qed.

Lemma ltb_fmag x y : nn x -> nn y -> (x <? y)%float = (fmag x <? fmag y).
Proof.
  intros Hx Hy. rewrite ltb_spec. apply SFltb_mag; try assumption; apply Prim2SF_valid.
Qed.

Lemma leb_fmag x y : nn x -> nn y -> (x <=? y)%float = (fmag x <=? fmag y).
Proof.
  intros Hx Hy. rewrite leb_spec. apply SFleb_mag; try assumption; apply Prim2SF_valid.
Qed.

Lemma Prim2SF_zero : Prim2SF zero = S754_zero false.
Proof. reflexivity. Qed.

Lemma Prim2SF_infinity : Prim2SF infinity = S754_infinity false.
Proof. reflexivity. Qed.

(** A Number between 0 and a finite Number is non-negative and finite. *)
Lemma nn_between x b :
  nn b -> (0 <=? x)%float = true ->
  ((x <? b)%float = true \/ (x <=? b)%float = true) -> nn x.
Proof.
  unfold nn. rewrite leb_spec, ltb_spec, leb_spec.
  change (Prim2SF 0) with (S754_zero false).
  destruct (Prim2SF x) as [s|s| |s m e]; try (intros; exact I).
  - destruct (Prim2SF b) as [sb|sb| |[] mb eb]; try contradiction;
      intros _; destruct s; cbn; intros H1 [H2|H2]; discriminate.
  - intros _ H. discriminate.
  - intros _ H _. destruct s; [discriminate|exact I].
Qed.

Lemma leb_zero_pos0 x : pos0 x -> (0 <=? x)%float = true.
Proof.
  intros [F S]. rewrite leb_spec. change (Prim2SF 0) with (S754_zero false).
  destruct (Prim2SF x) as [s|s| |s m e]; try contradiction; cbn in S; subst; reflexivity.
Qed.

Lemma fsub_upper x y b mb eb :
  nn x -> nn y -> is_bound b mb eb ->
  Z.abs (fmag x - fmag y) <= fmag b ->
  let r := Prim2SF (x - y) in
  finite_sf r /\ mag r <= fmag b
  /\ (fmag x < fmag y -> sign_sf r = true) /\ (fmag y < fmag x -> sign_sf r = false)
  /\ (fmag x = fmag y -> r = S754_zero false \/ exists s, Prim2SF x = S754_zero s /\ r = Prim2SF x).
Proof.
  intros Hx Hy Hb Hle. cbv zeta. rewrite sub_spec.
  rewrite (is_bound_fmag b mb eb Hb) in *.
  destruct Hb as [_ Vb]. destruct (bounded_facts _ _ Vb) as (Heb & Hdb & _).
  apply SFsub_upper; try assumption; apply Prim2SF_valid.
Qed.

Lemma abs_pos0 x :
  finite_sf (Prim2SF x) -> pos0 (abs x) /\ fmag (abs x) = fmag x.
Proof.
  unfold pos0, fmag. rewrite abs_spec.
  destruct (Prim2SF x) as [s|s| |s m e]; try contradiction; intros _; repeat split.
Qed.

Lemma fdiv_upper x b mb eb :
  finite_sf (Prim2SF x) -> is_bound b mb eb -> eb <= 0 -> fmag x <= fmag b ->
  let r := Prim2SF (x / b) in
  finite_sf r /\ sign_sf r = sign_sf (Prim2SF x) /\ mag r <= scaled (2 ^ 52) (-52).
Proof.
  intros Fx Hb He Hle. cbv zeta. rewrite div_spec. unfold SF64div.
  rewrite (is_bound_fmag b mb eb Hb) in Hle. destruct Hb as [Eb Vb]. rewrite Eb.
  destruct (SFdiv_upper (Prim2SF x) false mb eb) as (H1 & H2 & H3); try assumption.
  - apply Prim2SF_valid.
  - split; [exact H1|]. split; [|exact H3]. rewrite H2. apply xorb_false_r.
Qed.

(** ** [Math.min] of two non-negative Numbers *)

Lemma is_nan_finite x : finite_sf (Prim2SF x) -> is_nan x = false.
Proof.
  intros F. unfold is_nan. rewrite eqb_spec. unfold SFeqb.
  destruct (Prim2SF x) as [s|s| |s m e]; try contradiction.
  - reflexivity.
  - cbn [SFcompare]. rewrite Z.compare_refl, Pos.compare_cont_refl.
    destruct s; reflexivity.
Qed.

Lemma is_neg_zero_pos0 x : pos0 x -> is_neg_zero x = false.
Proof.
  intros [F S]. unfold is_neg_zero, is_zero, get_sign, is_zero.
  rewrite eqb_spec, Prim2SF_zero.
  destruct (Prim2SF x) as [s|s| |s m e] eqn:E; try contradiction; cbn in S; subst s.
  - cbn [SFeqb SFcompare andb]. rewrite ltb_spec, div_spec, E, Prim2SF_zero. reflexivity.
  - reflexivity.
Qed.

Lemma ltb_infinity_finite x : finite_sf (Prim2SF x) -> (x <? infinity)%float = true.
Proof.
  intros F. rewrite ltb_spec, Prim2SF_infinity.
  destruct (Prim2SF x) as [s|s| |s m e]; try contradiction; reflexivity.
Qed.

Lemma Math_min_pair d e :
  pos0 d -> pos0 e -> Math_min [d; e] = if (e <? d)%float then e else d.
Proof.
  intros Hd He. unfold Math_min. cbn [Math_min_from].
  rewrite (is_nan_finite d (proj1 Hd)), (is_neg_zero_pos0 d Hd).
  cbn [andb]. rewrite (ltb_infinity_finite d (proj1 Hd)).
  rewrite (is_nan_finite e (proj1 He)), (is_neg_zero_pos0 e He). reflexivity.
Qed.

Lemma bound_360 : is_bound 360%float 6333186975989760 (-44).
Proof. split; reflexivity. Qed.

Lemma bound_180 : is_bound 180%float 6333186975989760 (-45).
Proof. split; reflexivity. Qed.

Lemma bound_100 : is_bound 100%float 7036874417766400 (-46).
Proof. split; reflexivity. Qed.

Lemma bound_1 : is_bound 1%float (2 ^ 52) (-52).
Proof. split; reflexivity. Qed.

Lemma fmag_360_180 : fmag 360%float = 2 * fmag 180%float.
Proof.
  rewrite (is_bound_fmag _ _ _ bound_360), (is_bound_fmag _ _ _ bound_180).
  unfold scaled. change (-44 + 1074) with (Z.succ (-45 + 1074)).
  rewrite Z.pow_succ_r by lia. ring.
Qed.

Section Ranges.

Local Open Scope float_scope.

(** The hue error lies in [0, 1]. *)
Lemma hue_error_range u c :
  (0 <=? u) = true -> (u <? 360) = true -> (0 <=? c) = true -> (c <? 360) = true ->
  let diff := Math_abs (u - c) in
  let err := Math_min [diff; 360 - diff] / 180 in
  (0 <=? err) = true /\ (err <=? 1) = true.
Proof.
  intros U0 U1 C0 C1. cbv zeta. unfold Math_abs.
  pose proof (is_bound_nn _ _ _ bound_360) as N360.
  pose proof (is_bound_nn _ _ _ bound_180) as N180.
  pose proof (is_bound_nn _ _ _ bound_1) as N1.
  assert (Nu : nn u) by (apply (nn_between u 360); auto).
  assert (Nc : nn c) by (apply (nn_between c 360); auto).
  rewrite (ltb_fmag u 360 Nu N360) in U1. rewrite (ltb_fmag c 360 Nc N360) in C1.
  apply Z.ltb_lt in U1, C1.
  pose proof (fmag_nonneg u) as Pu. pose proof (fmag_nonneg c) as Pc.
  pose proof fmag_360_180 as E360. pose proof (fmag_nonneg 180) as P180.
  (* the difference *)
  destruct (fsub_upper u c 360 _ _ Nu Nc bound_360 ltac:(lia)) as (Fd & Md & _).
  destruct (abs_pos0 (u - c) Fd) as (Pd & Ed).
  set (d := abs (u - c)) in *.
  assert (Hd : (fmag d <= fmag 360%float)%Z) by (rewrite Ed; exact Md).
  pose proof (fmag_nonneg d) as Pd0.
  pose proof (pos0_nn d Pd) as Nd.
  (* its complement *)
  destruct (fsub_upper 360 d 360 _ _ N360 Nd bound_360 ltac:(lia)) as (Fe & Me & _ & Se & Ze).
  assert (Pe : pos0 (360 - d)).
  { split; [exact Fe|].
    destruct (Z.eq_dec (fmag d) (fmag 360%float)) as [E|E].
    - destruct (Ze (eq_sym E)) as [->|(s & Hs & _)]; [reflexivity|].
      rewrite (proj1 bound_360) in Hs. discriminate.
    - apply Se. lia. }
  set (e := 360 - d) in *.
  pose proof (pos0_nn e Pe) as Ne.
  assert (He : (fmag 180%float < fmag d -> fmag e <= fmag 180%float)%Z).
  { intros Hlt.
    destruct (fsub_upper 360 d 180 _ _ N360 Nd bound_180 ltac:(lia)) as (_ & M & _).
    exact M. }
  (* the smaller of the two *)
  pose proof (Math_min_pair d e Pd Pe) as HM. unfold Number in *.
  rewrite HM, (ltb_fmag e d Ne Nd). clear HM.
  assert (Hm : exists m, (if (fmag e <? fmag d)%Z then e else d) = m
                         /\ pos0 m /\ (fmag m <= fmag 180%float)%Z).
  { destruct (Z.ltb_spec (fmag e) (fmag d)) as [L|L].
    - exists e. split; [reflexivity|]. split; [exact Pe|].
      destruct (Z_le_gt_dec (fmag d) (fmag 180%float)); [lia|apply He; lia].
    - exists d. split; [reflexivity|]. split; [exact Pd|].
      destruct (Z_le_gt_dec (fmag d) (fmag 180%float)) as [|G]; [assumption|].
      specialize (He ltac:(lia)). lia. }
  destruct Hm as (m & -> & Pm & Hm).
  (* the quotient *)
  destruct (fdiv_upper m 180 _ _ (proj1 Pm) bound_180 ltac:(lia) Hm) as (Fq & Sq & Mq).
  assert (Pq : pos0 (m / 180)) by (split; [exact Fq|rewrite Sq; exact (proj2 Pm)]).
  split; [apply leb_zero_pos0; exact Pq|].
  rewrite (leb_fmag _ 1 (pos0_nn _ Pq) N1). apply Z.leb_le.
  rewrite (is_bound_fmag _ _ _ bound_1). exact Mq.
Qed.

(** A saturation or lightness error lies in [-1, 1] and keeps the sign
    of the difference. *)
Lemma linear_error_range x y :
  (0 <=? x) = true -> (x <=? 100) = true -> (0 <=? y) = true -> (y <=? 100) = true ->
  let err := (x - y) / 100 in
  ((-1 <=? err) = true /\ (err <=? 1) = true)
  /\ ((x <? y) = true -> (err <=? 0) = true)
  /\ ((y <? x) = true -> (0 <=? err) = true).
Proof.
  intros X0 X1 Y0 Y1. cbv zeta.
  pose proof (is_bound_nn _ _ _ bound_100) as N100.
  assert (Nx : nn x) by (apply (nn_between x 100); auto).
  assert (Ny : nn y) by (apply (nn_between y 100); auto).
  rewrite (leb_fmag x 100 Nx N100) in X1. rewrite (leb_fmag y 100 Ny N100) in Y1.
  apply Z.leb_le in X1, Y1.
  pose proof (fmag_nonneg x) as Px. pose proof (fmag_nonneg y) as Py.
  destruct (fsub_upper x y 100 _ _ Nx Ny bound_100 ltac:(lia)) as (Fd & Md & Sn & Sp & _).
  destruct (fdiv_upper (x - y) 100 _ _ Fd bound_100 ltac:(lia) Md) as (Fq & Sq & Mq).
  set (err := (x - y) / 100) in *.
  split; [|split].
  - rewrite !leb_spec.
    change (Prim2SF (-1)) with (S754_finite true (2 ^ 52) (-52)).
    change (Prim2SF 1) with (S754_finite false (2 ^ 52) (-52)).
    apply SFleb_symmetric_bound; try assumption; [apply Prim2SF_valid|reflexivity].
  - intros L. rewrite (ltb_fmag x y Nx Ny) in L. apply Z.ltb_lt in L.
    specialize (Sn L). rewrite <- Sq in Sn.
    rewrite leb_spec. change (Prim2SF 0) with (S754_zero false).
    destruct (Prim2SF err) as [s|s| |s m e]; try contradiction; cbn in Sn; subst s;
      reflexivity.
  - intros L. rewrite (ltb_fmag y x Ny Nx) in L. apply Z.ltb_lt in L.
    specialize (Sp L). rewrite <- Sq in Sp.
    apply leb_zero_pos0. split; assumption.
Qed.

End Ranges.

(* ================================================================= *)
(** ** The claims of the specification *)

(** C1.  Round trip: for every r, g, b in [0, 255], [hexToRgb] applied to
    the upper-case, zero-padded "#RRGGBB" string that the formatting
    half of [generateRandomColor] builds returns exactly [r; g; b]. *)
Theorem C1_hexToRgb_inverts_hexOf r g b :
  0 <= r <= 255 -> 0 <= g <= 255 -> 0 <= b <= 255 ->
  hexToRgb (hexOf r g b) = [r; g; b].
Proof. intros Hr Hg Hb. apply hexToRgb_hexOf; assumption. Qed.

Lemma C1_witness :
  (0 <= 18 <= 255 /\ 0 <= 171 <= 255 /\ 0 <= 255 <= 255)
  /\ hexToRgb (hexOf 18 171 255) = [18; 171; 255].
Proof.
  split; [lia|]. apply (C1_hexToRgb_inverts_hexOf 18 171 255); lia.
Defined.

(** C2.  The RMSE is the square root of the mean of all 3 x N squared
    normalised RGB errors, pooled in one list, times 100: a session
    with at least [n] questions and inputs is scored without error, and
    its RMSE is that figure.  For the session that the page scores,
    [numQuestions] questions with the colour #FF0000, each answered
    "00FF00", the average RGB error is [-100; 100; 0] and the RMSE is
    sqrt(2/3) * 100, which the page shows as 81.6497; the same loop run
    over a single such question gives the same figures. *)
Theorem C2_rmse_pools_squared_errors :
  (forall n questions inputs,
      (n <= List.length questions)%nat -> (n <= List.length inputs)%nat ->
      exists rep,
        calculateScore n questions inputs = Return rep
        /\ rmse rep = root_mean_percent (pooled_squared_errors n questions inputs)
        /\ List.length (pooled_squared_errors n questions inputs) = (3 * n)%nat)
  /\ (exists rep,
        calculateScore numQuestions (repeat red_question numQuestions)
                       (repeat "00FF00" numQuestions) = Return rep
        /\ avgRgbError rep = [(-100)%float; 100%float; 0%float]
        /\ pooled_squared_errors numQuestions (repeat red_question numQuestions)
                                 (repeat "00FF00" numQuestions)
           = List.concat (repeat [1%float; 1%float; 0%float] numQuestions)
        /\ rmse rep = (sqrt (2 / 3) * 100)%float
        /\ display rep
           = {| rgbErrorText := Some "R: -100.00%, G: 100.00%, B: 0.00%";
                hslErrorText := Some "H: 66.67%, S: 0.00%, L: 0.00%";
                rmseScoreText := Some "81.6497" |})
  /\ (exists rep,
        calculateScore 1 [red_question] ["00FF00"] = Return rep
        /\ avgRgbError rep = [(-100)%float; 100%float; 0%float]
        /\ pooled_squared_errors 1 [red_question] ["00FF00"]
           = [1%float; 1%float; 0%float]
        /\ rmse rep = (sqrt (2 / 3) * 100)%float
        /\ display rep
           = {| rgbErrorText := Some "R: -100.00%, G: 100.00%, B: 0.00%";
                hslErrorText := Some "H: 66.67%, S: 0.00%, L: 0.00%";
                rmseScoreText := Some "81.6497" |}).
Proof.
  split; [|split].
  - intros n questions inputs Hq Hi.
    destruct (calculateScore_rmse n questions inputs Hq Hi) as (rep & Hrun & Hrmse).
    exists rep. repeat split; try assumption.
    apply (pooled_length questions inputs n 0); assumption.
  - eexists. split; [vm_compute; reflexivity|].
    repeat split; vm_compute; reflexivity.
  - eexists. split; [vm_compute; reflexivity|].
    repeat split; vm_compute; reflexivity.
Qed.

Lemma C2_witness :
  exists rep,
    calculateScore numQuestions (repeat red_question numQuestions)
                   (repeat "00FF00" numQuestions) = Return rep
    /\ rmse rep
       = root_mean_percent
           (pooled_squared_errors numQuestions (repeat red_question numQuestions)
                                  (repeat "00FF00" numQuestions))
    /\ List.length
         (pooled_squared_errors numQuestions (repeat red_question numQuestions)
                                (repeat "00FF00" numQuestions))
       = (3 * numQuestions)%nat.
Proof.
  apply (proj1 C2_rmse_pools_squared_errors numQuestions
               (repeat red_question numQuestions) (repeat "00FF00" numQuestions));
    rewrite repeat_length; apply Nat.le_refl.
Defined.

(** C3.  The hue error of a user hue against a correct hue is the
    circular distance min(|userH - correctH|, 360 - |userH - correctH|)
    divided by 180; for hues in [0, 360) it is a value in [0, 1], and
    for the hues 10 and 350 it is 20/180, not 340/180.  The saturation
    and lightness errors are the signed difference divided by 100; for
    values in [0, 100] they lie in [-1, 1] and keep the sign of the
    difference.  The HSL values that [calculateScore] compares are in
    these ranges. *)
Theorem C3_hsl_errors :
  (forall uh us ul ch cs cl : Number,
      hslError 0 [uh; us; ul] [ch; cs; cl]
      = (Math_min [Math_abs (uh - ch); 360 - Math_abs (uh - ch)] / 180)%float
      /\ hslError 1 [uh; us; ul] [ch; cs; cl] = ((us - cs) / 100)%float
      /\ hslError 2 [uh; us; ul] [ch; cs; cl] = ((ul - cl) / 100)%float)
  /\ (forall uh us ul ch cs cl : Number,
        in_degrees uh = true -> in_degrees ch = true ->
        let err := hslError 0 [uh; us; ul] [ch; cs; cl] in
        (0 <=? err)%float = true /\ (err <=? 1)%float = true)
  /\ (forall us ul cs cl : Number,
        hslError 0 [10%float; us; ul] [350%float; cs; cl] = (20 / 180)%float
        /\ (hslError 0 [10%float; us; ul] [350%float; cs; cl] =? 340 / 180)%float = false)
  /\ (forall (j : nat) (user correct : list Number),
        j = 1%nat \/ j = 2%nat ->
        in_percent (get user j) = true -> in_percent (get correct j) = true ->
        let err := hslError j user correct in
        ((-1 <=? err)%float = true /\ (err <=? 1)%float = true)
        /\ ((get user j <? get correct j)%float = true -> (err <=? 0)%float = true)
        /\ ((get correct j <? get user j)%float = true -> (0 <=? err)%float = true))
  /\ hslError 1 [0%float; 30%float; 0%float] [0%float; 80%float; 0%float] = (-0.5)%float
  /\ hslError 1 [0%float; 80%float; 0%float] [0%float; 30%float; 0%float] = 0.5%float
  /\ (forall r g b r' g' b',
        0 <= r <= 255 -> 0 <= g <= 255 -> 0 <= b <= 255 ->
        0 <= r' <= 255 -> 0 <= g' <= 255 -> 0 <= b' <= 255 ->
        let user := rgbToHsl (Number_of_Z r) (Number_of_Z g) (Number_of_Z b) in
        let correct := rgbToHsl (Number_of_Z r') (Number_of_Z g') (Number_of_Z b') in
        ((0 <=? hslError 0 user correct)%float = true
         /\ (hslError 0 user correct <=? 1)%float = true)
        /\ ((-1 <=? hslError 1 user correct)%float = true
            /\ (hslError 1 user correct <=? 1)%float = true)
        /\ ((-1 <=? hslError 2 user correct)%float = true
            /\ (hslError 2 user correct <=? 1)%float = true)).
Proof.
  assert (Hhue : forall uh us ul ch cs cl : Number,
             in_degrees uh = true -> in_degrees ch = true ->
             let err := hslError 0 [uh; us; ul] [ch; cs; cl] in
             (0 <=? err)%float = true /\ (err <=? 1)%float = true).
  { intros uh us ul ch cs cl Du Dc. unfold in_degrees in Du, Dc.
    apply andb_prop in Du, Dc. destruct Du as [U0 U1], Dc as [C0 C1].
    apply (hue_error_range uh ch U0 U1 C0 C1). }
  assert (Hlin : forall (j : nat) (user correct : list Number),
             j = 1%nat \/ j = 2%nat ->
             in_percent (get user j) = true -> in_percent (get correct j) = true ->
             let err := hslError j user correct in
             ((-1 <=? err)%float = true /\ (err <=? 1)%float = true)
             /\ ((get user j <? get correct j)%float = true -> (err <=? 0)%float = true)
             /\ ((get correct j <? get user j)%float = true -> (0 <=? err)%float = true)).
  { intros j user correct Hj Pu Pc. unfold in_percent in Pu, Pc.
    apply andb_prop in Pu, Pc. destruct Pu as [U0 U1], Pc as [C0 C1].
    assert (E : hslError j user correct = ((get user j - get correct j) / 100)%float)
      by (destruct Hj; subst j; reflexivity).
    cbv zeta. rewrite E. apply (linear_error_range _ _ U0 U1 C0 C1). }
  split; [intros; repeat split|]. split; [exact Hhue|].
  split; [intros; split; vm_compute; reflexivity|]. split; [exact Hlin|].
  split; [vm_compute; reflexivity|]. split; [vm_compute; reflexivity|].
  intros r g b r' g' b' Hr Hg Hb Hr' Hg' Hb'.
  rewrite !rgbToHsl_hsl_spec by assumption.
  destruct (hsl_spec_range r g b Hr Hg Hb) as (h & s & l & -> & Dh & Ps & Pl).
  destruct (hsl_spec_range r' g' b' Hr' Hg' Hb') as (h' & s' & l' & -> & Dh' & Ps' & Pl').
  cbv zeta. split; [apply Hhue; assumption|]. split.
  - apply (Hlin 1%nat [h; s; l] [h'; s'; l']); [left; reflexivity|assumption|assumption].
  - apply (Hlin 2%nat [h; s; l] [h'; s'; l']); [right; reflexivity|assumption|assumption].
Qed.

Lemma C3_witness :
  (0 <=? hslError 0 [350%float; 0%float; 0%float] [10%float; 0%float; 0%float])%float
  = true
  /\ (hslError 0 [350%float; 0%float; 0%float] [10%float; 0%float; 0%float] <=? 1)%float
     = true.
Proof.
  apply (proj1 (proj2 C3_hsl_errors) 350%float 0%float 0%float 10%float 0%float 0%float);
    vm_compute; reflexivity.
Defined.

(** C4.  For every non-achromatic colour with channels in [0, 255],
    [rgbToHsl] normalises the channels into [0, 1], takes
    lightness = (max + min) / 2, saturation = d / (2 - max - min) when
    lightness > 0.5 and d / (max + min) otherwise, and the hue of the
    six-segment formula in degrees, the channel that equals the maximum
    being looked for in the order red, green, blue. *)
Theorem C4_rgbToHsl_chromatic r g b :
  0 <= r <= 255 -> 0 <= g <= 255 -> 0 <= b <= 255 -> ~ (r = g /\ g = b) ->
  let R := (Number_of_Z r / 255)%float in
  let G := (Number_of_Z g / 255)%float in
  let B := (Number_of_Z b / 255)%float in
  let zmax := Z.max (Z.max r g) b in
  let zmin := Z.min (Z.min r g) b in
  let max := (Number_of_Z zmax / 255)%float in
  let min := (Number_of_Z zmin / 255)%float in
  let l := ((max + min) / 2)%float in
  let d := (max - min)%float in
  let s := (if 0.5 <? l then d / (2 - max - min) else d / (max + min))%float in
  let h :=
    ((if (r =? zmax)%Z then (G - B) / d + (if (g <? b)%Z then 6 else 0)
      else if (g =? zmax)%Z then (B - R) / d + 2
      else (R - G) / d + 4) / 6)%float in
  rgbToHsl (Number_of_Z r) (Number_of_Z g) (Number_of_Z b)
    = [(h * 360)%float; (s * 100)%float; (l * 100)%float]
  /\ Math_max [R; G; B] = max /\ Math_min [R; G; B] = min
  /\ (0 <=? R)%float = true /\ (R <=? 1)%float = true
  /\ (0 <=? G)%float = true /\ (G <=? 1)%float = true
  /\ (0 <=? B)%float = true /\ (B <=? 1)%float = true.
Proof.
  intros Hr Hg Hb Hne. cbv zeta.
  destruct (norm_facts r Hr) as (_ & _ & _ & _ & R0 & R1).
  destruct (norm_facts g Hg) as (_ & _ & _ & _ & G0 & G1).
  destruct (norm_facts b Hb) as (_ & _ & _ & _ & B0 & B1).
  split; [|split; [apply Math_max_norm; assumption|split;
                   [apply Math_min_norm; assumption|tauto]]].
  rewrite rgbToHsl_hsl_spec by assumption. unfold hsl_spec.
  destruct (Z.eqb_spec (Z.max (Z.max r g) b) (Z.min (Z.min r g) b)) as [E|E]; [lia|].
  reflexivity.
Qed.

Lemma C4_witness :
  rgbToHsl (Number_of_Z 200) (Number_of_Z 200) (Number_of_Z 10)
  = [60%float; (190 / 255 / (210 / 255) * 100)%float; ((200 / 255 + 10 / 255) / 2 * 100)%float].
Proof.
  refine (eq_trans
    (proj1 (C4_rgbToHsl_chromatic 200 200 10 _ _ _ _)) _); try lia.
  vm_compute. reflexivity.
Defined.

(** C5 (as the code has it).  Malformed hex input raises no error and
    is not validated, and it does not produce NaN either: [parseInt]
    reads the longest leading run of hex digits, the bitwise operators
    turn its NaN into 0, so [hexToRgb] returns three integers in
    [0, 255] for every string, all 0 when [parseInt] gives NaN, and
    [rgbToHsl] of them is an ordinary colour. *)
Theorem C5_hexToRgb_total_without_NaN hex :
  exists r g b,
    hexToRgb hex = [r; g; b]
    /\ 0 <= r <= 255 /\ 0 <= g <= 255 /\ 0 <= b <= 255
    /\ (is_nan (parseInt (slice hex 1) 16) = true -> r = 0 /\ g = 0 /\ b = 0)
    /\ exists h s l,
         rgbToHsl (Number_of_Z r) (Number_of_Z g) (Number_of_Z b) = [h; s; l]
         /\ in_degrees h = true /\ in_percent s = true /\ in_percent l = true.
Proof.
  destruct (hexToRgb_bytes hex) as (r & g & b & H & Hr & Hg & Hb).
  exists r, g, b.
  split; [exact H|]. split; [exact Hr|]. split; [exact Hg|]. split; [exact Hb|].
  split.
  - intros Hn. rewrite (hexToRgb_nan hex Hn) in H.
    injection H as <- <- <-. repeat split.
  - rewrite rgbToHsl_hsl_spec by assumption. apply hsl_spec_range; assumption.
Qed.

(** C5, the claim as stated fails: the malformed answer "GGGGGG" gives
    the colour [0; 0; 0] and, against black questions ([numQuestions] of
    them as on the page, or one), a score without any NaN. *)
Lemma C5_malformed_hex_gives_no_NaN :
  is_nan (parseInt "GGGGGG" 16) = true
  /\ hexToRgb "#GGGGGG" = [0; 0; 0]
  /\ hexToRgb "#12G456" = [0; 0; 18]
  /\ calculateScore numQuestions (repeat black_question numQuestions)
                    (repeat "GGGGGG" numQuestions) = Return zero_report
  /\ calculateScore 1 [black_question] ["GGGGGG"] = Return zero_report
  /\ existsb is_nan
       (avgRgbError zero_report ++ avgHslError zero_report ++ [rmse zero_report])
     = false.
Proof. repeat split; vm_compute; reflexivity. Qed.

(** C6.  An empty answer is scored as "000000", pure black, not skipped:
    the user's colour is [hexToRgb ("#" ++ (value || "000000"))], so a
    session scores the same when its empty inputs are replaced by
    "000000".  In the session that the page scores, [numQuestions] red
    questions: one empty answer among right ones costs a tenth of a full
    red channel, and empty answers throughout cost the full red channel.
    When every colour is (0, 0, 0), whatever the hex strings, and every
    answer is empty, every error and the RMSE are 0.  The same loop run
    over a single question gives the full red channel and the zero
    report as well. *)
Theorem C6_empty_answer_is_black :
  (forall value, userRgb value = hexToRgb ("#" ++ or_else value "000000"))
  /\ or_else "" "000000" = "000000"
  /\ userRgb "" = [0; 0; 0]
  /\ (forall n questions inputs,
        calculateScore n questions (map (fun value => or_else value "000000") inputs)
        = calculateScore n questions inputs)
  /\ (exists rep,
        calculateScore numQuestions (repeat red_question numQuestions)
                       ("" :: repeat "FF0000" (numQuestions - 1)) = Return rep
        /\ avgRgbError rep = [(-10)%float; 0%float; 0%float])
  /\ (exists rep,
        calculateScore numQuestions (repeat red_question numQuestions)
                       (repeat "" numQuestions) = Return rep
        /\ avgRgbError rep = [(-100)%float; 0%float; 0%float])
  /\ (forall hexes,
        List.length hexes = numQuestions ->
        calculateScore numQuestions
          (map (fun hex => {| Question.hex := hex; Question.r := 0;
                              Question.g := 0; Question.b := 0 |}) hexes)
          (repeat "" numQuestions)
        = Return zero_report)
  /\ (exists rep,
        calculateScore 1 [red_question] [""] = Return rep
        /\ avgRgbError rep = [(-100)%float; 0%float; 0%float])
  /\ (forall hex,
        calculateScore 1 [{| Question.hex := hex; Question.r := 0;
                             Question.g := 0; Question.b := 0 |}] [""]
        = Return zero_report).
Proof.
  split; [reflexivity|]. split; [reflexivity|].
  split; [vm_compute; reflexivity|].
  split; [intros; apply calculateScore_map_inputs, userRgb_or_else|].
  split; [eexists; split; vm_compute; reflexivity|].
  split; [eexists; split; vm_compute; reflexivity|].
  split.
  - intros hexes H. unfold numQuestions in H.
    do 10 (destruct hexes as [|? hexes]; [discriminate H|]).
    destruct hexes; [|discriminate H]. vm_compute. reflexivity.
  - split; [eexists; split; vm_compute; reflexivity|].
    intros hex. vm_compute. reflexivity.
Qed.

Lemma C6_witness :
  calculateScore numQuestions
    (map (fun hex => {| Question.hex := hex; Question.r := 0;
                        Question.g := 0; Question.b := 0 |})
         (repeat "#000000" numQuestions))
    (repeat "" numQuestions)
  = Return zero_report.
Proof.
  apply (proj1 (proj2 (proj2 (proj2 (proj2 (proj2 (proj2
           C6_empty_answer_is_black))))))).
  reflexivity.
Defined.

(** C7.  Range of [rgbToHsl]: for every r, g, b in [0, 255] the result
    is [h; s; l] with h in [0, 360), s in [0, 100] and l in [0, 100]. *)
Theorem C7_rgbToHsl_range r g b :
  0 <= r <= 255 -> 0 <= g <= 255 -> 0 <= b <= 255 ->
  exists h s l,
    rgbToHsl (Number_of_Z r) (Number_of_Z g) (Number_of_Z b) = [h; s; l]
    /\ ((0 <=? h)%float = true /\ (h <? 360)%float = true)
    /\ ((0 <=? s)%float = true /\ (s <=? 100)%float = true)
    /\ ((0 <=? l)%float = true /\ (l <=? 100)%float = true).
Proof.
  intros Hr Hg Hb. rewrite rgbToHsl_hsl_spec by assumption.
  destruct (hsl_spec_range r g b Hr Hg Hb) as (h & s & l & E & Dh & Ps & Pl).
  exists h, s, l. unfold in_degrees, in_percent in *.
  apply andb_prop in Dh, Ps, Pl. tauto.
Qed.

Lemma C7_witness :
  exists h s l,
    rgbToHsl (Number_of_Z 255) (Number_of_Z 0) (Number_of_Z 1) = [h; s; l]
    /\ ((0 <=? h)%float = true /\ (h <? 360)%float = true)
    /\ ((0 <=? s)%float = true /\ (s <=? 100)%float = true)
    /\ ((0 <=? l)%float = true /\ (l <=? 100)%float = true).
Proof. apply (C7_rgbToHsl_range 255 0 1); lia. Defined.

(** C8.  Achromatic colours: for every grey input r = g = b in [0, 255]
    (exactly the inputs whose normalised maximum equals the minimum)
    the hue and the saturation are 0 whatever the lightness;
    [rgbToHsl(0,0,0)] is [0; 0; 0] and [rgbToHsl(255,255,255)] is
    [0; 0; 100]. *)
Theorem C8_grey_has_no_hue_no_saturation :
  (forall v, 0 <= v <= 255 ->
     exists l, rgbToHsl (Number_of_Z v) (Number_of_Z v) (Number_of_Z v)
               = [0%float; 0%float; l])
  /\ (forall r g b, 0 <= r <= 255 -> 0 <= g <= 255 -> 0 <= b <= 255 ->
        ((Math_max [norm r; norm g; norm b] =? Math_min [norm r; norm g; norm b])%float
         = true <-> r = g /\ g = b))
  /\ rgbToHsl 0%float 0%float 0%float = [0%float; 0%float; 0%float]
  /\ rgbToHsl 255%float 255%float 255%float = [0%float; 0%float; 100%float].
Proof.
  split; [|split; [|split; vm_compute; reflexivity]].
  - intros v Hv. rewrite rgbToHsl_hsl_spec by assumption. unfold hsl_spec.
    replace (Z.max (Z.max v v) v =? Z.min (Z.min v v) v) with true
      by (symmetry; apply Z.eqb_eq; lia).
    eexists. reflexivity.
  - intros r g b Hr Hg Hb.
    rewrite Math_max_norm, Math_min_norm by assumption.
    assert (Hmx : 0 <= Z.max (Z.max r g) b <= 255) by lia.
    assert (Hmn : 0 <= Z.min (Z.min r g) b <= 255) by lia.
    rewrite (proj2 (norm_order _ _ Hmx Hmn)), Z.eqb_eq. lia.
Qed.

Lemma C8_witness :
  exists l, rgbToHsl (Number_of_Z 128) (Number_of_Z 128) (Number_of_Z 128)
            = [0%float; 0%float; l].
Proof. apply (proj1 C8_grey_has_no_hue_no_saturation 128); lia. Defined.

(** C9.  Perfect score: when every answer is the six hex digits of its
    question's colour, [calculateScore] gives average RGB error
    [0; 0; 0], average HSL error [0; 0; 0] and RMSE 0, shown as
    "0.0000" (for any number of questions from 1 up to 2^53 / 3, the
    range in which the count is an exact Number); so it is for the
    [numQuestions] questions that [setupQuestions] stores, whatever the
    colours drawn. *)
Theorem C9_perfect_score :
  (forall n questions,
      (0 < n)%nat -> 3 * Z.of_nat n < 2 ^ 53 ->
      List.length questions = n -> Forall well_formed questions ->
      calculateScore n questions (map answer_of questions) = Return zero_report)
  /\ (forall draw,
        byte_draw draw ->
        let questions := fst (setupQuestions numQuestions draw) in
        calculateScore numQuestions questions (map answer_of questions)
        = Return zero_report)
  /\ avgRgbError zero_report = [0%float; 0%float; 0%float]
  /\ avgHslError zero_report = [0%float; 0%float; 0%float]
  /\ rmse zero_report = 0%float
  /\ display zero_report
     = {| rgbErrorText := Some "R: 0.00%, G: 0.00%, B: 0.00%";
          hslErrorText := Some "H: 0.00%, S: 0.00%, L: 0.00%";
          rmseScoreText := Some "0.0000" |}.
Proof.
  split; [intros n questions Hn Hb Hlen Hwf; apply calculateScore_perfect; assumption|].
  split; [intros draw Hd; apply setupQuestions_perfect; exact Hd|].
  repeat split.
Qed.

Lemma C9_witness :
  calculateScore numQuestions sample_session (map answer_of sample_session)
  = Return zero_report.
Proof.
  apply (proj1 C9_perfect_score numQuestions sample_session).
  - unfold numQuestions. lia.
  - vm_compute. reflexivity.
  - reflexivity.
  - unfold sample_session, well_formed.
    repeat (apply Forall_cons; [cbn; repeat split; try lia; vm_compute; reflexivity|]).
    apply Forall_nil.
Defined.

(** C10.  Hex parsing ignores case: for r, g, b in [0, 255], every
    string that spells the six digits of the colour in upper case,
    lower case or a mixture is parsed by [hexToRgb] to [r; g; b]; and a
    session scores the same with its answers in lower case as in upper
    case. *)
Theorem C10_hex_parsing_ignores_case :
  (forall r g b s,
     0 <= r <= 255 -> 0 <= g <= 255 -> 0 <= b <= 255 ->
     toLowerCase s = toLowerCase (slice (hexOf r g b) 1) ->
     hexToRgb ("#" ++ s) = [r; g; b])
  /\ (forall n questions inputs,
        forallb is_ascii_string inputs = true ->
        calculateScore n questions (map toLowerCase inputs)
        = calculateScore n questions (map toUpperCase inputs)).
Proof.
  split.
  - intros r g b s Hr Hg Hb Hs. apply hexToRgb_case_variant; assumption.
  - intros n questions inputs _.
    unfold toLowerCase, toUpperCase.
    rewrite (calculateScore_map_inputs (map_string lower_char))
      by (apply userRgb_map, lower_char_blind).
    rewrite (calculateScore_map_inputs (map_string upper_char))
      by (apply userRgb_map, upper_char_blind).
    reflexivity.
Qed.

Lemma C10_witness :
  hexToRgb ("#" ++ "fF0a9C") = [255; 10; 156]
  /\ calculateScore 1 [red_question] (map toLowerCase ["Ff0A00"])
     = calculateScore 1 [red_question] (map toUpperCase ["Ff0A00"]).
Proof.
  split.
  - apply (proj1 C10_hex_parsing_ignores_case 255 10 156 "fF0a9C"); try lia.
    vm_compute. reflexivity.
  - apply (proj2 C10_hex_parsing_ignores_case 1%nat [red_question] ["Ff0A00"]).
    vm_compute. reflexivity.
Defined.

(* ================================================================= *)
(** * Further lemmas *)

(** ** What [calculateScore] reads, and when it throws *)

Lemma for_each_ext_in step1 step2 l acc :
  (forall a i, In i l -> step1 a i = step2 a i) ->
  for_each step1 l acc = for_each step2 l acc.
Proof.
  revert acc. induction l as [|i l IH]; intros acc H; [reflexivity|].
  cbn. rewrite (H acc i) by (left; reflexivity).
  destruct (step2 acc i); [|reflexivity].
  apply IH. intros a j Hj. apply H. right. exact Hj.
Qed.

Lemma nth_error_firstn_map {A B} (f : A -> B) n (l l' : list A) i :
  (i < n)%nat -> map f (firstn n l) = map f (firstn n l') ->
  option_map f (nth_error l i) = option_map f (nth_error l' i).
Proof.
  intros Hi H.
  assert (E : forall k : list A, nth_error k i = nth_error (firstn n k) i).
  { intros k. rewrite nth_error_firstn.
    destruct (Nat.ltb_spec i n); [reflexivity|lia]. }
  rewrite (E l), (E l'), <- !nth_error_map, H. reflexivity.
Qed.

Lemma question_step_channels qs qs' inputs inputs' acc i :
  option_map channels (nth_error qs i) = option_map channels (nth_error qs' i) ->
  option_map userRgb (nth_error inputs i) = option_map userRgb (nth_error inputs' i) ->
  question_step qs inputs acc i = question_step qs' inputs' acc i.
Proof.
  intros Hq Hv. unfold question_step, lookup.
  destruct (nth_error qs i) as [q|], (nth_error qs' i) as [q'|];
    try discriminate; [|reflexivity].
  cbn [bind].
  destruct (nth_error inputs i) as [v|], (nth_error inputs' i) as [v'|];
    try discriminate; [|reflexivity].
  cbn [bind]. cbn in Hq, Hv. unfold channels in Hq.
  injection Hq as -> -> ->.
  assert (E : userRgb v = userRgb v') by congruence.
  rewrite E. reflexivity.
Qed.

Lemma calculateScore_depends n qs qs' inputs inputs' :
  map channels (firstn n qs) = map channels (firstn n qs') ->
  map userRgb (firstn n inputs) = map userRgb (firstn n inputs') ->
  calculateScore n qs inputs = calculateScore n qs' inputs'.
Proof.
  intros Hq Hv. unfold calculateScore. f_equal.
  apply for_each_ext_in. intros a i Hi. apply in_seq in Hi.
  apply question_step_channels.
  - apply (nth_error_firstn_map channels n); [lia|exact Hq].
  - apply (nth_error_firstn_map userRgb n); [lia|exact Hv].
Qed.

Lemma question_step_TypeError qs inputs acc i :
  question_step qs inputs acc i = TypeError
  <-> (List.length qs <= i)%nat \/ (List.length inputs <= i)%nat.
Proof.
  unfold question_step, lookup.
  destruct (nth_error qs i) as [q|] eqn:Eq; cbn [bind].
  - destruct (nth_error inputs i) as [v|] eqn:Ev; cbn [bind].
    + split; [discriminate|].
      assert (nth_error qs i <> None) by congruence.
      assert (nth_error inputs i <> None) by congruence.
      rewrite nth_error_Some in *. lia.
    + split; [|reflexivity]. intros _. right. apply nth_error_None. exact Ev.
  - split; [|reflexivity]. intros _. left. apply nth_error_None. exact Eq.
Qed.

Lemma for_each_TypeError qs inputs k s acc :
  for_each (question_step qs inputs) (seq s k) acc = TypeError
  <-> (List.length qs - s < k)%nat \/ (List.length inputs - s < k)%nat.
Proof.
  revert s acc. induction k as [|k IH]; intros s acc.
  - cbn. split; [discriminate|]. intros [H|H]; lia.
  - cbn [seq for_each].
    destruct (question_step qs inputs acc s) as [acc'|] eqn:E; cbn [bind].
    + assert (N : ~ ((List.length qs <= s)%nat \/ (List.length inputs <= s)%nat)).
      { intros H. apply (question_step_TypeError qs inputs acc s) in H. congruence. }
      rewrite IH. lia.
    + apply question_step_TypeError in E. split; [intros _; lia|reflexivity].
Qed.

Lemma calculateScore_TypeError n qs inputs :
  calculateScore n qs inputs = TypeError
  <-> (List.length qs < n)%nat \/ (List.length inputs < n)%nat.
Proof.
  unfold calculateScore.
  destruct (for_each (question_step qs inputs) (seq 0 n) initial) as [acc|] eqn:E;
    cbn [bind].
  - split; [discriminate|]. intros H.
    assert (T : for_each (question_step qs inputs) (seq 0 n) initial = TypeError)
      by (apply for_each_TypeError; lia).
    congruence.
  - apply for_each_TypeError in E. split; [intros _; lia|reflexivity].
Qed.


(** ** [hexToRgb] on digits, signs and other characters *)

Lemma all_hex_digits_prefix s :
  all_hex s = true -> List.length (digits_prefix 16 s) = String.length s.
Proof.
  induction s as [|c s IH]; intros H; [reflexivity|].
  cbn in *. destruct (radix_digit 16 c); [|discriminate].
  cbn. rewrite IH by exact H. reflexivity.
Qed.

Lemma radix_digit_digit_value c d : radix_digit 16 c = Some d -> digit_value c = Some d.
Proof.
  unfold radix_digit. destruct (digit_value c) as [d'|]; [|discriminate].
  destruct (d' <? 16); congruence.
Qed.

Lemma fold_digits_hex_number s acc :
  all_hex s = true ->
  fold_left (fun a d => a * 16 + d) (digits_prefix 16 s) acc = hex_number acc s.
Proof.
  revert acc. induction s as [|c s IH]; intros acc H; [reflexivity|].
  cbn [all_hex digits_prefix hex_number] in *.
  destruct (radix_digit 16 c) as [d|] eqn:E; [|discriminate].
  rewrite (radix_digit_digit_value c d E). cbn [fold_left].
  rewrite IH by exact H. reflexivity.
Qed.

Lemma mathInt_hex_number s :
  all_hex s = true -> mathInt_of_digits 16 (digits_prefix 16 s) = hex_number 0 s.
Proof. intros H. apply fold_digits_hex_number, H. Qed.

Lemma hex_number_bound s :
  all_hex s = true -> 0 <= hex_number 0 s < 16 ^ Z.of_nat (String.length s).
Proof.
  intros H. rewrite <- mathInt_hex_number, <- all_hex_digits_prefix by exact H.
  apply mathInt_of_digits_bound, digits_prefix_range.
Qed.

(** Binary64 holds the negative integers above -2^53 exactly, too. *)
Lemma binary_normalize_small_neg p :
  Zpos p < 2 ^ 53 ->
  exists m e, binary_normalize prec emax (Zneg p) 0 false = S754_finite true m e
    /\ bounded prec emax m e = true /\ e <= 0 /\ Zpos m = Zpos p * 2 ^ (- e).
Proof.
  intros Hp.
  pose proof (digits2_pos_le p 53 ltac:(lia) Hp) as Hk.
  assert (Hk1 : 1 <= Zpos (digits2_pos p)) by lia.
  unfold binary_normalize, binary_round, shl_align.
  assert (Hf : fexp prec emax (Zpos (digits2_pos p) + 0) = Zpos (digits2_pos p) - 53).
  { unfold fexp, SpecFloat.emin, prec, emax. lia. }
  rewrite Hf.
  assert (Hcan : forall q e, Zpos (digits2_pos q) = 53 -> -52 <= e <= 0 ->
                 bounded prec emax q e = true).
  { intros q e Hq He. unfold bounded, canonical_mantissa. rewrite Hq.
    apply andb_true_intro. split.
    - apply Z.eqb_eq. unfold fexp, SpecFloat.emin, prec, emax. lia.
    - apply Z.leb_le. unfold prec, emax. lia. }
  destruct (Zpos (digits2_pos p) - 53 - 0) eqn:Hd; try lia.
  - exists p, 0.
    rewrite binary_round_aux_canonical by lia.
    repeat split; try lia. apply Hcan; lia.
  - set (q := Pos.iter xO p p0).
    set (e := Zpos (digits2_pos p) - 53).
    assert (Hq : Zpos (digits2_pos q) = 53).
    { unfold q. rewrite digits2_pos_iter_xO. lia. }
    assert (He : -52 <= e <= 0) by (unfold e; lia).
    exists q, e.
    rewrite binary_round_aux_canonical by lia.
    repeat split; try lia.
    + apply Hcan; lia.
    + unfold q. rewrite iter_xO_value. f_equal. f_equal. lia.
Qed.

(** An integer of magnitude below 2^53 is its own truncation. *)
Lemma truncate_Number_of_Z z :
  - 2 ^ 53 < z < 2 ^ 53 -> truncate (Number_of_Z z) = Some z.
Proof.
  intros Hz. unfold truncate, Number_of_Z.
  assert (Hmag : forall m e p, e <= 0 -> Zpos m = Zpos p * 2 ^ (- e) ->
            (if 0 <=? e then Zpos m * 2 ^ e else Zpos m / 2 ^ (- e)) = Zpos p).
  { intros m e p He Hm. destruct (Z.leb_spec 0 e).
    - assert (e = 0) by lia. subst e. cbn in Hm. lia.
    - rewrite Hm. apply Z.div_mul. apply Z.pow_nonzero; lia. }
  destruct z as [|p|p].
  - reflexivity.
  - destruct (binary_normalize_small p) as (m & e & Hn & Hb & He & Hm); [lia|].
    rewrite Hn, Prim2SF_SF2Prim by exact Hb. rewrite (Hmag m e p He Hm). reflexivity.
  - destruct (binary_normalize_small_neg p) as (m & e & Hn & Hb & He & Hm); [lia|].
    rewrite Hn, Prim2SF_SF2Prim by exact Hb. rewrite (Hmag m e p He Hm). reflexivity.
Qed.

(** The bytes that shifting and masking take out of ToInt32 of an
    integer are the low bytes of the integer itself. *)
Lemma bytes_of_ToInt32 x z :
  truncate x = Some z ->
  [bitand (sar x 16) 255; bitand (sar x 8) 255; bitand (ToInt32 x) 255] = low_bytes z.
Proof.
  intros Hx. unfold sar, bitand, ToInt32, low_bytes. rewrite Hx.
  set (w := if 2 ^ 31 <=? z mod 2 ^ 32 then z mod 2 ^ 32 - 2 ^ 32 else z mod 2 ^ 32).
  assert (Hw : exists k, w = z + k * 2 ^ 32).
  { pose proof (Z.div_mod z (2 ^ 32) ltac:(lia)) as D.
    unfold w. destruct (2 ^ 31 <=? z mod 2 ^ 32).
    - exists (- (z / 2 ^ 32) - 1). lia.
    - exists (- (z / 2 ^ 32)). lia. }
  destruct Hw as (k & ->).
  change (16 mod 32) with 16. change (8 mod 32) with 8.
  rewrite !byte_of_word by lia.
  replace (Z.land (z + k * 2 ^ 32) 255) with ((z + k * 2 ^ 32) mod 256)
    by (change 255 with (Z.ones 8); rewrite Z.land_ones by lia; reflexivity).
  change (2 ^ 16) with 65536. change (2 ^ 8) with 256.
  f_equal; [|f_equal; [|f_equal]].
  - replace (k * 2 ^ 32) with (k * 65536 * 65536) by lia.
    rewrite Z.div_add by lia.
    replace (k * 65536) with (k * 256 * 256) by lia.
    apply Z.mod_add. lia.
  - replace (k * 2 ^ 32) with (k * 16777216 * 256) by lia.
    rewrite Z.div_add by lia.
    replace (k * 16777216) with (k * 65536 * 256) by lia.
    apply Z.mod_add. lia.
  - replace (k * 2 ^ 32) with (k * 16777216 * 256) by lia.
    apply Z.mod_add. lia.
Qed.

Lemma truncate_zero : truncate zero = Some 0.
Proof. reflexivity. Qed.

Lemma truncate_neg_zero : truncate neg_zero = Some 0.
Proof. reflexivity. Qed.

Lemma pow16_13 n : (n <= 13)%nat -> 16 ^ Z.of_nat n <= 2 ^ 52.
Proof.
  intros H. apply Z.le_trans with (16 ^ 13); [apply Z.pow_le_mono_r; lia|].
  vm_compute. discriminate.
Qed.

Lemma hexToRgb_low_bytes c0 s :
  s <> "" -> all_hex s = true -> (String.length s <= 13)%nat ->
  hexToRgb (String c0 s) = low_bytes (hex_number 0 s).
Proof.
  intros Hne Hh Hl. unfold hexToRgb. cbn [slice].
  rewrite parseInt_hex_digits by (try apply all_hex_digits_prefix; assumption).
  cbv zeta. rewrite mathInt_hex_number by exact Hh.
  pose proof (hex_number_bound s Hh) as Hb. pose proof (pow16_13 _ Hl) as Hp.
  assert (2 ^ 52 < 2 ^ 53) by (apply Z.pow_lt_mono_r; lia).
  apply bytes_of_ToInt32.
  destruct (Z.eqb_spec (hex_number 0 s) 0) as [->|];
    [reflexivity|apply truncate_Number_of_Z; lia].
Qed.

Lemma trim_start_white_space w s :
  all_white_space w = true -> trim_start (w ++ s) = trim_start s.
Proof.
  induction w as [|c w IH]; intros H; [reflexivity|].
  cbn [all_white_space] in H. apply andb_prop in H. destruct H as [Hc Hw].
  cbn [append trim_start]. rewrite Hc. apply IH, Hw.
Qed.

Lemma parseInt_white_space w s R :
  all_white_space w = true -> parseInt (w ++ s) R = parseInt s R.
Proof. intros H. unfold parseInt. rewrite trim_start_white_space by exact H. reflexivity. Qed.

Lemma all_hex_first s :
  all_hex s = true ->
  trim_start s = s /\ strip_sign s = (false, s) /\ has_0x s = false.
Proof.
  intros H. destruct s as [|c s]; [repeat split|].
  cbn [all_hex] in H. destruct (radix_digit 16 c) as [d|] eqn:Ec; [|discriminate].
  destruct (hex_char_facts c d Ec) as (Hws & Hm & Hp & _).
  split; [cbn [trim_start]; rewrite Hws; reflexivity|].
  split; [unfold strip_sign; rewrite Hm, Hp; reflexivity|].
  destruct s as [|c2 s]; [reflexivity|]. cbn [has_0x all_hex] in *.
  destruct (radix_digit 16 c2) as [d2|] eqn:Ec2; [|discriminate].
  destruct (hex_char_facts c2 d2 Ec2) as (_ & _ & _ & Hx & HX & _).
  rewrite Hx, HX, andb_false_r. reflexivity.
Qed.

Lemma parseInt_all_hex s : all_hex s = true -> parseInt s 16 = parsed false s.
Proof.
  intros H. destruct (all_hex_first s H) as (Ht & Hs & Hx).
  unfold parseInt, parsed. rewrite Ht, Hs, Hx. reflexivity.
Qed.

Lemma parseInt_plus s : all_hex s = true -> parseInt (String "+" s) 16 = parsed false s.
Proof.
  intros H. destruct (all_hex_first s H) as (Ht & Hs & Hx).
  unfold parseInt, parsed.
  change (trim_start (String "+" s)) with (String "+" s).
  change (strip_sign (String "+" s)) with (false, s). cbv beta iota zeta.
  rewrite Hx. reflexivity.
Qed.

Lemma parseInt_minus s : all_hex s = true -> parseInt (String "-" s) 16 = parsed true s.
Proof.
  intros H. destruct (all_hex_first s H) as (Ht & Hs & Hx).
  unfold parseInt, parsed.
  change (trim_start (String "-" s)) with (String "-" s).
  change (strip_sign (String "-" s)) with (true, s). cbv beta iota zeta.
  rewrite Hx. reflexivity.
Qed.

Lemma parseInt_0x x s :
  (x = "x" \/ x = "X")%char -> all_hex s = true ->
  parseInt (String "0" (String x s)) 16 = parsed false s.
Proof.
  intros Hx H.
  unfold parseInt, parsed.
  destruct Hx; subst x; reflexivity.
Qed.

Lemma hexToRgb_prefixes c0 w s :
  all_white_space w = true -> all_hex s = true ->
  hexToRgb (String c0 (w ++ s)) = hexToRgb (String c0 s)
  /\ hexToRgb (String c0 (w ++ "+" ++ s)) = hexToRgb (String c0 s)
  /\ hexToRgb (String c0 (w ++ "0x" ++ s)) = hexToRgb (String c0 s)
  /\ hexToRgb (String c0 (w ++ "0X" ++ s)) = hexToRgb (String c0 s).
Proof.
  intros Hw Hs. unfold hexToRgb. cbn [slice].
  rewrite (parseInt_white_space w s), (parseInt_white_space w ("+" ++ s)),
    (parseInt_white_space w ("0x" ++ s)), (parseInt_white_space w ("0X" ++ s))
    by exact Hw.
  cbn [append].
  rewrite parseInt_plus, (parseInt_0x "x"), (parseInt_0x "X"), parseInt_all_hex
    by (assumption || tauto).
  repeat split.
Qed.

Lemma hexToRgb_minus_digits c0 s :
  s <> "" -> all_hex s = true -> (String.length s <= 13)%nat ->
  hexToRgb (String c0 (String "-" s)) = low_bytes (- hex_number 0 s).
Proof.
  intros Hne Hh Hl. unfold hexToRgb. cbn [slice].
  rewrite parseInt_minus by exact Hh. unfold parsed.
  pose proof (mathInt_hex_number s Hh) as Hv.
  pose proof (hex_number_bound s Hh) as Hb. pose proof (pow16_13 _ Hl) as Hp.
  assert (2 ^ 52 < 2 ^ 53) by (apply Z.pow_lt_mono_r; lia).
  destruct (digits_prefix 16 s) as [|d ds] eqn:Ed.
  { apply all_hex_digits_prefix in Hh. rewrite Ed in Hh.
    destruct s; [congruence|discriminate]. }
  rewrite Hv.
  apply bytes_of_ToInt32.
  destruct (Z.eqb_spec (hex_number 0 s) 0) as [->|];
    [reflexivity|apply truncate_Number_of_Z; lia].
Qed.

Lemma digits_prefix_stop s c rest :
  all_hex s = true -> radix_digit 16 c = None ->
  digits_prefix 16 (s ++ String c rest) = digits_prefix 16 s.
Proof.
  intros Hs Hc. induction s as [|a s IH].
  - cbn. rewrite Hc. reflexivity.
  - cbn [all_hex append digits_prefix] in *.
    destruct (radix_digit 16 a); [|discriminate]. rewrite IH by exact Hs. reflexivity.
Qed.

Lemma parseInt_stops_at_first_bad s c rest :
  s <> "" -> all_hex s = true -> radix_digit 16 c = None ->
  (c =? "x")%char = false -> (c =? "X")%char = false ->
  parseInt (s ++ String c rest) 16 = parseInt s 16.
Proof.
  intros Hne Hs Hc Hx HX.
  rewrite (parseInt_all_hex s Hs).
  pose proof (digits_prefix_stop s c rest Hs Hc) as Hd.
  destruct s as [|a s]; [congruence|].
  cbn [all_hex] in Hs. destruct (radix_digit 16 a) as [d|] eqn:Ea; [|discriminate].
  destruct (hex_char_facts a d Ea) as (Hws & Hm & Hp & _).
  assert (H0x : has_0x (String a s ++ String c rest) = false).
  { destruct s as [|a2 s]; cbn [append has_0x].
    - rewrite Hx, HX, andb_false_r. reflexivity.
    - cbn [all_hex] in Hs. destruct (radix_digit 16 a2) as [d2|] eqn:Ea2; [|discriminate].
      destruct (hex_char_facts a2 d2 Ea2) as (_ & _ & _ & Hx2 & HX2 & _).
      rewrite Hx2, HX2, andb_false_r. reflexivity. }
  unfold parseInt, parsed.
  assert (Ht : trim_start (String a s ++ String c rest) = String a s ++ String c rest)
    by (cbn [append trim_start]; rewrite Hws; reflexivity).
  assert (Hg : strip_sign (String a s ++ String c rest)
               = (false, String a s ++ String c rest))
    by (cbn [append]; unfold strip_sign; rewrite Hm, Hp; reflexivity).
  rewrite Ht, Hg. cbv beta iota zeta. rewrite H0x.
  cbn [Z.eqb Pos.eqb negb andb orb Z.ltb Z.compare Pos.compare Pos.compare_cont].
  rewrite Hd. reflexivity.
Qed.

Lemma hexToRgb_stops_at_first_bad c0 s c rest :
  s <> "" -> all_hex s = true -> radix_digit 16 c = None ->
  (c =? "x")%char = false -> (c =? "X")%char = false ->
  hexToRgb (String c0 (s ++ String c rest)) = hexToRgb (String c0 s).
Proof.
  intros Hne Hs Hc Hx HX. unfold hexToRgb. cbn [slice].
  rewrite parseInt_stops_at_first_bad by assumption. reflexivity.
Qed.

Lemma hexToRgb_no_digit c0 c rest :
  radix_digit 16 c = None -> is_white_space c = false ->
  (c =? "-")%char = false -> (c =? "+")%char = false ->
  hexToRgb (String c0 (String c rest)) = [0; 0; 0].
Proof.
  intros Hc Hws Hm Hp. apply hexToRgb_nan. cbn [slice].
  unfold parseInt. cbn [trim_start]. rewrite Hws. unfold strip_sign. rewrite Hm, Hp.
  assert (H0 : has_0x (String c rest) = false).
  { destruct rest as [|c2 rest]; [reflexivity|]. cbn [has_0x].
    destruct (Ascii.eqb_spec c "0") as [->|]; [discriminate Hc|reflexivity]. }
  rewrite H0.
  cbn [Z.eqb Pos.eqb negb andb orb Z.ltb Z.compare Pos.compare Pos.compare_cont].
  cbn [digits_prefix]. rewrite Hc. reflexivity.
Qed.


(** ** The format of [hexOf] *)

Lemma hex_byte_shape_ok n :
  0 <= n <= 255 ->
  hex_byte n = String (upper_char (digit_char (n / 16)))
                 (String (upper_char (digit_char (n mod 16))) "")
  /\ is_upper_hex (upper_char (digit_char (n / 16))) = true
  /\ is_upper_hex (upper_char (digit_char (n mod 16))) = true.
Proof.
  intros Hn.
  pose proof (forall_range hex_byte_shape 256 ltac:(vm_compute; reflexivity) n ltac:(lia))
    as H.
  unfold hex_byte_shape in H.
  apply andb_prop in H. destruct H as [H H3].
  apply andb_prop in H. destruct H as [H1 H2].
  apply String.eqb_eq in H1. repeat split; assumption.
Qed.

Lemma hexOf_format r g b :
  0 <= r <= 255 -> 0 <= g <= 255 -> 0 <= b <= 255 ->
  exists s, hexOf r g b = String "#" s
    /\ String.length s = 6%nat /\ all_upper_hex s = true.
Proof.
  intros Hr Hg Hb. rewrite hexOf_bytes.
  destruct (hex_byte_shape_ok r Hr) as (-> & R1 & R2).
  destruct (hex_byte_shape_ok g Hg) as (-> & G1 & G2).
  destruct (hex_byte_shape_ok b Hb) as (-> & B1 & B2).
  eexists. split; [reflexivity|]. split; [reflexivity|].
  cbn [append all_upper_hex]. rewrite R1, R2, G1, G2, B1, B2. reflexivity.
Qed.

Lemma hex_char_upper_ok c d :
  radix_digit 16 c = Some d -> upper_char c = upper_char (digit_char d).
Proof.
  intros H.
  pose proof (forall_ascii hex_char_upper ltac:(vm_compute; reflexivity) c) as Hc.
  unfold hex_char_upper in Hc. rewrite H in Hc. apply Ascii.eqb_eq, Hc.
Qed.

Lemma hex_byte_of_digits c1 c2 d1 d2 :
  radix_digit 16 c1 = Some d1 -> radix_digit 16 c2 = Some d2 ->
  hex_byte (d1 * 16 + d2) = String (upper_char c1) (String (upper_char c2) "").
Proof.
  intros H1 H2.
  destruct (hex_char_facts c1 d1 H1) as (_ & _ & _ & _ & _ & B1).
  destruct (hex_char_facts c2 d2 H2) as (_ & _ & _ & _ & _ & B2).
  destruct (hex_byte_shape_ok (d1 * 16 + d2) ltac:(lia)) as (-> & _).
  rewrite (hex_char_upper_ok c1 d1 H1), (hex_char_upper_ok c2 d2 H2).
  replace ((d1 * 16 + d2) / 16) with d1
    by (rewrite Z.div_add_l, Z.div_small by lia; lia).
  replace ((d1 * 16 + d2) mod 16) with d2
    by (rewrite Z.add_comm, Z.mod_add, Z.mod_small by lia; reflexivity).
  reflexivity.
Qed.

Lemma hexOf_hexToRgb c0 s :
  String.length s = 6%nat -> all_hex s = true ->
  exists r g b, hexToRgb (String c0 s) = [r; g; b]
    /\ hexOf r g b = String "#" (toUpperCase s).
Proof.
  intros Hl Hh.
  destruct s as [|c1 [|c2 [|c3 [|c4 [|c5 [|c6 [|? ?]]]]]]]; try discriminate Hl.
  cbn [all_hex] in Hh.
  destruct (radix_digit 16 c1) as [d1|] eqn:E1; [|discriminate].
  destruct (radix_digit 16 c2) as [d2|] eqn:E2; [|discriminate].
  destruct (radix_digit 16 c3) as [d3|] eqn:E3; [|discriminate].
  destruct (radix_digit 16 c4) as [d4|] eqn:E4; [|discriminate].
  destruct (radix_digit 16 c5) as [d5|] eqn:E5; [|discriminate].
  destruct (radix_digit 16 c6) as [d6|] eqn:E6; [|discriminate].
  exists (d1 * 16 + d2), (d3 * 16 + d4), (d5 * 16 + d6).
  split; [apply hexToRgb_six_digits; assumption|].
  rewrite hexOf_bytes.
  rewrite (hex_byte_of_digits c1 c2 d1 d2 E1 E2), (hex_byte_of_digits c3 c4 d3 d4 E3 E4),
    (hex_byte_of_digits c5 c6 d5 d6 E5 E6).
  reflexivity.
Qed.


(** ** The hue, the saturation and the lightness of byte colours *)

Lemma sl_extremes_ok :
  forallb (fun max => forallb (sl_extremes max) channel_values) channel_values = true.
Proof. vm_compute. reflexivity. Qed.

Lemma hue_sectors_ok :
  forallb (fun R => forallb (fun G => forallb (hue_sector_ok R G) channel_values)
                      channel_values) channel_values = true.
Proof. vm_compute. reflexivity. Qed.

Lemma leb_ltb_eqb x y : (x <=? y)%float = ((x <? y)%float || (x =? y)%float).
Proof.
  rewrite leb_spec, ltb_spec, eqb_spec. unfold SFleb, SFltb, SFeqb.
  destruct (SFcompare (Prim2SF x) (Prim2SF y)) as [[]|]; reflexivity.
Qed.

Lemma norm_leb x y :
  0 <= x <= 255 -> 0 <= y <= 255 -> (norm x <=? norm y)%float = (x <=? y).
Proof.
  intros Hx Hy. rewrite leb_ltb_eqb.
  rewrite (proj1 (norm_order x y Hx Hy)), (proj2 (norm_order x y Hx Hy)).
  destruct (Z.ltb_spec x y), (Z.eqb_spec x y), (Z.leb_spec x y); try reflexivity; lia.
Qed.

(** The check of [hue_sector_ok], read on the integer channels. *)
Lemma hue_sector_channels r g b :
  0 <= r <= 255 -> 0 <= g <= 255 -> 0 <= b <= 255 ->
  let h := (hue_turns r g b * 360)%float in
  ((r =? g) && (g =? b))
  || (if (g <=? r) && (b <=? r) then
        (if g <? b then (300 <=? h)%float && (h <? 360)%float
                        && (negb (b =? r) || (h =? 300)%float)
         else (0 <=? h)%float && (h <=? 60)%float
              && (negb (g =? b) || (h =? 0)%float) && (negb (g =? r) || (h =? 60)%float))
      else if b <=? g then
        (60 <=? h)%float && (h <=? 180)%float
        && (negb (b =? r) || (h =? 120)%float) && (negb (b =? g) || (h =? 180)%float)
      else (180 <=? h)%float && (h <=? 300)%float && (negb (r =? g) || (h =? 240)%float))
  = true.
Proof.
  intros Hr Hg Hb.
  pose proof (proj1 (forallb_forall _ _) hue_sectors_ok _ (In_channel_values r Hr)) as H1.
  cbv beta in H1.
  pose proof (proj1 (forallb_forall _ _) H1 _ (In_channel_values g Hg)) as H2.
  cbv beta in H2.
  pose proof (proj1 (forallb_forall _ _) H2 _ (In_channel_values b Hb)) as H3.
  unfold hue_sector_ok in H3. cbv zeta in H3.
  rewrite hue_turns_hue_f in H3 by assumption.
  rewrite (proj2 (norm_order r g Hr Hg)), (proj2 (norm_order g b Hg Hb)),
    (proj2 (norm_order b r Hb Hr)), (proj2 (norm_order g r Hg Hr)),
    (proj2 (norm_order b g Hb Hg)), (proj1 (norm_order g b Hg Hb)),
    (norm_leb g r Hg Hr), (norm_leb b r Hb Hr), (norm_leb b g Hb Hg) in H3.
  exact H3.
Qed.

Lemma hsl_spec_chromatic r g b :
  ~ (r = g /\ g = b) ->
  hsl_spec r g b
  = [(hue_turns r g b * 360)%float;
     (saturation (Z.max (Z.max r g) b) (Z.min (Z.min r g) b) * 100)%float;
     (lightness (Z.max (Z.max r g) b) (Z.min (Z.min r g) b) * 100)%float].
Proof.
  intros H. unfold hsl_spec.
  destruct (Z.eqb_spec (Z.max (Z.max r g) b) (Z.min (Z.min r g) b)); [lia|reflexivity].
Qed.

Lemma hue_sector r g b :
  0 <= r <= 255 -> 0 <= g <= 255 -> 0 <= b <= 255 -> ~ (r = g /\ g = b) ->
  exists h s l,
    rgbToHsl (Number_of_Z r) (Number_of_Z g) (Number_of_Z b) = [h; s; l]
    /\ (g <= r -> b <= r -> b <= g -> (0 <=? h)%float = true /\ (h <=? 60)%float = true)
    /\ (r < g -> b <= g -> (60 <=? h)%float = true /\ (h <=? 180)%float = true)
    /\ (r < b -> g < b -> (180 <=? h)%float = true /\ (h <=? 300)%float = true)
    /\ (g <= r -> b <= r -> g < b -> (300 <=? h)%float = true /\ (h <? 360)%float = true).
Proof.
  intros Hr Hg Hb Hne.
  rewrite rgbToHsl_hsl_spec, hsl_spec_chromatic by assumption.
  do 3 eexists. split; [reflexivity|].
  pose proof (hue_sector_channels r g b Hr Hg Hb) as H. cbv zeta in H.
  destruct (Z.eqb_spec r g), (Z.eqb_spec g b); cbn [andb orb] in H; try lia.
  all: destruct (Z.leb_spec g r), (Z.leb_spec b r), (Z.leb_spec b g), (Z.ltb_spec g b);
    cbn [andb] in H; try lia.
  all: repeat (apply andb_prop in H; destruct H as [H ?]).
  all: repeat split; intros; try lia; assumption.
Qed.

Lemma hue_anchor r g b :
  0 <= r <= 255 -> 0 <= g <= 255 -> 0 <= b <= 255 -> ~ (r = g /\ g = b) ->
  exists h s l,
    rgbToHsl (Number_of_Z r) (Number_of_Z g) (Number_of_Z b) = [h; s; l]
    /\ (g = b -> b < r -> (h =? 0)%float = true)
    /\ (r = g -> b < g -> (h =? 60)%float = true)
    /\ (r = b -> b < g -> (h =? 120)%float = true)
    /\ (g = b -> r < g -> (h =? 180)%float = true)
    /\ (r = g -> g < b -> (h =? 240)%float = true)
    /\ (r = b -> g < b -> (h =? 300)%float = true).
Proof.
  intros Hr Hg Hb Hne.
  rewrite rgbToHsl_hsl_spec, hsl_spec_chromatic by assumption.
  do 3 eexists. split; [reflexivity|].
  pose proof (hue_sector_channels r g b Hr Hg Hb) as H. cbv zeta in H.
  destruct (Z.eqb_spec r g), (Z.eqb_spec g b); cbn [andb orb] in H; try lia.
  all: destruct (Z.leb_spec g r), (Z.leb_spec b r), (Z.leb_spec b g), (Z.ltb_spec g b);
    cbn [andb] in H; try lia.
  all: destruct (Z.eqb_spec b r), (Z.eqb_spec g r), (Z.eqb_spec b g);
    cbn [negb orb] in H; try lia.
  all: repeat (apply andb_prop in H; destruct H as [H ?]).
  all: repeat split; intros; try lia; assumption.
Qed.

Lemma norm_0 : norm 0 = 0%float.
Proof. vm_compute. reflexivity. Qed.

Lemma norm_255 : norm 255 = 1%float.
Proof. vm_compute. reflexivity. Qed.

Lemma hsl_extremes r g b :
  0 <= r <= 255 -> 0 <= g <= 255 -> 0 <= b <= 255 ->
  exists h s l,
    rgbToHsl (Number_of_Z r) (Number_of_Z g) (Number_of_Z b) = [h; s; l]
    /\ ((s =? 0)%float = true <-> r = g /\ g = b)
    /\ (~ (r = g /\ g = b) -> (0 <? s)%float = true)
    /\ ((l =? 0)%float = true <-> r = 0 /\ g = 0 /\ b = 0)
    /\ ((l =? 100)%float = true <-> r = 255 /\ g = 255 /\ b = 255).
Proof.
  intros Hr Hg Hb. rewrite rgbToHsl_hsl_spec by assumption. unfold hsl_spec.
  set (mx := Z.max (Z.max r g) b). set (mn := Z.min (Z.min r g) b).
  assert (Hmx : 0 <= mx <= 255) by (unfold mx; lia).
  assert (Hmn : 0 <= mn <= 255) by (unfold mn; lia).
  pose proof (proj1 (forallb_forall _ _) sl_extremes_ok _ (In_channel_values mx Hmx)) as Ha.
  cbv beta in Ha.
  pose proof (proj1 (forallb_forall _ _) Ha _ (In_channel_values mn Hmn)) as H.
  unfold sl_extremes in H.
  fold (lightness mx mn) (saturation mx mn) in H.
  rewrite (proj1 (norm_order mx mn Hmx Hmn)), (proj2 (norm_order mx mn Hmx Hmn)) in H.
  pose proof (proj2 (norm_order mx 0 Hmx ltac:(lia))) as E0. rewrite norm_0 in E0.
  pose proof (proj2 (norm_order mn 255 Hmn ltac:(lia))) as E1. rewrite norm_255 in E1.
  rewrite E0, E1 in H.
  destruct (Z.ltb_spec mx mn); [unfold mx, mn in *; lia|]. cbn [orb] in H.
  apply andb_prop in H. destruct H as [H K100].
  apply andb_prop in H. destruct H as [Hs K0].
  apply eqb_prop in K0, K100.
  assert (L0 : (lightness mx mn * 100 =? 0)%float = true <-> r = 0 /\ g = 0 /\ b = 0).
  { rewrite K0, Z.eqb_eq. unfold mx. lia. }
  assert (L100 : (lightness mx mn * 100 =? 100)%float = true
                 <-> r = 255 /\ g = 255 /\ b = 255).
  { rewrite K100, Z.eqb_eq. unfold mn. lia. }
  destruct (Z.eqb_spec mx mn) as [E|E].
  - do 3 eexists. split; [reflexivity|].
    split; [split; [intros _; unfold mx, mn in E; lia|intros _; reflexivity]|].
    split; [intros N; exfalso; apply N; unfold mx, mn in E; lia|].
    split; assumption.
  - cbn [orb] in Hs. apply andb_prop in Hs. destruct Hs as [Hpos Hnz].
    apply negb_true_iff in Hnz.
    do 3 eexists. split; [reflexivity|].
    split; [rewrite Hnz; split; [discriminate|intros; unfold mx, mn in E; lia]|].
    split; [intros _; exact Hpos|]. split; assumption.
Qed.

Lemma fold_max_perm (l l' : list Z) z :
  Permutation l l' ->
  fold_right Z.max z l = fold_right Z.max z l'
  /\ fold_right Z.min z l = fold_right Z.min z l'.
Proof.
  induction 1 as [|x l l' P [IH1 IH2]|x y l|l l' l'' P [IH1 IH2] P' [IH3 IH4]];
    cbn [fold_right]; split; try reflexivity; try congruence; lia.
Qed.

Lemma max3_perm r g b r' g' b' :
  Permutation [r; g; b] [r'; g'; b'] ->
  Z.max (Z.max r g) b = Z.max (Z.max r' g') b'
  /\ Z.min (Z.min r g) b = Z.min (Z.min r' g') b'.
Proof.
  intros P.
  pose proof (fun z => proj1 (fold_max_perm _ _ z P)) as Hmax.
  pose proof (fun z => proj2 (fold_max_perm _ _ z P)) as Hmin.
  cbn [fold_right] in Hmax, Hmin.
  assert (Amax : forall x y z t, Z.max x (Z.max y (Z.max z t)) = Z.max (Z.max (Z.max x y) z) t)
    by (intros; rewrite !Z.max_assoc; reflexivity).
  assert (Amin : forall x y z t, Z.min x (Z.min y (Z.min z t)) = Z.min (Z.min (Z.min x y) z) t)
    by (intros; rewrite !Z.min_assoc; reflexivity).
  setoid_rewrite Amax in Hmax. setoid_rewrite Amin in Hmin.
  generalize dependent (Z.max (Z.max r g) b). generalize dependent (Z.max (Z.max r' g') b').
  generalize dependent (Z.min (Z.min r g) b). generalize dependent (Z.min (Z.min r' g') b').
  intros n' n Hmin m' m Hmax.
  pose proof (Hmax m). pose proof (Hmax m'). pose proof (Hmin n). pose proof (Hmin n').
  lia.
Qed.

Lemma perm3_bounds r g b r' g' b' :
  0 <= r <= 255 -> 0 <= g <= 255 -> 0 <= b <= 255 ->
  Permutation [r; g; b] [r'; g'; b'] ->
  0 <= r' <= 255 /\ 0 <= g' <= 255 /\ 0 <= b' <= 255.
Proof.
  intros Hr Hg Hb P.
  assert (A : Forall (fun x => 0 <= x <= 255) [r; g; b])
    by (repeat (apply Forall_cons; [assumption|]); apply Forall_nil).
  apply (Permutation_Forall P) in A.
  inversion A as [|? ? A1 A']; subst. inversion A' as [|? ? A2 A'']; subst.
  inversion A'' as [|? ? A3 _]; subst. tauto.
Qed.

Lemma saturation_lightness_symmetric r g b r' g' b' :
  0 <= r <= 255 -> 0 <= g <= 255 -> 0 <= b <= 255 ->
  Permutation [r; g; b] [r'; g'; b'] ->
  exists h h' s l,
    rgbToHsl (Number_of_Z r) (Number_of_Z g) (Number_of_Z b) = [h; s; l]
    /\ rgbToHsl (Number_of_Z r') (Number_of_Z g') (Number_of_Z b') = [h'; s; l].
Proof.
  intros Hr Hg Hb P.
  destruct (perm3_bounds _ _ _ _ _ _ Hr Hg Hb P) as (Hr' & Hg' & Hb').
  rewrite !rgbToHsl_hsl_spec by assumption. unfold hsl_spec.
  destruct (max3_perm _ _ _ _ _ _ P) as [<- <-].
  destruct (Z.max (Z.max r g) b =? Z.min (Z.min r g) b);
    do 4 eexists; split; reflexivity.
Qed.

(** A NaN channel. *)
Lemma is_nan_eq x : is_nan x = true -> x = nan.
Proof.
  intros H. apply Prim2SF_inj. unfold Prim2SF at 1. rewrite H. reflexivity.
Qed.

Lemma eqb_nan_l x : (nan =? x)%float = false.
Proof. rewrite eqb_spec. reflexivity. Qed.

Lemma Math_max_nan a b c :
  is_nan a = true \/ is_nan b = true \/ is_nan c = true -> Math_max [a; b; c] = nan.
Proof.
  intros H. unfold Math_max. cbn [Math_max_from].
  destruct (is_nan a) eqn:Ea; [reflexivity|].
  destruct (is_nan b) eqn:Eb; [reflexivity|].
  destruct (is_nan c) eqn:Ec; [reflexivity|].
  destruct H as [H|[H|H]]; discriminate.
Qed.

Lemma Math_min_nan a b c :
  is_nan a = true \/ is_nan b = true \/ is_nan c = true -> Math_min [a; b; c] = nan.
Proof.
  intros H. unfold Math_min. cbn [Math_min_from].
  destruct (is_nan a) eqn:Ea; [reflexivity|].
  destruct (is_nan b) eqn:Eb; [reflexivity|].
  destruct (is_nan c) eqn:Ec; [reflexivity|].
  destruct H as [H|[H|H]]; discriminate.
Qed.

Lemma is_nan_div x y : is_nan x = true -> is_nan (x / y)%float = true.
Proof.
  intros H. apply is_nan_eq in H. subst x.
  assert (E : (nan / y)%float = nan).
  { apply Prim2SF_inj. rewrite div_spec. reflexivity. }
  rewrite E. reflexivity.
Qed.

Lemma rgbToHsl_nan r g b :
  is_nan r = true \/ is_nan g = true \/ is_nan b = true ->
  rgbToHsl r g b = [nan; nan; nan].
Proof.
  intros H.
  assert (H' : is_nan (r / 255)%float = true \/ is_nan (g / 255)%float = true
               \/ is_nan (b / 255)%float = true).
  { destruct H as [H|[H|H]]; [left|right; left|right; right]; apply is_nan_div, H. }
  unfold rgbToHsl. rewrite (Math_max_nan _ _ _ H'), (Math_min_nan _ _ _ H').
  rewrite !eqb_nan_l. vm_compute. reflexivity.
Qed.


(** ** Rounding at any exponent *)

Lemma scaled_by_scaled K m e :
  1074 <= K -> -1074 <= e -> scaled_by K m e = scaled m e * 2 ^ (K - 1074).
Proof.
  intros HK He. unfold scaled_by, scaled.
  replace (e + K) with ((e + 1074) + (K - 1074)) by lia.
  rewrite Z.pow_add_r by lia. ring.
Qed.

(** [binary_round_aux_upper] for an exponent below that of the smallest
    binary64 number, as a product of two numbers has. *)
Lemma binary_round_aux_upper_by K sx m e l mc ec :
  1074 <= K ->
  0 <= m -> - K <= e -> e <= fexp prec emax (Zdigits2 m + e) ->
  Zpos (digits2_pos mc) <= 53 -> -1074 <= ec <= 971 ->
  scaled_by K m e <= scaled_by K (Zpos mc) ec ->
  (l <> loc_Exact -> scaled_by K m e < scaled_by K (Zpos mc) ec) ->
  binary_round_aux prec emax sx m e l = S754_zero sx
  \/ exists m3 e3,
       binary_round_aux prec emax sx m e l = S754_finite sx m3 e3
       /\ -1074 <= e3 <= ec /\ scaled (Zpos m3) e3 <= scaled (Zpos mc) ec.
Proof.
  intros HK Hm He Hfe Hdc Hec Hle Hlt.
  assert (Hmc : Zpos mc < 2 ^ 53).
  { apply Z.lt_le_trans with (2 ^ Zpos (digits2_pos mc)).
    - apply (Zdigits2_upper (Zpos mc)). lia.
    - apply Z.pow_le_mono_r; lia. }
  pose proof (pow2_pos (e + K) ltac:(lia)) as Pe.
  pose proof (pow2_pos (ec + K) ltac:(lia)) as Pec.
  unfold binary_round_aux, shr_fexp.
  set (d := Zdigits2 m) in *.
  set (n := fexp prec emax (d + e) - e).
  assert (Hn : 0 <= n) by (unfold n; lia).
  pose proof (shr_spec m l e n Hm Hn) as H1.
  destruct (shr (shr_record_of_loc m l) e n) as [mrs1 e1].
  destruct H1 as (Hm1 & He1 & Hl1).
  set (m1 := shr_m mrs1) in *. set (l1 := loc_of_shr_record mrs1) in *.
  destruct (round_nearest_even_spec m1 l1) as (Hr & Hrx).
  set (m2 := round_nearest_even m1 l1) in *.
  pose proof (pow2_pos n Hn) as Pn.
  assert (Hm1pos : 0 <= m1) by (rewrite Hm1; apply Z.div_pos; lia).
  assert (Hfx : e1 = fexp prec emax (d + e)) by (unfold n in He1; lia).
  assert (He1c : e1 <= ec).
  { destruct (Z_le_gt_dec e1 ec) as [|Hgt]; [assumption|exfalso].
    rewrite fexp_eq in Hfx.
    assert (Hd : d = e1 - e + 53) by lia.
    assert (Hmpos : 0 < m).
    { destruct (Z.eq_dec m 0) as [->|]; [|lia]. unfold d in Hd. cbn in Hd. lia. }
    pose proof (Zdigits2_lower m Hmpos) as Hlow. fold d in Hlow.
    unfold scaled_by in Hle.
    assert (2 ^ (d - 1) * 2 ^ (e + K) <= Zpos mc * 2 ^ (ec + K)) as Hc.
    { apply Z.le_trans with (2 := Hle). apply Z.mul_le_mono_nonneg_r; lia. }
    rewrite <- Z.pow_add_r in Hc by lia.
    assert (2 ^ (53 + (ec + K)) <= 2 ^ (d - 1 + (e + K))) as Hp
      by (apply Z.pow_le_mono_r; lia).
    rewrite Z.pow_add_r in Hp by lia.
    remember (2 ^ (ec + K)) as T. clear HeqT.
    remember (2 ^ 53) as U. clear HeqU. nia. }
  assert (He1lo : -1074 <= e1) by (rewrite Hfx, fexp_eq; lia).
  assert (Hm2 : scaled m2 e1 <= scaled (Zpos mc) ec).
  { set (C := Zpos mc * 2 ^ (ec - e1)).
    pose proof (pow2_pos (ec - e1) ltac:(lia)) as Pd.
    assert (HC : scaled_by K (Zpos mc) ec = C * 2 ^ n * 2 ^ (e + K)).
    { unfold scaled_by, C.
      replace (ec + K) with ((ec - e1) + (n + (e + K))) by lia.
      rewrite !Z.pow_add_r by lia. ring. }
    assert (HmC : m <= C * 2 ^ n).
    { rewrite HC in Hle. unfold scaled_by in Hle.
      apply (Z.mul_le_mono_pos_r _ _ (2 ^ (e + K))); assumption. }
    assert (Hm1C : m1 <= C).
    { rewrite Hm1. apply Z.div_le_upper_bound; lia. }
    assert (Hm2C : m2 <= C).
    { destruct (Z.eq_dec m1 C) as [E|E]; [|lia].
      assert (Hex : l1 = loc_Exact).
      { destruct l1 as [|c] eqn:El; [reflexivity|exfalso].
        destruct Hl1 as [Hl|Hr']; [congruence| |].
        - specialize (Hlt Hl). rewrite HC in Hlt. unfold scaled_by in Hlt.
          assert (m < C * 2 ^ n)
            by (apply (Z.mul_lt_mono_pos_r (2 ^ (e + K))); assumption).
          assert (m / 2 ^ n < C) by (apply Z.div_lt_upper_bound; lia). lia.
        - pose proof (Z.div_mod m (2 ^ n) ltac:(lia)) as Ed.
          pose proof (Z.mod_pos_bound m (2 ^ n) Pn). rewrite <- Hm1 in Ed. nia. }
      rewrite (Hrx Hex). lia. }
    unfold scaled, C in *.
    replace (ec + 1074) with ((ec - e1) + (e1 + 1074)) by lia.
    rewrite (Z.pow_add_r 2 (ec - e1)), Z.mul_assoc by lia.
    apply Z.mul_le_mono_nonneg_r; [|exact Hm2C].
    pose proof (pow2_pos (e1 + 1074) ltac:(lia)). lia. }
  assert (Hm2pos : 0 <= m2) by lia.
  set (n2 := fexp prec emax (Zdigits2 m2 + e1) - e1).
  assert (Hf2 : fexp prec emax (Zdigits2 m2 + e1) <= ec).
  { rewrite fexp_eq. apply Z.max_lub; [|lia].
    destruct (Z.eq_dec m2 0) as [->|Hnz]; [cbn; lia|].
    pose proof (Zdigits2_lower m2 ltac:(lia)) as Hlow.
    unfold scaled in Hm2.
    pose proof (pow2_pos (e1 + 1074) ltac:(lia)) as Pe1.
    pose proof (pow2_pos (ec + 1074) ltac:(lia)) as Pec1.
    assert (2 ^ (Zdigits2 m2 - 1) * 2 ^ (e1 + 1074) < 2 ^ 53 * 2 ^ (ec + 1074)) as Hc.
    { apply Z.le_lt_trans with (m2 * 2 ^ (e1 + 1074)).
      - apply Z.mul_le_mono_nonneg_r; lia.
      - apply Z.le_lt_trans with (1 := Hm2). apply Z.mul_lt_mono_pos_r; lia. }
    pose proof (Zdigits2_nonneg m2).
    assert (Hd1 : 1 <= Zdigits2 m2).
    { destruct m2; cbn in *; lia. }
    rewrite <- !Z.pow_add_r in Hc by lia.
    apply Z.pow_lt_mono_r_iff in Hc; lia. }
  assert (H3 : exists mrs3 e3,
             shr (shr_record_of_loc m2 loc_Exact) e1 n2 = (mrs3, e3)
             /\ 0 <= shr_m mrs3 /\ -1074 <= e3 <= ec
             /\ scaled (shr_m mrs3) e3 <= scaled (Zpos mc) ec).
  { destruct (Z_le_gt_dec n2 0) as [Hn2|Hn2].
    - rewrite shr_nonpos by assumption. do 2 eexists. split; [reflexivity|].
      cbn [shr_record_of_loc shr_m]. split; [lia|]. split; [lia|exact Hm2].
    - pose proof (shr_spec m2 loc_Exact e1 n2 Hm2pos ltac:(lia)) as H2.
      destruct (shr (shr_record_of_loc m2 loc_Exact) e1 n2) as [mrs3 e3].
      destruct H2 as (Hm3 & He3 & _).
      do 2 eexists. split; [reflexivity|].
      pose proof (pow2_pos n2 ltac:(lia)) as Pn2.
      assert (0 <= shr_m mrs3) by (rewrite Hm3; apply Z.div_pos; lia).
      split; [assumption|]. split; [unfold n2 in He3; lia|].
      apply Z.le_trans with (2 := Hm2). rewrite He3, Hm3.
      rewrite scaled_shift by lia. unfold scaled.
      pose proof (div_pow2_mul_le m2 n2 Hm2pos ltac:(lia)).
      pose proof (pow2_pos (e1 + 1074) ltac:(lia)). nia. }
  destruct H3 as (mrs3 & e3 & -> & Hm3 & He3 & Hs3).
  destruct (shr_m mrs3) as [|m3|m3] eqn:Em3; [left; reflexivity| |lia].
  right. exists m3, e3.
  replace (e3 <=? emax - prec) with true
    by (symmetry; apply Z.leb_le; change (emax - prec) with 971; lia).
  split; [reflexivity|]. split; [lia|exact Hs3].
Qed.

(** ** Multiplication *)

Lemma Zdigits2_mul_ge mx my :
  Zpos (digits2_pos my) <= Zpos (digits2_pos (mx * my)).
Proof.
  pose proof (Zdigits2_lower (Zpos my) ltac:(lia)) as L. cbn [Zdigits2] in L.
  pose proof (Zdigits2_upper (Zpos (mx * my)) ltac:(lia)) as U. cbn [Zdigits2] in U.
  assert (Zpos my <= Zpos (mx * my)) by (rewrite Pos2Z.inj_mul; nia).
  assert (H2 : 2 ^ (Zpos (digits2_pos my) - 1) < 2 ^ Zpos (digits2_pos (mx * my))) by lia.
  apply Z.pow_lt_mono_r_iff in H2; lia.
Qed.

Lemma SFmul_upper x y mc ec :
  valid_binary x = true -> valid_binary y = true -> finite_sf x -> finite_sf y ->
  Zpos (digits2_pos mc) <= 53 -> -1074 <= ec <= 971 ->
  mag x * mag y <= scaled (Zpos mc) ec * 2 ^ 1074 ->
  let r := SFmul prec emax x y in
  finite_sf r /\ sign_sf r = xorb (sign_sf x) (sign_sf y) /\ mag r <= scaled (Zpos mc) ec.
Proof.
  intros Vx Vy Fx Fy Hdc Hec Hle. cbv zeta.
  pose proof (scaled_pos mc ec ltac:(lia)) as Pc.
  destruct x as [sx|sx| |sx mx ex]; try contradiction;
    destruct y as [sy|sy| |sy my ey]; try contradiction;
    cbn [SFmul finite_sf sign_sf mag]; try (repeat split; lia).
  cbn [valid_binary] in Vx, Vy. cbn [mag] in Hle.
  destruct (bounded_facts _ _ Vx) as (Hex & Hdx & Hnx).
  destruct (bounded_facts _ _ Vy) as (Hey & Hdy & Hny).
  assert (Hs : scaled_by 2148 (Zpos (mx * my)) (ex + ey)
               = scaled (Zpos mx) ex * scaled (Zpos my) ey).
  { unfold scaled_by, scaled. rewrite Pos2Z.inj_mul.
    replace (ex + ey + 2148) with ((ex + 1074) + (ey + 1074)) by lia.
    rewrite Z.pow_add_r by lia. ring. }
  assert (Hb : scaled_by 2148 (Zpos mc) ec = scaled (Zpos mc) ec * 2 ^ 1074).
  { rewrite scaled_by_scaled by lia. reflexivity. }
  assert (Hfe : ex + ey <= fexp prec emax (Zdigits2 (Zpos (mx * my)) + (ex + ey))).
  { rewrite fexp_eq. cbn [Zdigits2].
    destruct (Z_le_gt_dec (ex + ey) (-1074)) as [|G]; [lia|].
    assert (53 <= Zpos (digits2_pos (mx * my))); [|lia].
    destruct (Z_le_gt_dec ex (-1074)).
    + rewrite <- (Hny ltac:(lia)). apply Zdigits2_mul_ge.
    + rewrite <- (Hnx ltac:(lia)). rewrite Pos.mul_comm. apply Zdigits2_mul_ge. }
  assert (Hle' : scaled_by 2148 (Zpos (mx * my)) (ex + ey) <= scaled_by 2148 (Zpos mc) ec)
    by (rewrite Hs, Hb; exact Hle).
  destruct (binary_round_aux_upper_by 2148 (xorb sx sy) (Zpos (mx * my)) (ex + ey)
              loc_Exact mc ec ltac:(lia) ltac:(lia) ltac:(lia) Hfe Hdc Hec Hle'
              ltac:(congruence))
    as [->|(m3 & e3 & -> & He3 & Hs3)].
  - cbn [finite_sf sign_sf mag]. repeat split. lia.
  - cbn [finite_sf sign_sf mag]. repeat split. exact Hs3.
Qed.

Lemma fmul_upper x y b mb eb :
  finite_sf (Prim2SF x) -> finite_sf (Prim2SF y) -> is_bound b mb eb ->
  fmag x * fmag y <= fmag b * 2 ^ 1074 ->
  let r := Prim2SF (x * y) in
  finite_sf r /\ sign_sf r = xorb (sign_sf (Prim2SF x)) (sign_sf (Prim2SF y))
  /\ mag r <= fmag b.
Proof.
  intros Fx Fy Hb Hle. cbv zeta. rewrite mul_spec. unfold SF64mul.
  rewrite (is_bound_fmag b mb eb Hb) in *.
  destruct Hb as [_ Vb]. destruct (bounded_facts _ _ Vb) as (Heb & Hdb & _).
  apply SFmul_upper; try assumption; apply Prim2SF_valid.
Qed.

(** ** The channel drawn from a random Number *)

Lemma bound_below_1 : is_bound 0x1.fffffffffffffp-1%float (2 ^ 53 - 1) (-53).
Proof. split; reflexivity. Qed.

Lemma bound_below_256 : is_bound 0x1.fffffffffffffp+7%float (2 ^ 53 - 1) (-45).
Proof. split; reflexivity. Qed.

Lemma bound_256 : is_bound 256%float (2 ^ 52) (-44).
Proof. split; reflexivity. Qed.

(** A binary64 number below 1 is at most the largest one below 1. *)
Lemma mag_below_1 m e :
  bounded prec emax m e = true ->
  scaled (Zpos m) e < 2 ^ 1074 -> scaled (Zpos m) e <= (2 ^ 53 - 1) * 2 ^ 1021.
Proof.
  intros Hb Hlt. destruct (bounded_facts _ _ Hb) as (He & _).
  destruct (bounded_mantissa _ _ Hb) as (Hm & _).
  unfold scaled in *.
  destruct (Z_le_gt_dec (-53) e) as [G|G].
  - assert (He0 : e < 0).
    { destruct (Z_le_gt_dec 0 e); [exfalso|lia].
      assert (2 ^ 1074 <= 2 ^ (e + 1074)) by (apply Z.pow_le_mono_r; lia).
      pose proof (pow2_pos (e + 1074) ltac:(lia)).
      remember (2 ^ 1074) as T. remember (2 ^ (e + 1074)) as S. nia. }
    replace 1074 with ((- e) + (e + 1074)) in Hlt at 2 by lia.
    rewrite (Z.pow_add_r 2 (- e)) in Hlt by lia.
    pose proof (pow2_pos (e + 1074) ltac:(lia)) as P.
    assert (Hm' : Zpos m < 2 ^ (- e)).
    { apply (Z.mul_lt_mono_pos_r (2 ^ (e + 1074))); assumption. }
    assert (Hp : 2 ^ 1021 <= 2 ^ (e + 1074)) by (apply Z.pow_le_mono_r; lia).
    assert (E : (2 ^ 53 - 1) * 2 ^ 1021 = 2 ^ 1074 - 2 ^ 1021).
    { replace 1074 with (53 + 1021) by lia. rewrite (Z.pow_add_r 2 53) by lia. ring. }
    rewrite E.
    assert (E2 : 2 ^ 1074 = 2 ^ (- e) * 2 ^ (e + 1074)).
    { rewrite <- Z.pow_add_r by lia. f_equal. lia. }
    rewrite E2.
    remember (2 ^ (e + 1074)) as S. remember (2 ^ (- e)) as A. remember (2 ^ 1021) as B.
    clear HeqS HeqA HeqB E E2 Hlt. nia.
  - assert (Hp : 2 ^ (e + 1074) <= 2 ^ 1021) by (apply Z.pow_le_mono_r; lia).
    pose proof (pow2_pos (e + 1074) ltac:(lia)) as P.
    remember (2 ^ (e + 1074)) as S. remember (2 ^ 1021) as B. remember (2 ^ 53) as A.
    clear HeqS HeqB HeqA Hlt. nia.
Qed.

Lemma fmag_below_1 u :
  (0 <=? u)%float = true -> (u <? 1)%float = true ->
  nn u /\ fmag u <= fmag 0x1.fffffffffffffp-1%float.
Proof.
  intros U0 U1.
  pose proof (is_bound_nn _ _ _ bound_1) as N1.
  assert (Nu : nn u) by (apply (nn_between u 1%float); auto).
  split; [exact Nu|].
  rewrite (ltb_fmag u 1%float Nu N1) in U1. apply Z.ltb_lt in U1.
  rewrite (is_bound_fmag _ _ _ bound_1) in U1.
  rewrite (is_bound_fmag _ _ _ bound_below_1).
  replace (scaled (2 ^ 52) (-52)) with (2 ^ 1074) in U1
    by (unfold scaled; change (2 ^ 52) with (2 ^ 52); rewrite <- Z.pow_add_r by lia;
        reflexivity).
  replace (scaled (Zpos (2 ^ 53 - 1)) (-53)) with ((2 ^ 53 - 1) * 2 ^ 1021)
    by (unfold scaled; reflexivity).
  unfold fmag in *. pose proof (Prim2SF_valid u) as V.
  destruct (Prim2SF u) as [s|s| |s m e]; cbn [mag] in *.
  - pose proof (pow2_pos 1021 ltac:(lia)). lia.
  - pose proof (pow2_pos 1021 ltac:(lia)). lia.
  - pose proof (pow2_pos 1021 ltac:(lia)). lia.
  - apply mag_below_1; assumption.
Qed.

Lemma floor_below x B :
  nonneg_sf x -> finite_sf x -> mag x < (B + 1) * 2 ^ 1074 -> 0 <= B ->
  (forall m e, x = S754_finite false m e -> -1074 <= e) ->
  match x with
  | S754_zero _ => Some 0
  | S754_finite s m e =>
      let n := if s then Zneg m else Zpos m in
      Some (if 0 <=? e then n * 2 ^ e else n / 2 ^ (- e))
  | S754_infinity _ | S754_nan => None
  end = Some 0
  \/ exists z, match x with
       | S754_zero _ => Some 0
       | S754_finite s m e =>
           let n := if s then Zneg m else Zpos m in
           Some (if 0 <=? e then n * 2 ^ e else n / 2 ^ (- e))
       | S754_infinity _ | S754_nan => None
       end = Some z /\ 0 <= z <= B.
Proof.
  intros N F Hlt HB He.
  destruct x as [s|s| |[] m e]; try contradiction; [left; reflexivity|].
  right. cbn [mag] in Hlt. unfold scaled in Hlt. cbv zeta.
  specialize (He m e eq_refl).
  pose proof (pow2_pos 1074 ltac:(lia)) as PT.
  eexists. split; [reflexivity|].
  destruct (Z.leb_spec 0 e) as [G|G].
  - pose proof (pow2_pos e G) as P. split; [lia|].
    rewrite Z.pow_add_r in Hlt by lia.
    remember (2 ^ 1074) as T. remember (2 ^ e) as S. clear HeqT HeqS.
    assert (Zpos m * S < B + 1); [|lia].
    apply (Z.mul_lt_mono_pos_r T); [lia|]. lia.
  - pose proof (pow2_pos (- e) ltac:(lia)) as P.
    split; [apply Z.div_pos; lia|].
    pose proof (Z.mul_div_le (Zpos m) (2 ^ (- e)) P) as D.
    assert (E : 2 ^ 1074 = 2 ^ (- e) * 2 ^ (e + 1074)).
    { rewrite <- Z.pow_add_r by lia. f_equal. lia. }
    pose proof (pow2_pos (e + 1074) ltac:(lia)) as P2.
    rewrite E in Hlt.
    remember (2 ^ (e + 1074)) as S. remember (2 ^ (- e)) as A.
    remember (Zpos m / A) as q. clear Heqq HeqS HeqA E.
    assert (q * A < (B + 1) * A); [|nia].
    apply Z.le_lt_trans with (Zpos m); [lia|].
    apply (Z.mul_lt_mono_pos_r S); [lia|]. lia.
Qed.

Lemma random_channel_byte u :
  (0 <=? u)%float = true -> (u <? 1)%float = true ->
  exists z, random_channel u = Some z /\ 0 <= z <= 255.
Proof.
  intros U0 U1. destruct (fmag_below_1 u U0 U1) as (Nu & Hu).
  assert (Fu : finite_sf (Prim2SF u)).
  { unfold nn in Nu. destruct (Prim2SF u) as [s|s| |[] m e]; try contradiction; exact I. }
  assert (F256 : finite_sf (Prim2SF 256%float)) by exact I.
  assert (Hle : fmag u * fmag 256%float <= fmag 0x1.fffffffffffffp+7%float * 2 ^ 1074).
  { assert (E1 : fmag 256%float = 256 * 2 ^ 1074) by (vm_compute; reflexivity).
    assert (E2 : fmag 0x1.fffffffffffffp+7%float = (2 ^ 53 - 1) * (256 * 2 ^ 1021))
      by (vm_compute; reflexivity).
    assert (E3 : fmag 0x1.fffffffffffffp-1%float = (2 ^ 53 - 1) * 2 ^ 1021)
      by (vm_compute; reflexivity).
    rewrite E1, E2. rewrite E3 in Hu.
    pose proof (fmag_nonneg u) as P. pose proof (pow2_pos 1074 ltac:(lia)) as PT.
    remember (2 ^ 1074) as T. remember (2 ^ 1021) as S. remember (fmag u) as a.
    remember (2 ^ 53 - 1) as A. clear HeqT HeqS Heqa HeqA E1 E2 E3.
    replace (a * (256 * T)) with (a * 256 * T) by ring.
    apply Z.mul_le_mono_nonneg_r; [lia|]. lia. }
  destruct (fmul_upper u 256%float _ _ _ Fu F256 bound_below_256 Hle) as (Fr & Sr & Mr).
  unfold random_channel, Math_floor.
  pose proof (Prim2SF_valid (u * 256)%float) as V.
  assert (Nx : nonneg_sf (Prim2SF (u * 256)%float)).
  { unfold nn in Nu. rewrite mul_spec in *.
    change (Prim2SF 256%float) with (S754_finite false (2 ^ 52) (-44)) in *.
    destruct (Prim2SF u) as [s|s| |[] m' e']; try contradiction; [exact I|].
    cbn [sign_sf xorb] in Sr.
    destruct (SF64mul (S754_finite false m' e') (S754_finite false (2 ^ 52) (-44)))
      as [s|s| |s m e]; try contradiction; [exact I|].
    cbn [sign_sf] in Sr. subst s. exact I. }
  set (x := Prim2SF (u * 256)%float) in *.
  assert (Hlt : mag x < (255 + 1) * 2 ^ 1074).
  { apply Z.le_lt_trans with (1 := Mr).
    assert (E2 : fmag 0x1.fffffffffffffp+7%float = (2 ^ 53 - 1) * 2 ^ 1029)
      by (vm_compute; reflexivity).
    assert (E4 : 2 ^ 1074 = 2 ^ 45 * 2 ^ 1029)
      by (rewrite <- Z.pow_add_r by lia; reflexivity).
    rewrite E2, E4. pose proof (pow2_pos 1029 ltac:(lia)).
    remember (2 ^ 1029) as S. clear HeqS E2 E4.
    rewrite Z.mul_assoc. apply Z.mul_lt_mono_pos_r; [assumption|]. vm_compute. reflexivity. }
  destruct (floor_below x 255 Nx Fr Hlt ltac:(lia)) as [H|(z & H & Hz)].
  - intros m e E. rewrite E in V. cbn [valid_binary] in V.
    apply (bounded_facts _ _ V).
  - exists 0. split; [exact H|lia].
  - exists z. split; [exact H|exact Hz].
Qed.

Lemma random_channel_onto z :
  0 <= z <= 255 ->
  exists u, (0 <=? u)%float = true /\ (u <? 1)%float = true /\ random_channel u = Some z.
Proof.
  intros Hz.
  pose proof (forall_range random_channel_ok 256 ltac:(vm_compute; reflexivity) z
                ltac:(lia)) as H.
  unfold random_channel_ok in H. cbv zeta in H.
  apply andb_prop in H. destruct H as [H H3]. apply andb_prop in H. destruct H as [H1 H2].
  exists (Number_of_Z z / 256)%float. split; [exact H1|]. split; [exact H2|].
  destruct (random_channel (Number_of_Z z / 256)%float) as [z'|]; [|discriminate].
  apply Z.eqb_eq in H3. congruence.
Qed.


(** ** Addition *)

Lemma SFadd_upper x y mc ec :
  valid_binary x = true -> valid_binary y = true -> finite_sf x -> finite_sf y ->
  Zpos (digits2_pos mc) <= 53 -> -1074 <= ec <= 971 ->
  mag x + mag y <= scaled (Zpos mc) ec ->
  let r := SFadd prec emax x y in
  finite_sf r /\ mag r <= scaled (Zpos mc) ec
  /\ (sign_sf x = false -> nonneg_sf y -> sign_sf r = false).
Proof.
  intros Vx Vy Fx Fy Hdc Hec Hle. cbv zeta.
  pose proof (scaled_pos mc ec ltac:(lia)) as Pc.
  pose proof (mag_nonneg x Vx) as Px. pose proof (mag_nonneg y Vy) as Py.
  destruct x as [sx|sx| |sx mx ex]; try contradiction;
    destruct y as [sy|sy| |sy my ey]; try contradiction; cbn [SFadd].
  - destruct sx, sy; cbn [finite_sf mag nonneg_sf sign_sf]; repeat split;
      try lia; congruence.
  - cbn [finite_sf mag nonneg_sf sign_sf] in *. repeat split; try lia.
    intros _ H. destruct sy; [contradiction|reflexivity].
  - cbn [finite_sf mag nonneg_sf sign_sf] in *. repeat split; try lia.
    intros H _; exact H.
  - cbn [valid_binary mag] in *.
    destruct (bounded_facts _ _ Vx) as ((Hex & _) & _).
    destruct (bounded_facts _ _ Vy) as ((Hey & _) & _).
    set (ez := Z.min ex ey).
    pose proof (shl_align_value mx ex ez ltac:(unfold ez; lia)) as Ax.
    pose proof (shl_align_value my ey ez ltac:(unfold ez; lia)) as Ay.
    set (ax := Zpos (fst (shl_align mx ex ez))) in *.
    set (ay := Zpos (fst (shl_align my ey ez))) in *.
    assert (Sx : ax * 2 ^ (ez + 1074) = scaled (Zpos mx) ex).
    { rewrite Ax. unfold scaled. replace (ex + 1074) with ((ex - ez) + (ez + 1074)) by lia.
      rewrite (Z.pow_add_r 2 (ex - ez)) by (unfold ez; lia). ring. }
    assert (Sy : ay * 2 ^ (ez + 1074) = scaled (Zpos my) ey).
    { rewrite Ay. unfold scaled. replace (ey + 1074) with ((ey - ez) + (ez + 1074)) by lia.
      rewrite (Z.pow_add_r 2 (ey - ez)) by (unfold ez; lia). ring. }
    pose proof (pow2_pos (ez + 1074) ltac:(unfold ez; lia)) as Pz.
    assert (Hax : 0 < ax) by (unfold ax; lia).
    assert (Hay : 0 < ay) by (unfold ay; lia).
    set (M := cond_Zopp sx ax + cond_Zopp sy ay).
    assert (HM : Z.abs M <= ax + ay).
    { unfold M, cond_Zopp. destruct sx, sy; lia. }
    assert (Hb : Z.abs M * 2 ^ (ez + 1074) <= scaled (Zpos mc) ec).
    { apply Z.le_trans with ((ax + ay) * 2 ^ (ez + 1074)).
      - apply Z.mul_le_mono_nonneg_r; lia.
      - rewrite Z.mul_add_distr_r, Sx, Sy. exact Hle. }
    destruct (binary_normalize_upper M ez mc ec ltac:(unfold ez; lia) Hdc Hec Hb)
      as (Fr & Mr & Sr & _).
    split; [exact Fr|]. split; [exact Mr|].
    cbn [nonneg_sf sign_sf]. intros Nx Ny. destruct sx, sy; try contradiction;
      try discriminate.
    destruct (sign_sf (binary_normalize prec emax M ez false)); [|reflexivity].
    specialize (Sr eq_refl). unfold M, cond_Zopp in Sr. lia.
Qed.

Lemma within_mono k k' x : k <= k' -> within k x -> within k' x.
Proof.
  intros H [F M]. split; [exact F|].
  pose proof (pow2_pos 1074 ltac:(lia)).
  apply Z.le_trans with (1 := M). apply Z.mul_le_mono_nonneg_r; lia.
Qed.

Lemma digits_lt_53 p : Zpos p < 2 ^ 53 -> Zpos (digits2_pos p) <= 53.
Proof. intros H. apply digits2_pos_le; [lia|exact H]. Qed.

Lemma fadd_within a b x y :
  0 <= a -> 0 <= b -> 0 < a + b < 2 ^ 53 ->
  within a x -> within b y ->
  within (a + b) (x + y)%float /\ (pos0 x -> nn y -> pos0 (x + y)%float).
Proof.
  intros Ha Hb Hab [Fx Mx] [Fy My]. unfold within, nn, pos0, fmag in *. rewrite add_spec.
  destruct (a + b) as [|p|p] eqn:Ep; try lia.
  assert (Hle : mag (Prim2SF x) + mag (Prim2SF y) <= scaled (Zpos p) 0).
  { unfold scaled. change (0 + 1074) with 1074. rewrite <- Ep.
    rewrite Z.mul_add_distr_r. lia. }
  destruct (SFadd_upper (Prim2SF x) (Prim2SF y) p 0 (Prim2SF_valid x) (Prim2SF_valid y)
              Fx Fy (digits_lt_53 p ltac:(lia)) ltac:(lia) Hle) as (Fr & Mr & Nr).
  split; [split; [exact Fr|]|].
  - unfold scaled in Mr. change (0 + 1074) with 1074 in Mr. exact Mr.
  - intros [_ Sx] Ny. split; [exact Fr|apply Nr; assumption].
Qed.

(** ** Integers as Numbers *)

Lemma Number_of_Z_bound z :
  0 < z < 2 ^ 53 ->
  exists m e, is_bound (Number_of_Z z) m e /\ e <= 0
    /\ fmag (Number_of_Z z) = z * 2 ^ 1074.
Proof.
  intros Hz. destruct z as [|p|p]; try lia.
  destruct (binary_normalize_small p ltac:(lia)) as (m & e & Hn & Hb & He & Hm).
  exists m, e. unfold is_bound, fmag, Number_of_Z.
  rewrite Hn, Prim2SF_SF2Prim by exact Hb.
  split; [split; [reflexivity|exact Hb]|]. split; [exact He|].
  cbn [mag]. unfold scaled. rewrite Hm.
  destruct (bounded_facts _ _ Hb) as ((Hlo & _) & _).
  replace 1074 with ((- e) + (e + 1074)) at 2 by lia.
  rewrite (Z.pow_add_r 2 (- e)) by lia. ring.
Qed.

Lemma Number_of_Z_within z :
  0 <= z < 2 ^ 53 -> within z (Number_of_Z z) /\ nn (Number_of_Z z).
Proof.
  intros Hz. destruct (Z.eq_dec z 0) as [->|Hnz].
  - split; [split|]; [exact I|vm_compute; discriminate|exact I].
  - destruct (Number_of_Z_bound z ltac:(lia)) as (m & e & Hb & He & Hm).
    split; [split|].
    + destruct Hb as [Hb _]. rewrite Hb. exact I.
    + rewrite Hm. lia.
    + apply (is_bound_nn _ _ _ Hb).
Qed.

(** ** Division by a count, multiplication by 100 *)

Lemma fmag_1 : fmag 1%float = 2 ^ 1074.
Proof. vm_compute. reflexivity. Qed.

Lemma fmag_100 : fmag 100%float = 100 * 2 ^ 1074.
Proof. vm_compute. reflexivity. Qed.

Lemma fmag_255 : fmag 255%float = 255 * 2 ^ 1074.
Proof. vm_compute. reflexivity. Qed.

Lemma fdiv_within k x :
  0 < k < 2 ^ 53 -> within k x ->
  let r := (x / Number_of_Z k)%float in
  within 1 r /\ sign_sf (Prim2SF r) = sign_sf (Prim2SF x).
Proof.
  intros Hk [Fx Mx]. cbv zeta.
  destruct (Number_of_Z_bound k Hk) as (m & e & Hb & He & Hm).
  destruct (fdiv_upper x (Number_of_Z k) m e Fx Hb He ltac:(lia)) as (Fr & Sr & Mr).
  split; [split; [exact Fr|]|exact Sr].
  unfold fmag. apply Z.le_trans with (1 := Mr).
  change (scaled (2 ^ 52) (-52)) with (2 ^ 52 * 2 ^ (-52 + 1074)).
  rewrite <- Z.pow_add_r by lia. change (52 + (-52 + 1074)) with 1074. lia.
Qed.

Lemma fmul_100_within x :
  within 1 x ->
  let r := (x * 100)%float in
  within 100 r /\ sign_sf (Prim2SF r) = sign_sf (Prim2SF x).
Proof.
  intros [Fx Mx]. cbv zeta.
  assert (F100 : finite_sf (Prim2SF 100%float)) by exact I.
  assert (Hle : fmag x * fmag 100%float <= fmag 100%float * 2 ^ 1074).
  { pose proof (fmag_nonneg 100%float). rewrite Z.mul_comm.
    apply Z.mul_le_mono_nonneg_l; lia. }
  destruct (fmul_upper x 100%float _ _ _ Fx F100 bound_100 Hle) as (Fr & Sr & Mr).
  split; [split; [exact Fr|]|].
  - unfold fmag at 1. rewrite <- fmag_100. exact Mr.
  - rewrite Sr. change (sign_sf (Prim2SF 100%float)) with false. apply xorb_false_r.
Qed.

(** ** Square root of a number in [0, 1] *)

Lemma SFsqrt_upper mx ex :
  bounded prec emax mx ex = true -> scaled (Zpos mx) ex <= 2 ^ 1074 ->
  let r := SFsqrt prec emax (S754_finite false mx ex) in
  finite_sf r /\ sign_sf r = false /\ mag r <= 2 ^ 1074.
Proof.
  intros Hb Hle. cbv zeta. cbn [SFsqrt]. unfold SFsqrt_core_binary.
  destruct (bounded_facts _ _ Hb) as ((Hlo & Hhi) & Hd & _).
  set (d := Zdigits2 (Zpos mx)).
  set (e' := Z.min (fexp prec emax (Z.div2 (d + ex + 1))) (Z.div2 ex)).
  set (s := ex - 2 * e').
  pose proof (pow2_pos (ex + 1074) ltac:(lia)) as Pex.
  assert (Hex0 : ex <= 0).
  { destruct (Z_le_gt_dec ex 0) as [|G]; [assumption|exfalso].
    unfold scaled in Hle.
    assert (2 ^ 1074 < 2 ^ (ex + 1074)) by (apply Z.pow_lt_mono_r; lia).
    remember (2 ^ 1074) as T. remember (2 ^ (ex + 1074)) as S. nia. }
  assert (Hdiv2 : forall z, 2 * Z.div2 z <= z <= 2 * Z.div2 z + 1).
  { intros z. rewrite Z.div2_div. pose proof (Z.div_mod z 2 ltac:(lia)).
    pose proof (Z.mod_pos_bound z 2 ltac:(lia)). lia. }
  pose proof (Hdiv2 ex) as Hd2. pose proof (Hdiv2 (d + ex + 1)) as Hd3.
  assert (Hf : -1074 <= fexp prec emax (Z.div2 (d + ex + 1)))
    by (rewrite fexp_eq; lia).
  assert (He'lo : -1074 <= e') by (unfold e'; lia).
  assert (He'0 : e' <= 0) by (unfold e'; lia).
  assert (Hs : 0 <= s) by (unfold s, e'; lia).
  set (m' := match s with
             | 0 => Zpos mx
             | Zpos _ => Z.shiftl (Zpos mx) s
             | Zneg _ => 0
             end).
  assert (Hm' : m' = Zpos mx * 2 ^ s).
  { unfold m'. destruct s as [|p|p] eqn:Es; [cbn; lia| |lia].
    rewrite Z.shiftl_mul_pow2 by lia. reflexivity. }
  clearbody m'.
  pose proof (pow2_pos s Hs) as Ps.
  assert (Hm'pos : 0 <= m') by (rewrite Hm'; lia).
  pose proof (Z.sqrtrem_spec m' Hm'pos) as Hq.
  destruct (Z.sqrtrem m') as [q r]. destruct Hq as (Hq & Hr).
  assert (Hq0 : 0 <= q) by lia.
  set (l := if r =? 0 then loc_Exact else loc_Inexact (if r <=? q then Lt else Gt)).
  (* the mantissa is at most 2^(-ex) *)
  assert (Hmx : Zpos mx <= 2 ^ (- ex)).
  { unfold scaled in Hle.
    replace (2 ^ 1074) with (2 ^ (- ex) * 2 ^ (ex + 1074)) in Hle
      by (rewrite <- Z.pow_add_r by lia; f_equal; lia).
    apply (Z.mul_le_mono_pos_r _ _ (2 ^ (ex + 1074))); assumption. }
  pose proof (pow2_pos (- e') ltac:(lia)) as Pe'.
  assert (HmA : m' <= 2 ^ (- e') * 2 ^ (- e')).
  { rewrite Hm', <- Z.pow_add_r by lia.
    replace (- e' + - e') with (- ex + s) by (unfold s; lia).
    rewrite Z.pow_add_r by lia. apply Z.mul_le_mono_nonneg_r; lia. }
  assert (HqA : q <= 2 ^ (- e')).
  { remember (2 ^ (- e')) as A. clear HeqA. nia. }
  assert (HqA' : r <> 0 -> q < 2 ^ (- e')).
  { intros Hr0. remember (2 ^ (- e')) as A. clear HeqA. nia. }
  pose proof (pow2_pos (e' + 1074) ltac:(lia)) as Pe1.
  assert (HT : 2 ^ 1074 = 2 ^ (- e') * 2 ^ (e' + 1074))
    by (rewrite <- Z.pow_add_r by lia; f_equal; lia).
  assert (Hone : scaled (Zpos (2 ^ 52)) (-52) = 2 ^ 1074).
  { unfold scaled. change (Zpos (2 ^ 52)) with (2 ^ 52).
    rewrite <- Z.pow_add_r by lia. reflexivity. }
  (* the digits of the root *)
  assert (Hdig : e' <= fexp prec emax (Zdigits2 q + e')).
  { apply Z.le_trans with (fexp prec emax (Z.div2 (d + ex + 1)));
      [unfold e'; lia|]. apply fexp_mono.
    set (t := Z.div2 (d + ex + 1) - e' - 1).
    assert (t < Zdigits2 q); [|unfold t in *; lia].
    pose proof (Zdigits2_nonneg q).
    destruct (Z_lt_le_dec t 0) as [|Ht]; [lia|].
    pose proof (Zdigits2_lower (Zpos mx) ltac:(lia)) as Hlow. fold d in Hlow.
    assert (Hd1 : 1 <= d) by (unfold d; cbn; lia).
    assert (H2t : 2 ^ t * 2 ^ t <= m').
    { rewrite Hm', <- Z.pow_add_r by lia.
      apply Z.le_trans with (2 ^ (d - 1) * 2 ^ s).
      - rewrite <- Z.pow_add_r by lia. apply Z.pow_le_mono_r; [lia|].
        unfold t, s. lia.
      - apply Z.mul_le_mono_nonneg_r; lia. }
    pose proof (pow2_pos t Ht) as Pt.
    assert (Hqt : 2 ^ t <= q).
    { remember (2 ^ t) as B. clear HeqB. nia. }
    pose proof (Zdigits2_upper q Hq0) as Hup.
    assert (Hlt : 2 ^ t < 2 ^ Zdigits2 q) by lia.
    apply Z.pow_lt_mono_r_iff in Hlt; lia. }
  assert (Hle1 : scaled q e' <= scaled (Zpos (2 ^ 52)) (-52)).
  { rewrite Hone, HT. unfold scaled. apply Z.mul_le_mono_nonneg_r; lia. }
  assert (Hlt1 : l <> loc_Exact -> scaled q e' < scaled (Zpos (2 ^ 52)) (-52)).
  { intros Hl. rewrite Hone, HT. unfold scaled.
    apply Z.mul_lt_mono_pos_r; [assumption|]. apply HqA'.
    intros ->. apply Hl. reflexivity. }
  destruct (binary_round_aux_upper false q e' l (2 ^ 52) (-52) Hq0 He'lo Hdig
              ltac:(vm_compute; discriminate) ltac:(lia) Hle1 Hlt1)
    as [E|(m3 & e3 & E & He3 & Hs3)].
  - fold l. rewrite E. cbn [finite_sf sign_sf mag]. repeat split.
    pose proof (pow2_pos 1074 ltac:(lia)). lia.
  - fold l. rewrite E. cbn [finite_sf sign_sf mag]. repeat split.
    rewrite <- Hone. exact Hs3.
Qed.

Lemma fsqrt_within x :
  pos0 x -> within 1 x -> pos0 (sqrt x) /\ within 1 (sqrt x).
Proof.
  intros [Fx Sx] [_ Mx]. unfold pos0, within, fmag in *. rewrite sqrt_spec.
  unfold SF64sqrt. pose proof (Prim2SF_valid x) as V.
  rewrite Z.mul_1_l in *.
  destruct (Prim2SF x) as [s|s| |s m e]; try contradiction.
  - cbn [sign_sf] in Sx. subst s. cbn [SFsqrt finite_sf sign_sf mag].
    repeat split. exact Mx.
  - cbn [sign_sf] in Sx. subst s. cbn [valid_binary mag] in *.
    destruct (SFsqrt_upper m e V Mx) as (F & S & M). repeat split; assumption.
Qed.


(** ** The ranges of the score *)

Lemma bound_255 : is_bound 255%float 8972014882652160 (-45).
Proof. split; reflexivity. Qed.

Section Errors.
Local Open Scope float_scope.

Lemma within_leb_1 x :
  (-1 <=? x) = true -> (x <=? 1) = true -> within 1 x.
Proof.
  rewrite !leb_spec.
  change (Prim2SF (-1)) with (S754_finite true (2 ^ 52) (-52)).
  change (Prim2SF 1) with (S754_finite false (2 ^ 52) (-52)).
  unfold within, fmag. rewrite Z.mul_1_l. rewrite <- fmag_1.
  rewrite (is_bound_fmag _ _ _ bound_1).
  pose proof (Prim2SF_valid x) as V.
  destruct (Prim2SF x) as [s|s| |s m e]; intros H1 H2.
  - split; [exact I|]. cbn [mag]. pose proof (scaled_pos (2 ^ 52) (-52)). lia.
  - destruct s; discriminate.
  - discriminate.
  - split; [exact I|]. cbn [mag]. destruct s.
    + unfold SFleb in H1. rewrite SFcompare_neg in H1. fold (SFleb (S754_finite false m e)
        (S754_finite false (2 ^ 52) (-52))) in H1.
      rewrite SFleb_mag in H1; try assumption; try exact I; try reflexivity.
      apply Z.leb_le in H1. exact H1.
    + rewrite SFleb_mag in H2; try assumption; try exact I; try reflexivity.
      apply Z.leb_le in H2. exact H2.
Qed.

Lemma nn_within_leb_1 x :
  (0 <=? x) = true -> (x <=? 1) = true -> nn x /\ within 1 x.
Proof.
  intros H0 H1.
  assert (N : nn x) by (apply (nn_between x 1); [exact (is_bound_nn _ _ _ bound_1)|auto..]).
  split; [exact N|]. apply within_leb_1; [|exact H1].
  rewrite leb_spec in *. change (Prim2SF 0) with (S754_zero false) in H0.
  change (Prim2SF (-1)) with (S754_finite true (2 ^ 52) (-52)).
  change (Prim2SF 1) with (S754_finite false (2 ^ 52) (-52)) in H1.
  destruct (Prim2SF x) as [s|[]| |[] m e]; try discriminate; reflexivity.
Qed.

(** The normalised RGB error of two bytes and its square. *)
Lemma rgbError_within u c :
  (0 <= u <= 255)%Z -> (0 <= c <= 255)%Z ->
  let e := (Number_of_Z u - Number_of_Z c) / 255 in
  within 1 e /\ pos0 (square e) /\ within 1 (square e).
Proof.
  intros Hu Hc. cbv zeta.
  assert (P53 : (255 < 2 ^ 53)%Z) by (vm_compute; reflexivity).
  destruct (Number_of_Z_within u ltac:(lia)) as ((Fu & Mu) & Nu).
  destruct (Number_of_Z_within c ltac:(lia)) as ((Fc & Mc) & Nc).
  pose proof (fmag_nonneg (Number_of_Z u)) as Pu.
  pose proof (fmag_nonneg (Number_of_Z c)) as Pc.
  pose proof (pow2_pos 1074 ltac:(lia)) as PT.
  assert (Hd : (Z.abs (fmag (Number_of_Z u) - fmag (Number_of_Z c)) <= fmag 255%float)%Z).
  { rewrite fmag_255. remember (2 ^ 1074)%Z as T. clear HeqT. nia. }
  destruct (fsub_upper _ _ 255 _ _ Nu Nc bound_255 Hd) as (Fd & Md & _).
  destruct (fdiv_upper _ 255 _ _ Fd bound_255 ltac:(lia) Md) as (Fq & Sq & Mq).
  set (e := (Number_of_Z u - Number_of_Z c) / 255) in *.
  assert (We : within 1 e).
  { split; [exact Fq|]. unfold fmag. apply Z.le_trans with (1 := Mq).
    unfold scaled. rewrite <- Z.pow_add_r by lia. change (52 + (-52 + 1074))%Z with 1074%Z.
    lia. }
  split; [exact We|].
  destruct We as [_ Me]. rewrite Z.mul_1_l in Me.
  assert (Hle : (fmag e * fmag e <= fmag 1%float * 2 ^ 1074)%Z).
  { rewrite fmag_1. pose proof (fmag_nonneg e).
    remember (2 ^ 1074)%Z as T. clear HeqT. nia. }
  destruct (fmul_upper e e 1 _ _ Fq Fq bound_1 Hle) as (Fs & Ss & Ms).
  unfold square. split; [split; [exact Fs|]|split; [exact Fs|]].
  - rewrite Ss. apply xorb_nilpotent.
  - unfold fmag at 1. rewrite Z.mul_1_l, <- fmag_1. exact Ms.
Qed.

End Errors.

Section Loop.
Local Open Scope float_scope.

Lemma channel_steps_unfold u0 u1 u2 c0 c1 c2 uh us ul ch cs cl a0 a1 a2 b0 b1 b2 sq :
  fold_left (channel_step [u0; u1; u2] [c0; c1; c2] [uh; us; ul] [ch; cs; cl])
    [0%nat; 1%nat; 2%nat]
    {| totalRgbError := [a0; a1; a2]; totalHslError := [b0; b1; b2];
       squaredErrors := sq |}
  = {| totalRgbError :=
         [a0 + (u0 - c0) / 255; a1 + (u1 - c1) / 255; a2 + (u2 - c2) / 255];
       totalHslError :=
         [b0 + hslError 0 [uh; us; ul] [ch; cs; cl];
          b1 + (us - cs) / 100; b2 + (ul - cl) / 100];
       squaredErrors :=
         sq ++ [square ((u0 - c0) / 255); square ((u1 - c1) / 255);
                square ((u2 - c2) / 255)] |}.
Proof.
  cbn [fold_left]. unfold channel_step.
  cbn [get set nth totalRgbError totalHslError squaredErrors].
  rewrite <- !app_assoc. reflexivity.
Qed.

Lemma question_step_invariant qs inputs acc i q v k :
  nth_error qs i = Some q -> nth_error inputs i = Some v ->
  byte_channels q -> (0 <= k)%Z -> (k + 1 < 2 ^ 53)%Z ->
  score_invariant k acc ->
  exists acc', question_step qs inputs acc i = Return acc'
    /\ score_invariant (k + 1) acc'.
Proof.
  intros Hq Hv (Hr & Hg & Hb) Hk Hk1 Inv.
  destruct Inv as (a0 & a1 & a2 & b0 & b1 & b2 & Ea & Eb & A0 & A1 & A2
                   & (P0 & B0) & B1 & B2 & Hsq & Hlen).
  rewrite (question_step_unfold qs inputs acc i q v Hq Hv). cbv zeta.
  eexists. split; [reflexivity|].
  unfold userRgb.
  destruct (hexToRgb_bytes ("#" ++ or_else v "000000")) as (r & g & b & -> & Hr' & Hg' & Hb').
  cbn [map get nth].
  rewrite !rgbToHsl_hsl_spec by assumption.
  destruct (hsl_spec_range r g b Hr' Hg' Hb') as (uh & us & ul & -> & Du & Su & Lu).
  destruct (hsl_spec_range _ _ _ Hr Hg Hb) as (ch & cs & cl & -> & Dc & Sc & Lc).
  destruct acc as [ta th sq]. cbn [totalRgbError totalHslError squaredErrors] in *.
  subst ta th. rewrite channel_steps_unfold.
  destruct (rgbError_within r (Question.r q) Hr' Hr) as (E0 & Q0 & W0).
  destruct (rgbError_within g (Question.g q) Hg' Hg) as (E1 & Q1 & W1).
  destruct (rgbError_within b (Question.b q) Hb' Hb) as (E2 & Q2 & W2).
  unfold in_degrees, in_percent in *.
  apply andb_prop in Du, Dc, Su, Sc, Lu, Lc.
  destruct Du as [Du0 Du1], Dc as [Dc0 Dc1], Su as [Su0 Su1], Sc as [Sc0 Sc1],
           Lu as [Lu0 Lu1], Lc as [Lc0 Lc1].
  destruct (hue_error_range uh ch Du0 Du1 Dc0 Dc1) as (H0 & H1).
  destruct (nn_within_leb_1 _ H0 H1) as (Nh & Wh).
  destruct (linear_error_range us cs Su0 Su1 Sc0 Sc1) as ((S0 & S1) & _).
  destruct (linear_error_range ul cl Lu0 Lu1 Lc0 Lc1) as ((L0 & L1) & _).
  pose proof (within_leb_1 _ S0 S1) as Ws. pose proof (within_leb_1 _ L0 L1) as Wl.
  assert (Hadd : forall a e, within k a -> within 1 e -> within (k + 1) (a + e)).
  { intros a e Wa We. apply (fadd_within k 1 a e); try assumption; lia. }
  do 6 eexists. split; [reflexivity|]. split; [reflexivity|].
  split; [apply Hadd; assumption|]. split; [apply Hadd; assumption|].
  split; [apply Hadd; assumption|].
  split; [split|].
  - apply (fadd_within k 1 b0 _ Hk ltac:(lia) ltac:(lia) B0 Wh); assumption.
  - apply Hadd; assumption.
  - split; [apply Hadd; assumption|]. split; [apply Hadd; assumption|].
    split.
    + cbn [squaredErrors]. apply Forall_app. split; [exact Hsq|].
      repeat (apply Forall_cons; [split; assumption|]). apply Forall_nil.
    + cbn [squaredErrors]. rewrite length_app. cbn [List.length]. lia.
Qed.

Lemma for_each_invariant qs inputs n s k acc :
  (s + n <= List.length qs)%nat -> (s + n <= List.length inputs)%nat ->
  Forall byte_channels qs -> (0 <= k)%Z -> (k + Z.of_nat n < 2 ^ 53)%Z ->
  score_invariant k acc ->
  exists acc', for_each (question_step qs inputs) (seq s n) acc = Return acc'
    /\ score_invariant (k + Z.of_nat n) acc'.
Proof.
  revert s k acc. induction n as [|n IH]; intros s k acc Hq Hi Hb Hk Hn Inv.
  - exists acc. split; [reflexivity|]. rewrite Z.add_0_r. exact Inv.
  - cbn [seq for_each].
    destruct (nth_error qs s) as [q|] eqn:Eq; [|apply nth_error_None in Eq; lia].
    destruct (nth_error inputs s) as [v|] eqn:Ev; [|apply nth_error_None in Ev; lia].
    assert (Bq : byte_channels q).
    { rewrite Forall_forall in Hb. apply Hb. apply (nth_error_In _ _ Eq). }
    destruct (question_step_invariant qs inputs acc s q v k Eq Ev Bq Hk ltac:(lia) Inv)
      as (acc1 & -> & Inv1).
    cbn [bind].
    destruct (IH (S s) (k + 1)%Z acc1 ltac:(lia) ltac:(lia) Hb ltac:(lia) ltac:(lia) Inv1)
      as (acc' & -> & Inv').
    exists acc'. split; [reflexivity|].
    replace (k + Z.of_nat (S n))%Z with (k + 1 + Z.of_nat n)%Z by lia. exact Inv'.
Qed.

End Loop.

Section Report.
Local Open Scope float_scope.

Lemma sum_within l acc a :
  pos0 acc -> within a acc -> (0 <= a)%Z ->
  Forall (fun e => pos0 e /\ within 1 e) l ->
  (a + Z.of_nat (List.length l) < 2 ^ 53)%Z ->
  let s := fold_left (fun sum error => sum + error) l acc in
  pos0 s /\ within (a + Z.of_nat (List.length l)) s.
Proof.
  revert acc a. induction l as [|e l IH]; intros acc a Pa Wa Ha Hl Hn; cbv zeta.
  - cbn [fold_left List.length]. rewrite Z.add_0_r. split; assumption.
  - inversion Hl as [|? ? [Pe We] Hl']; subst. cbn [fold_left List.length] in *.
    destruct (fadd_within a 1 acc e Ha ltac:(lia) ltac:(lia) Wa We) as (W & P).
    specialize (P Pa (pos0_nn e Pe)).
    destruct (IH (acc + e) (a + 1)%Z P W ltac:(lia) Hl' ltac:(lia)) as (P' & W').
    split; [exact P'|].
    replace (a + Z.of_nat (S (List.length l)))%Z
      with (a + 1 + Z.of_nat (List.length l))%Z by lia.
    exact W'.
Qed.

Lemma within_100_signed x : within 100 x -> in_signed_percent x = true.
Proof.
  intros [F M]. unfold in_signed_percent. rewrite !leb_spec.
  change (Prim2SF (-100)) with (S754_finite true 7036874417766400 (-46)).
  change (Prim2SF 100) with (S754_finite false 7036874417766400 (-46)).
  rewrite <- fmag_100, (is_bound_fmag _ _ _ bound_100) in M.
  destruct (SFleb_symmetric_bound (Prim2SF x) 7036874417766400 (-46)
              (Prim2SF_valid x) F (proj2 bound_100) M) as [H1 H2].
  rewrite H1, H2. reflexivity.
Qed.

Lemma within_100_percent x : pos0 x -> within 100 x -> in_percent x = true.
Proof.
  intros P W. unfold in_percent. rewrite (leb_zero_pos0 x P).
  pose proof (within_100_signed x W) as H. unfold in_signed_percent in H.
  apply andb_prop in H. destruct H as [_ H]. rewrite H. reflexivity.
Qed.

(** An average: a total of at most [n] in magnitude, divided by [n],
    times 100. *)
Lemma average_within n x :
  (0 < n < 2 ^ 53)%Z -> within n x ->
  let avg := x / Number_of_Z n * 100 in
  within 100 avg /\ (pos0 x -> pos0 avg).
Proof.
  intros Hn W. cbv zeta.
  destruct (fdiv_within n x Hn W) as (W1 & S1).
  destruct (fmul_100_within _ W1) as (W2 & S2).
  split; [exact W2|]. intros [_ Sx]. split; [exact (proj1 W2)|].
  rewrite S2, S1. exact Sx.
Qed.

Lemma report_in_range n acc :
  (0 < n)%nat -> (3 * Z.of_nat n < 2 ^ 53)%Z ->
  score_invariant (Z.of_nat n) acc ->
  let rep := report n acc in
  in_percent (rmse rep) = true
  /\ (exists r g b, avgRgbError rep = [r; g; b]
        /\ in_signed_percent r = true /\ in_signed_percent g = true
        /\ in_signed_percent b = true)
  /\ (exists h s l, avgHslError rep = [h; s; l]
        /\ in_percent h = true /\ in_signed_percent s = true
        /\ in_signed_percent l = true).
Proof.
  intros Hn H3 Inv. cbv zeta.
  destruct Inv as (a0 & a1 & a2 & b0 & b1 & b2 & Ea & Eb & A0 & A1 & A2
                   & (P0 & B0) & B1 & B2 & Hsq & Hlen).
  unfold report. cbn [rmse avgRgbError avgHslError]. rewrite Ea, Eb. cbn [map].
  assert (HN : (0 < Z.of_nat n < 2 ^ 53)%Z) by lia.
  split; [|split].
  - unfold length_Number. rewrite Hlen.
    assert (P00 : pos0 0) by (split; [exact I|reflexivity]).
    assert (W00 : within 0 0) by (split; [exact I|vm_compute; discriminate]).
    destruct (sum_within (squaredErrors acc) 0 0%Z P00 W00 ltac:(lia) Hsq ltac:(lia))
      as (Ps & Ws).
    rewrite Z.add_0_l, Hlen in Ws.
    destruct (fdiv_within (3 * Z.of_nat n) _ ltac:(lia) Ws) as (Wm & Sm).
    assert (Pm : pos0 (fold_left (fun sum error => sum + error) (squaredErrors acc) 0
                       / Number_of_Z (3 * Z.of_nat n))).
    { split; [exact (proj1 Wm)|]. rewrite Sm. exact (proj2 Ps). }
    destruct (fsqrt_within _ Pm Wm) as (Pr & Wr).
    destruct (fmul_100_within _ Wr) as (Wp & Sp).
    apply within_100_percent; [|exact Wp].
    split; [exact (proj1 Wp)|]. unfold Math_sqrt. rewrite Sp. exact (proj2 Pr).
  - do 3 eexists. split; [reflexivity|].
    repeat split; apply within_100_signed, average_within; assumption.
  - do 3 eexists. split; [reflexivity|]. split; [|split].
    + destruct (average_within _ b0 HN B0) as (W & P).
      apply within_100_percent; [exact (P P0)|exact W].
    + apply within_100_signed, average_within; assumption.
    + apply within_100_signed, average_within; assumption.
Qed.

Lemma initial_invariant : score_invariant 0 initial.
Proof.
  assert (W00 : within 0 0) by (split; [exact I|vm_compute; discriminate]).
  assert (P00 : pos0 0) by (split; [exact I|reflexivity]).
  exists 0, 0, 0, 0, 0, 0. cbn [initial totalRgbError totalHslError squaredErrors].
  repeat split; try exact I; try apply W00; try reflexivity. apply Forall_nil.
Qed.

Lemma calculateScore_in_range n qs inputs :
  (0 < n)%nat -> (3 * Z.of_nat n < 2 ^ 53)%Z ->
  (n <= List.length qs)%nat -> (n <= List.length inputs)%nat ->
  Forall byte_channels qs ->
  exists rep, calculateScore n qs inputs = Return rep
    /\ in_percent (rmse rep) = true
    /\ (exists r g b, avgRgbError rep = [r; g; b]
          /\ in_signed_percent r = true /\ in_signed_percent g = true
          /\ in_signed_percent b = true)
    /\ (exists h s l, avgHslError rep = [h; s; l]
          /\ in_percent h = true /\ in_signed_percent s = true
          /\ in_signed_percent l = true).
Proof.
  intros Hn H3 Hq Hi Hb. unfold calculateScore.
  destruct (for_each_invariant qs inputs n 0 0%Z initial Hq Hi Hb ltac:(lia) ltac:(lia)
              initial_invariant) as (acc & -> & Inv).
  cbn [bind]. eexists. split; [reflexivity|].
  rewrite Z.add_0_l in Inv. apply report_in_range; assumption.
Qed.

End Report.


(** ** [generateRandomColor] *)

Lemma generateRandomColor_of_well_formed u1 u2 u3 :
  unit_interval u1 = true -> unit_interval u2 = true -> unit_interval u3 = true ->
  exists hex r g b,
    generateRandomColor_of u1 u2 u3 = Some (hex, r, g, b)
    /\ 0 <= r <= 255 /\ 0 <= g <= 255 /\ 0 <= b <= 255
    /\ hex = hexOf r g b /\ hexToRgb hex = [r; g; b].
Proof.
  unfold unit_interval. intros H1 H2 H3. apply andb_prop in H1, H2, H3.
  destruct (random_channel_byte u1 (proj1 H1) (proj2 H1)) as (r & Er & Hr).
  destruct (random_channel_byte u2 (proj1 H2) (proj2 H2)) as (g & Eg & Hg).
  destruct (random_channel_byte u3 (proj1 H3) (proj2 H3)) as (b & Eb & Hb).
  exists (hexOf r g b), r, g, b. unfold generateRandomColor_of. rewrite Er, Eg, Eb.
  split; [reflexivity|]. split; [exact Hr|]. split; [exact Hg|]. split; [exact Hb|].
  split; [reflexivity|]. apply hexToRgb_hexOf; assumption.
Qed.


(** ** The page *)

Lemma length_set_value values i v :
  List.length (set_value values i v) = List.length values.
Proof.
  revert i. induction values as [|x rest IH]; intros [|i]; cbn; try reflexivity.
  rewrite IH. reflexivity.
Qed.

Lemma setupQuestions_page_invariant draw p :
  byte_draw draw -> page_invariant (setupQuestions_page draw p).
Proof.
  intros Hd. destruct (setupQuestions_well_formed numQuestions draw Hd) as (Hl & Hw & _).
  unfold setupQuestions_page, page_invariant.
  destruct (setupQuestions numQuestions draw) as [qs ans] eqn:E.
  cbn [fst] in Hl, Hw. cbn [Page.questions Page.values Page.submitDisabled].
  split; [exact Hl|]. split; [apply repeat_length|]. split; [exact Hw|reflexivity].
Qed.

Lemma handle_invariant p ev :
  byte_event ev -> page_invariant p -> page_invariant (handle p ev).
Proof.
  intros Hev (Hq & Hv & Hw & Hd). destruct ev as [i v| |draw]; cbn [handle].
  - unfold on_input, page_invariant.
    cbn [Page.questions Page.values Page.submitDisabled].
    rewrite length_set_value. repeat split; assumption.
  - unfold on_submit. destruct (Page.submitDisabled p) eqn:Ed.
    + repeat split; try assumption; congruence.
    + destruct (calculateScore numQuestions (Page.questions p) (Page.values p)).
      * unfold page_invariant. cbn [Page.questions Page.values Page.submitDisabled].
        repeat split; try assumption; congruence.
      * repeat split; try assumption; congruence.
  - apply setupQuestions_page_invariant, Hev.
Qed.

Lemma page_after_invariant p0 draw events :
  byte_draw draw -> Forall byte_event events ->
  page_invariant (page_after p0 draw events).
Proof.
  intros Hd Hev. unfold page_after.
  pose proof (setupQuestions_page_invariant draw p0 Hd) as Inv.
  revert Inv. generalize (setupQuestions_page draw p0).
  induction Hev as [|ev events Hb _ IH]; intros p Inv; [exact Inv|].
  cbn [fold_left]. apply IH, handle_invariant; assumption.
Qed.

Lemma allFilled_no_fallback values :
  allFilled values = true ->
  Forall (fun v => String.length v = 6%nat) values
  /\ map (fun v => or_else v "000000") values = values.
Proof.
  unfold allFilled. intros H. rewrite forallb_forall in H. split.
  - apply Forall_forall. intros v Hv. apply Nat.eqb_eq, H, Hv.
  - rewrite <- (map_id values) at 2. apply map_ext_in. intros v Hv.
    specialize (H v Hv). destruct v; [discriminate|reflexivity].
Qed.

Lemma well_formed_bytes q : well_formed q -> byte_channels q.
Proof. unfold well_formed, byte_channels. tauto. Qed.

Lemma submit_on_reachable p0 draw events :
  byte_draw draw -> Forall byte_event events ->
  let p := page_after p0 draw events in
  (Page.submitDisabled p = true /\ on_submit p = p)
  \/ (Page.submitDisabled p = false
      /\ Forall (fun v => String.length v = 6%nat) (Page.values p)
      /\ map (fun v => or_else v "000000") (Page.values p) = Page.values p
      /\ exists rep,
           calculateScore numQuestions (Page.questions p) (Page.values p) = Return rep
           /\ Page.resultText (on_submit p) = Some (display rep)
           /\ Page.resultShown (on_submit p) = true
           /\ in_percent (rmse rep) = true).
Proof.
  intros Hd Hev p.
  destruct (page_after_invariant p0 draw events Hd Hev) as (Hq & Hv & Hw & Hdis).
  fold p in Hq, Hv, Hw, Hdis.
  destruct (Page.submitDisabled p) eqn:Ed.
  - left. split; [reflexivity|]. unfold on_submit. rewrite Ed. reflexivity.
  - right. split; [reflexivity|].
    symmetry in Hdis. apply negb_false_iff in Hdis.
    destruct (allFilled_no_fallback _ Hdis) as (H6 & Hno).
    split; [exact H6|]. split; [exact Hno|].
    destruct (calculateScore_in_range numQuestions (Page.questions p) (Page.values p))
      as (rep & Hrun & Hr & _).
    + unfold numQuestions. lia.
    + vm_compute. reflexivity.
    + lia.
    + lia.
    + apply Forall_impl with (2 := Hw). exact well_formed_bytes.
    + exists rep. unfold on_submit. rewrite Ed, Hrun.
      cbn [Page.resultText Page.resultShown]. repeat split; assumption.
Qed.

Lemma setupQuestions_page_session draw p :
  byte_draw draw ->
  let p' := setupQuestions_page draw p in
  List.length (Page.questions p') = numQuestions
  /\ Forall (fun q => byte_channels q
                      /\ hexToRgb (Question.hex q)
                         = [Question.r q; Question.g q; Question.b q])
       (Page.questions p')
  /\ Page.values p' = repeat EmptyString numQuestions
  /\ Page.answers p' = repeat EmptyString numQuestions
  /\ on_submit p' = p'.
Proof.
  intros Hd. cbv zeta.
  destruct (setupQuestions_well_formed numQuestions draw Hd) as (Hl & Hw & Ha).
  unfold setupQuestions_page.
  destruct (setupQuestions numQuestions draw) as [qs ans] eqn:E.
  cbn [fst snd] in Hl, Hw, Ha. cbn [Page.questions Page.values Page.answers].
  split; [exact Hl|]. split; [|split; [reflexivity|split; [exact Ha|reflexivity]]].
  apply Forall_impl with (2 := Hw). intros q (Hr & Hg & Hb & Hh).
  split; [split; [exact Hr|split; assumption]|].
  rewrite Hh. apply hexToRgb_hexOf; assumption.
Qed.


(** ** What a rounded result is at least *)

Lemma bounded_canonical m e :
  bounded prec emax m e = true -> fexp prec emax (Zpos (digits2_pos m) + e) = e.
Proof.
  unfold bounded, canonical_mantissa. intros H. apply andb_prop in H.
  destruct H as [H _]. apply Z.eqb_eq in H. exact H.
Qed.

(** A rounded value is not below a binary64 number that the exact value
    is not below, unless it overflows. *)
Lemma binary_round_aux_lower_by K sx m e l mc ec :
  1074 <= K ->
  0 <= m -> - K <= e -> e <= fexp prec emax (Zdigits2 m + e) ->
  bounded prec emax mc ec = true ->
  scaled_by K (Zpos mc) ec <= scaled_by K m e ->
  binary_round_aux prec emax sx m e l = S754_infinity sx
  \/ exists m3 e3,
       binary_round_aux prec emax sx m e l = S754_finite sx m3 e3
       /\ -1074 <= e3 /\ scaled (Zpos mc) ec <= scaled (Zpos m3) e3.
Proof.
  intros HK Hm He Hfe Hb Hle.
  destruct (bounded_facts _ _ Hb) as ((Hec & Hec') & Hdc & Hnc).
  destruct (bounded_mantissa _ _ Hb) as (Hmc & Hmc').
  pose proof (bounded_canonical _ _ Hb) as Hcan.
  pose proof (pow2_pos (e + K) ltac:(lia)) as Pe.
  pose proof (pow2_pos (ec + K) ltac:(lia)) as Pec.
  assert (Hmpos : 0 < m).
  { unfold scaled_by in Hle. destruct (Z.eq_dec m 0) as [->|]; [|lia].
    rewrite Z.mul_0_l in Hle. pose proof (Pos2Z.is_pos mc). nia. }
  unfold binary_round_aux, shr_fexp.
  set (d := Zdigits2 m) in *.
  set (n := fexp prec emax (d + e) - e).
  assert (Hn : 0 <= n) by (unfold n; lia).
  pose proof (shr_spec m l e n Hm Hn) as H1.
  destruct (shr (shr_record_of_loc m l) e n) as [mrs1 e1].
  destruct H1 as (Hm1 & He1 & _).
  set (m1 := shr_m mrs1) in *. set (l1 := loc_of_shr_record mrs1) in *.
  destruct (round_nearest_even_spec m1 l1) as (Hr & _).
  set (m2 := round_nearest_even m1 l1) in *.
  pose proof (pow2_pos n Hn) as Pn.
  assert (Hfx : e1 = fexp prec emax (d + e)) by (unfold n in He1; lia).
  assert (He1lo : -1074 <= e1) by (rewrite Hfx, fexp_eq; lia).
  pose proof (Zdigits2_upper m Hm) as Hup. fold d in Hup.
  pose proof (Zdigits2_lower m Hmpos) as Hlow. fold d in Hlow.
  assert (Hd1 : 1 <= d).
  { unfold d. destruct m; cbn; lia. }
  (* the digits of the bound *)
  set (dc := Zpos (digits2_pos mc)) in *.
  pose proof (Zdigits2_lower (Zpos mc) ltac:(lia)) as Hclow. cbn [Zdigits2] in Hclow.
  fold dc in Hclow.
  assert (Hdd : dc + ec <= d + e).
  { unfold scaled_by in Hle.
    assert (2 ^ (dc - 1) * 2 ^ (ec + K) < 2 ^ d * 2 ^ (e + K)) as Hc.
    { apply Z.le_lt_trans with (Zpos mc * 2 ^ (ec + K)).
      - apply Z.mul_le_mono_nonneg_r; lia.
      - apply Z.le_lt_trans with (1 := Hle). apply Z.mul_lt_mono_pos_r; lia. }
    rewrite <- !Z.pow_add_r in Hc by lia.
    apply Z.pow_lt_mono_r_iff in Hc; lia. }
  assert (He1c : ec <= e1).
  { rewrite Hfx, <- Hcan. apply fexp_mono. exact Hdd. }
  (* the first shift keeps the value above the bound *)
  pose proof (pow2_pos (e1 + 1074) ltac:(lia)) as Pe1.
  pose proof (pow2_pos (ec + 1074) ltac:(lia)) as Pec1.
  assert (Hm1lt : m1 < 2 ^ 53).
  { rewrite Hm1. apply Z.div_lt_upper_bound; [lia|].
    apply Z.lt_le_trans with (1 := Hup).
    rewrite <- Z.pow_add_r by lia. apply Z.pow_le_mono_r; [lia|].
    unfold n. rewrite fexp_eq. lia. }
  assert (Hs1 : scaled (Zpos mc) ec <= scaled m1 e1).
  { unfold scaled. destruct (Z.eq_dec e1 ec) as [E|E].
    - rewrite E. apply Z.mul_le_mono_nonneg_r; [lia|].
      rewrite Hm1. apply Z.div_le_lower_bound; [lia|].
      unfold scaled_by in Hle.
      replace (ec + K) with (n + (e + K)) in Hle by lia.
      rewrite (Z.pow_add_r 2 n) in Hle by lia.
      apply (Z.mul_le_mono_pos_r _ _ (2 ^ (e + K))); [lia|].
      replace (2 ^ n * Zpos mc * 2 ^ (e + K)) with (Zpos mc * (2 ^ n * 2 ^ (e + K))) by ring.
      exact Hle.
    - assert (Hd53 : e1 = d + e - 53) by (rewrite fexp_eq in Hfx; lia).
      assert (Hn53 : n = d - 53) by lia.
      assert (H52 : 2 ^ 52 <= m1).
      { rewrite Hm1. apply Z.div_le_lower_bound; [lia|].
        apply Z.le_trans with (2 := Hlow).
        rewrite <- Z.pow_add_r by lia. apply Z.pow_le_mono_r; lia. }
      apply Z.le_trans with (2 ^ 53 * 2 ^ (ec + 1074)).
      + apply Z.mul_le_mono_nonneg_r; lia.
      + replace (e1 + 1074) with ((e1 - ec - 1) + (1 + (ec + 1074))) by lia.
        rewrite (Z.pow_add_r 2 (e1 - ec - 1)), (Z.pow_add_r 2 1) by lia.
        pose proof (pow2_pos (e1 - ec - 1) ltac:(lia)) as P3.
        assert (P1 : 0 <= m1) by lia.
        change (2 ^ 53) with (2 ^ 52 * 2 ^ 1).
        remember (2 ^ 52) as A. remember (2 ^ (ec + 1074)) as B.
        remember (2 ^ (e1 - ec - 1)) as C. change (2 ^ 1) with 2.
        clear HeqA HeqB HeqC.
        apply Z.le_trans with (m1 * (1 * (2 * B))).
        * replace (A * 2 * B) with (A * (1 * (2 * B))) by ring.
          apply Z.mul_le_mono_nonneg_r; lia.
        * apply Z.mul_le_mono_nonneg_l; [lia|].
          apply Z.mul_le_mono_nonneg_r; lia. }
  assert (Hm2 : scaled (Zpos mc) ec <= scaled m2 e1).
  { apply Z.le_trans with (1 := Hs1). unfold scaled.
    apply Z.mul_le_mono_nonneg_r; lia. }
  assert (Hm1pos : 0 <= m1) by (rewrite Hm1; apply Z.div_pos; lia).
  assert (Hm2pos : 0 < m2).
  { pose proof (scaled_pos mc ec ltac:(lia)). unfold scaled in Hm2.
    destruct (Z_lt_le_dec 0 m2); [assumption|exfalso]. nia. }
  assert (Hm2le : m2 <= 2 ^ 53) by lia.
  (* the second shift *)
  set (n2 := fexp prec emax (Zdigits2 m2 + e1) - e1).
  assert (H3 : exists mrs3 e3,
             shr (shr_record_of_loc m2 loc_Exact) e1 n2 = (mrs3, e3)
             /\ 0 < shr_m mrs3 /\ -1074 <= e3
             /\ scaled (Zpos mc) ec <= scaled (shr_m mrs3) e3).
  { destruct (Z.eq_dec m2 (2 ^ 53)) as [E|E].
    - assert (Hn2 : n2 = 1).
      { unfold n2. rewrite E. change (Zdigits2 (2 ^ 53)) with 54. rewrite fexp_eq. lia. }
      pose proof (shr_spec m2 loc_Exact e1 n2 ltac:(lia) ltac:(lia)) as H2.
      destruct (shr (shr_record_of_loc m2 loc_Exact) e1 n2) as [mrs3 e3].
      destruct H2 as (Hm3 & He3 & _).
      do 2 eexists. split; [reflexivity|].
      rewrite Hm3, He3, Hn2, E. change (2 ^ 53 / 2 ^ 1) with (2 ^ 52).
      split; [lia|]. split; [lia|].
      apply Z.le_trans with (1 := Hm2). rewrite E. unfold scaled.
      replace (e1 + 1 + 1074) with (1 + (e1 + 1074)) by lia.
      rewrite (Z.pow_add_r 2 1) by lia. change (2 ^ 53) with (2 ^ 52 * 2 ^ 1). lia.
    - assert (Hn2 : n2 <= 0).
      { unfold n2. rewrite fexp_eq.
        assert (Zdigits2 m2 <= 53); [|lia].
        destruct m2 as [|p|p]; try lia. cbn [Zdigits2].
        apply digits2_pos_le; lia. }
      rewrite shr_nonpos by assumption. do 2 eexists. split; [reflexivity|].
      cbn [shr_record_of_loc shr_m]. split; [lia|]. split; [lia|exact Hm2]. }
  destruct H3 as (mrs3 & e3 & -> & Hm3 & He3 & Hs3).
  destruct (shr_m mrs3) as [|m3|m3] eqn:Em3; try lia.
  destruct (e3 <=? emax - prec); [right|left; reflexivity].
  exists m3, e3. split; [reflexivity|]. split; [lia|exact Hs3].
Qed.

Lemma binary_round_lower sx mx ex mc ec :
  -1074 <= ex -> bounded prec emax mc ec = true ->
  scaled (Zpos mc) ec <= scaled (Zpos mx) ex ->
  binary_round prec emax sx mx ex = S754_infinity sx
  \/ exists m3 e3,
       binary_round prec emax sx mx ex = S754_finite sx m3 e3
       /\ -1074 <= e3 /\ scaled (Zpos mc) ec <= scaled (Zpos m3) e3.
Proof.
  intros Hex Hb Hle. unfold binary_round, shl_align.
  set (f := fexp prec emax (Zpos (digits2_pos mx) + ex)).
  assert (Haux : forall mz ez,
             -1074 <= ez -> scaled (Zpos mz) ez = scaled (Zpos mx) ex ->
             ez <= fexp prec emax (Zdigits2 (Zpos mz) + ez) ->
             binary_round_aux prec emax sx (Zpos mz) ez loc_Exact = S754_infinity sx
             \/ exists m3 e3,
                  binary_round_aux prec emax sx (Zpos mz) ez loc_Exact
                  = S754_finite sx m3 e3
                  /\ -1074 <= e3 /\ scaled (Zpos mc) ec <= scaled (Zpos m3) e3).
  { intros mz ez Hez Hs Hfz.
    apply (binary_round_aux_lower_by 1074); try assumption; try lia.
    change (scaled (Zpos mc) ec <= scaled (Zpos mz) ez). rewrite Hs. exact Hle. }
  destruct (f - ex) as [|p|p] eqn:Ed.
  - apply Haux; [lia|reflexivity|]. cbn [Zdigits2]. fold f. lia.
  - apply Haux; [lia|reflexivity|]. cbn [Zdigits2]. fold f. lia.
  - assert (Hf : -1074 <= f) by (unfold f; rewrite fexp_eq; lia).
    apply Haux; [lia| |].
    + unfold scaled. rewrite iter_xO_value.
      replace (ex + 1074) with (Zpos p + (f + 1074)) by lia.
      rewrite (Z.pow_add_r 2 (Zpos p) (f + 1074)) by lia. ring.
    + cbn [Zdigits2]. rewrite digits2_pos_iter_xO.
      replace (Zpos (digits2_pos mx) + Zpos p + f) with (Zpos (digits2_pos mx) + ex) by lia.
      fold f. lia.
Qed.

(** ** Addition of two non-negative numbers *)

Lemma SFadd_lower x y :
  valid_binary x = true -> valid_binary y = true ->
  nonneg_sf x -> nonneg_sf y ->
  let r := SFadd prec emax x y in
  finite_sf r -> mag x <= mag r /\ mag y <= mag r.
Proof.
  intros Vx Vy Nx Ny. cbv zeta.
  pose proof (mag_nonneg x Vx) as Px. pose proof (mag_nonneg y Vy) as Py.
  destruct x as [sx|sx| |[] mx ex]; try contradiction;
    destruct y as [sy|sy| |[] my ey]; try contradiction; cbn [SFadd].
  - destruct sx, sy; cbn; intros _; lia.
  - cbn [mag] in *. intros _. lia.
  - cbn [mag] in *. intros _. lia.
  - cbn [valid_binary mag] in *.
    destruct (bounded_facts _ _ Vx) as ((Hex & _) & _).
    destruct (bounded_facts _ _ Vy) as ((Hey & _) & _).
    set (ez := Z.min ex ey).
    pose proof (shl_align_value mx ex ez ltac:(unfold ez; lia)) as Ax.
    pose proof (shl_align_value my ey ez ltac:(unfold ez; lia)) as Ay.
    set (ax := fst (shl_align mx ex ez)) in *.
    set (ay := fst (shl_align my ey ez)) in *.
    assert (Sx : Zpos ax * 2 ^ (ez + 1074) = scaled (Zpos mx) ex).
    { rewrite Ax. unfold scaled. replace (ex + 1074) with ((ex - ez) + (ez + 1074)) by lia.
      rewrite (Z.pow_add_r 2 (ex - ez)) by (unfold ez; lia). ring. }
    assert (Sy : Zpos ay * 2 ^ (ez + 1074) = scaled (Zpos my) ey).
    { rewrite Ay. unfold scaled. replace (ey + 1074) with ((ey - ez) + (ez + 1074)) by lia.
      rewrite (Z.pow_add_r 2 (ey - ez)) by (unfold ez; lia). ring. }
    pose proof (pow2_pos (ez + 1074) ltac:(unfold ez; lia)) as Pz.
    cbn [cond_Zopp]. change (Zpos ax + Zpos ay) with (Zpos (ax + ay)).
    cbn [binary_normalize].
    assert (Hsum : scaled (Zpos (ax + ay)) ez
                   = scaled (Zpos mx) ex + scaled (Zpos my) ey).
    { rewrite <- Sx, <- Sy. unfold scaled. rewrite Pos2Z.inj_add. ring. }
    pose proof (scaled_pos mx ex Hex) as Qx. pose proof (scaled_pos my ey Hey) as Qy.
    intros Fr. split.
    + destruct (binary_round_lower false (ax + ay) ez mx ex ltac:(unfold ez; lia) Vx
                  ltac:(lia)) as [E|(m3 & e3 & E & _ & H)];
        rewrite E in *; [contradiction|exact H].
    + destruct (binary_round_lower false (ax + ay) ez my ey ltac:(unfold ez; lia) Vy
                  ltac:(lia)) as [E|(m3 & e3 & E & _ & H)];
        rewrite E in *; [contradiction|exact H].
Qed.

Lemma fadd_lower x y :
  nn x -> nn y -> finite_sf (Prim2SF (x + y)%float) ->
  fmag x <= fmag (x + y)%float /\ fmag y <= fmag (x + y)%float.
Proof.
  intros Nx Ny. unfold fmag. rewrite add_spec. unfold SF64add.
  apply SFadd_lower; try apply Prim2SF_valid; assumption.
Qed.

(** ** Multiplication by a number that is at least 1 *)

Lemma SFmul_lower sx mx ex sy my ey :
  bounded prec emax mx ex = true -> bounded prec emax my ey = true ->
  2 ^ 1074 <= scaled (Zpos my) ey ->
  let r := SFmul prec emax (S754_finite sx mx ex) (S754_finite sy my ey) in
  finite_sf r -> scaled (Zpos mx) ex <= mag r.
Proof.
  intros Vx Vy Hy. cbv zeta. cbn [SFmul].
  destruct (bounded_facts _ _ Vx) as (Hex & Hdx & Hnx).
  destruct (bounded_facts _ _ Vy) as (Hey & Hdy & Hny).
  assert (Hs : scaled_by 2148 (Zpos (mx * my)) (ex + ey)
               = scaled (Zpos mx) ex * scaled (Zpos my) ey).
  { unfold scaled_by, scaled. rewrite Pos2Z.inj_mul.
    replace (ex + ey + 2148) with ((ex + 1074) + (ey + 1074)) by lia.
    rewrite Z.pow_add_r by lia. ring. }
  assert (Hb : scaled_by 2148 (Zpos mx) ex = scaled (Zpos mx) ex * 2 ^ 1074).
  { rewrite scaled_by_scaled by lia. reflexivity. }
  assert (Hfe : ex + ey <= fexp prec emax (Zdigits2 (Zpos (mx * my)) + (ex + ey))).
  { rewrite fexp_eq. cbn [Zdigits2].
    destruct (Z_le_gt_dec (ex + ey) (-1074)) as [|G]; [lia|].
    assert (53 <= Zpos (digits2_pos (mx * my))); [|lia].
    destruct (Z_le_gt_dec ex (-1074)).
    + rewrite <- (Hny ltac:(lia)). apply Zdigits2_mul_ge.
    + rewrite <- (Hnx ltac:(lia)). rewrite Pos.mul_comm. apply Zdigits2_mul_ge. }
  assert (Hle : scaled_by 2148 (Zpos mx) ex <= scaled_by 2148 (Zpos (mx * my)) (ex + ey)).
  { rewrite Hs, Hb. pose proof (scaled_pos mx ex ltac:(lia)).
    apply Z.mul_le_mono_nonneg_l; lia. }
  destruct (binary_round_aux_lower_by 2148 (xorb sx sy) (Zpos (mx * my)) (ex + ey)
              loc_Exact mx ex ltac:(lia) ltac:(lia) ltac:(lia) Hfe Vx Hle)
    as [->|(m3 & e3 & -> & He3 & Hs3)].
  - contradiction.
  - intros _. exact Hs3.
Qed.

(** ** A quotient that is not rounded to zero *)

Lemma one_bounded : bounded prec emax 1 (-1074) = true.
Proof. vm_compute. reflexivity. Qed.

Lemma SFdiv_pos sx mx ex sy my ey :
  bounded prec emax mx ex = true -> bounded prec emax my ey = true -> ey <= 0 ->
  scaled (Zpos my) ey <= scaled (Zpos mx) ex * 2 ^ 1074 ->
  let r := SFdiv prec emax (S754_finite sx mx ex) (S754_finite sy my ey) in
  finite_sf r -> 0 < mag r.
Proof.
  intros Vx Vy Hey Hle. cbv zeta.
  destruct (bounded_facts _ _ Vx) as ((Hex & _) & _).
  destruct (bounded_facts _ _ Vy) as ((Hey' & _) & _).
  cbn [SFdiv]. unfold SFdiv_core_binary.
  set (d1 := Zdigits2 (Zpos mx)). set (d2 := Zdigits2 (Zpos my)).
  set (e' := Z.min (fexp prec emax (d1 + ex - (d2 + ey))) (ex - ey)).
  set (s := ex - ey - e').
  assert (Hs : 0 <= s) by (unfold s, e'; lia).
  assert (He' : -1074 <= e').
  { unfold e'. apply Z.min_glb; [rewrite fexp_eq|]; lia. }
  set (m' := match s with Z.pos _ => Z.shiftl (Zpos mx) s | 0 => Zpos mx | Z.neg _ => 0 end).
  assert (Hm' : m' = Zpos mx * 2 ^ s).
  { unfold m'. destruct s as [|p|p] eqn:Es; try lia.
    rewrite Z.shiftl_mul_pow2 by lia. reflexivity. }
  pose proof (Z_div_mod m' (Zpos my) ltac:(lia)) as Hdiv.
  destruct (Z.div_eucl m' (Zpos my)) as [q r]. destruct Hdiv as [Hq Hr].
  pose proof (pow2_pos s Hs) as Ps.
  assert (Hq0 : 0 <= q) by nia.
  pose proof (Zdigits2_lower (Zpos mx) ltac:(lia)) as L1. fold d1 in L1.
  pose proof (Zdigits2_upper (Zpos my) ltac:(lia)) as U2. fold d2 in U2.
  assert (D1 : 1 <= d1) by (unfold d1; cbn; lia).
  assert (D2 : 1 <= d2) by (unfold d2; cbn; lia).
  assert (Hdig : d1 + s - d2 <= Zdigits2 q).
  { pose proof (Zdigits2_upper q Hq0) as Uq.
    pose proof (Zdigits2_nonneg q) as Nq.
    assert (2 ^ (d1 - 1) * 2 ^ s < 2 ^ Zdigits2 q * 2 ^ d2) as Hc.
    { pose proof (pow2_pos d2 ltac:(lia)). pose proof (pow2_pos (Zdigits2 q) Nq).
      apply Z.le_lt_trans with (Zpos mx * 2 ^ s); [nia|].
      apply Z.lt_le_trans with ((q + 1) * Zpos my); [nia|].
      apply Z.le_trans with (2 ^ Zdigits2 q * Zpos my); nia. }
    rewrite <- !Z.pow_add_r in Hc by lia.
    apply Z.pow_lt_mono_r_iff in Hc; lia. }
  assert (Hpre : e' <= fexp prec emax (Zdigits2 q + e')).
  { apply Z.le_trans with (fexp prec emax (d1 + ex - (d2 + ey))).
    - unfold e'. lia.
    - apply fexp_mono. unfold s in Hdig. lia. }
  (* the dividend, shifted, is not below the divisor *)
  assert (Hge : Zpos my <= m').
  { rewrite Hm'. destruct (Z_le_gt_dec e' (-1074)) as [L|G].
    - assert (Es : s = ex - ey + 1074) by (unfold s; lia).
      unfold scaled in Hle.
      pose proof (pow2_pos (ey + 1074) ltac:(lia)) as Py.
      apply (Z.mul_le_mono_pos_r _ _ (2 ^ (ey + 1074)) Py).
      apply Z.le_trans with (1 := Hle).
      rewrite <- !Z.mul_assoc, <- !Z.pow_add_r by lia.
      apply Z.mul_le_mono_nonneg_l; [lia|].
      apply Z.pow_le_mono_r; lia.
    - assert (Hf : e' <= d1 + ex - (d2 + ey) - 53).
      { assert (e' <= fexp prec emax (d1 + ex - (d2 + ey))) by (unfold e'; lia).
        rewrite fexp_eq in H. lia. }
      assert (Hs53 : d2 - d1 + 53 <= s) by (unfold s; lia).
      apply Z.le_trans with (2 ^ d2); [lia|].
      apply Z.le_trans with (2 ^ (d1 - 1) * 2 ^ s).
      + rewrite <- Z.pow_add_r by lia. apply Z.pow_le_mono_r; lia.
      + apply Z.mul_le_mono_nonneg_r; lia. }
  assert (Hq1 : 1 <= q) by nia.
  assert (Hone : scaled_by 1074 1 (-1074) <= scaled_by 1074 q e').
  { unfold scaled_by. change (2 ^ (-1074 + 1074)) with 1.
    pose proof (pow2_pos (e' + 1074) ltac:(lia)). nia. }
  destruct (binary_round_aux_lower_by 1074 (xorb sx sy) q e' (new_location (Zpos my) r)
              1 (-1074) ltac:(lia) Hq0 ltac:(lia) Hpre one_bounded Hone)
    as [->|(m3 & e3 & -> & He3 & Hs3)].
  - contradiction.
  - intros _. cbn [mag]. apply scaled_pos. exact He3.
Qed.

(** ** A square root that is not rounded to zero *)

Lemma SFsqrt_pos mx ex :
  bounded prec emax mx ex = true ->
  let r := SFsqrt prec emax (S754_finite false mx ex) in
  finite_sf r -> 0 < mag r.
Proof.
  intros Hb. cbv zeta. cbn [SFsqrt]. unfold SFsqrt_core_binary.
  destruct (bounded_facts _ _ Hb) as ((Hlo & Hhi) & Hd & _).
  set (d := Zdigits2 (Zpos mx)).
  set (e' := Z.min (fexp prec emax (Z.div2 (d + ex + 1))) (Z.div2 ex)).
  set (s := ex - 2 * e').
  assert (Hdiv2 : forall z, 2 * Z.div2 z <= z <= 2 * Z.div2 z + 1).
  { intros z. rewrite Z.div2_div. pose proof (Z.div_mod z 2 ltac:(lia)).
    pose proof (Z.mod_pos_bound z 2 ltac:(lia)). lia. }
  pose proof (Hdiv2 ex) as Hd2. pose proof (Hdiv2 (d + ex + 1)) as Hd3.
  assert (Hf : -1074 <= fexp prec emax (Z.div2 (d + ex + 1)))
    by (rewrite fexp_eq; lia).
  assert (He'lo : -1074 <= e') by (unfold e'; lia).
  assert (Hs : 0 <= s) by (unfold s, e'; lia).
  set (m' := match s with
             | 0 => Zpos mx
             | Zpos _ => Z.shiftl (Zpos mx) s
             | Zneg _ => 0
             end).
  assert (Hm' : m' = Zpos mx * 2 ^ s).
  { unfold m'. destruct s as [|p|p] eqn:Es; [cbn; lia| |lia].
    rewrite Z.shiftl_mul_pow2 by lia. reflexivity. }
  clearbody m'.
  pose proof (pow2_pos s Hs) as Ps.
  assert (Hm'pos : 1 <= m') by (rewrite Hm'; nia).
  pose proof (Z.sqrtrem_spec m' ltac:(lia)) as Hq.
  destruct (Z.sqrtrem m') as [q r]. destruct Hq as (Hq & Hr).
  assert (Hq0 : 0 <= q) by lia.
  assert (Hq1 : 1 <= q) by nia.
  set (l := if r =? 0 then loc_Exact else loc_Inexact (if r <=? q then Lt else Gt)).
  assert (Hdig : e' <= fexp prec emax (Zdigits2 q + e')).
  { apply Z.le_trans with (fexp prec emax (Z.div2 (d + ex + 1)));
      [unfold e'; lia|]. apply fexp_mono.
    set (t := Z.div2 (d + ex + 1) - e' - 1).
    assert (t < Zdigits2 q); [|unfold t in *; lia].
    pose proof (Zdigits2_nonneg q).
    destruct (Z_lt_le_dec t 0) as [|Ht]; [lia|].
    pose proof (Zdigits2_lower (Zpos mx) ltac:(lia)) as Hlow. fold d in Hlow.
    assert (Hd1 : 1 <= d) by (unfold d; cbn; lia).
    assert (H2t : 2 ^ t * 2 ^ t <= m').
    { rewrite Hm', <- Z.pow_add_r by lia.
      apply Z.le_trans with (2 ^ (d - 1) * 2 ^ s).
      - rewrite <- Z.pow_add_r by lia. apply Z.pow_le_mono_r; [lia|].
        unfold t, s. lia.
      - apply Z.mul_le_mono_nonneg_r; lia. }
    pose proof (pow2_pos t Ht) as Pt.
    assert (Hqt : 2 ^ t <= q).
    { remember (2 ^ t) as B. clear HeqB. nia. }
    pose proof (Zdigits2_upper q Hq0) as Hup.
    assert (Hlt : 2 ^ t < 2 ^ Zdigits2 q) by lia.
    apply Z.pow_lt_mono_r_iff in Hlt; lia. }
  assert (Hone : scaled_by 1074 1 (-1074) <= scaled_by 1074 q e').
  { unfold scaled_by. change (2 ^ (-1074 + 1074)) with 1.
    pose proof (pow2_pos (e' + 1074) ltac:(lia)). nia. }
  fold l.
  destruct (binary_round_aux_lower_by 1074 false q e' l
              1 (-1074) ltac:(lia) Hq0 ltac:(lia) Hdig one_bounded Hone)
    as [->|(m3 & e3 & -> & He3 & Hs3)].
  - contradiction.
  - intros _. cbn [mag]. apply scaled_pos. exact He3.
Qed.

(** ** Numbers that stay positive *)

Lemma fmag_pos_finite x :
  0 < fmag x -> exists s m e, Prim2SF x = S754_finite s m e
                              /\ bounded prec emax m e = true.
Proof.
  unfold fmag. pose proof (Prim2SF_valid x) as V.
  destruct (Prim2SF x) as [s|s| |s m e]; cbn [mag]; try lia.
  intros _. exists s, m, e. split; [reflexivity|exact V].
Qed.

Lemma eqb_zero_fmag x : 0 < fmag x -> (x =? 0)%float = false.
Proof.
  intros H. destruct (fmag_pos_finite x H) as (s & m & e & E & _).
  rewrite eqb_spec, E. change (Prim2SF 0) with (S754_zero false).
  destruct s; reflexivity.
Qed.

Lemma fdiv_pos k x :
  0 < k < 2 ^ 53 -> k <= fmag x ->
  finite_sf (Prim2SF (x / Number_of_Z k)%float) -> 0 < fmag (x / Number_of_Z k)%float.
Proof.
  intros Hk Hx. destruct (fmag_pos_finite x ltac:(lia)) as (s & m & e & E & V).
  destruct (Number_of_Z_bound k Hk) as (mk & ek & (Ek & Vk) & He & Hm).
  unfold fmag in *. rewrite div_spec. unfold SF64div. rewrite E, Ek in *.
  cbn [mag] in Hx, Hm. apply SFdiv_pos; try assumption.
  rewrite Hm. pose proof (pow2_pos 1074 ltac:(lia)).
  apply Z.mul_le_mono_nonneg_r; lia.
Qed.

Lemma fsqrt_pos x :
  pos0 x -> 0 < fmag x ->
  finite_sf (Prim2SF (sqrt x)) -> 0 < fmag (sqrt x).
Proof.
  intros [_ Sx] Hx. destruct (fmag_pos_finite x Hx) as (s & m & e & E & V).
  unfold fmag. rewrite sqrt_spec. unfold SF64sqrt. rewrite E in *.
  cbn [sign_sf] in Sx. subst s. apply SFsqrt_pos. exact V.
Qed.

Lemma fmul_100_pos x :
  0 < fmag x -> finite_sf (Prim2SF (x * 100)%float) -> 0 < fmag (x * 100)%float.
Proof.
  intros Hx. destruct (fmag_pos_finite x Hx) as (s & m & e & E & V).
  unfold fmag in *. rewrite mul_spec. unfold SF64mul. rewrite E in *.
  change (Prim2SF 100) with (S754_finite false 7036874417766400 (-46)).
  intros F. cbn [mag] in Hx.
  apply Z.lt_le_trans with (1 := Hx).
  apply SFmul_lower; try assumption; [reflexivity|].
  vm_compute. discriminate.
Qed.

(** ** A root mean square of zero *)

Lemma square_errors_ok :
  forallb (fun u => forallb (square_error_ok u) (range 256)) (range 256) = true.
Proof. vm_compute. reflexivity. Qed.

Lemma square_error_lower u c :
  0 <= u <= 255 -> 0 <= c <= 255 -> u <> c ->
  2 ^ 1057 <= fmag (square ((Number_of_Z u - Number_of_Z c) / 255)%float).
Proof.
  intros Hu Hc Hne.
  pose proof (proj1 (forallb_forall _ _) square_errors_ok u (In_range 256 u ltac:(lia))) as H1.
  cbv beta in H1.
  pose proof (proj1 (forallb_forall _ _) H1 c (In_range 256 c ltac:(lia))) as H2.
  unfold square_error_ok in H2. apply orb_prop in H2. destruct H2 as [H2|H2].
  - apply Z.eqb_eq in H2. contradiction.
  - destruct (rgbError_within u c Hu Hc) as (_ & P & _).
    rewrite leb_fmag in H2; [|exact I|apply pos0_nn, P].
    apply Z.leb_le in H2. exact H2.
Qed.

Section Sums.
Local Open Scope float_scope.

Lemma sum_lower l acc a :
  pos0 acc -> within a acc -> (0 <= a)%Z ->
  Forall (fun e => pos0 e /\ within 1 e) l ->
  (a + Z.of_nat (List.length l) < 2 ^ 53)%Z ->
  let s := fold_left (fun sum error => sum + error) l acc in
  (fmag acc <= fmag s)%Z /\ Forall (fun e => (fmag e <= fmag s)%Z) l.
Proof.
  revert acc a. induction l as [|e l IH]; intros acc a Pa Wa Ha Hl Hn; cbv zeta.
  - cbn [fold_left]. split; [lia|apply Forall_nil].
  - inversion Hl as [|? ? [Pe We] Hl']; subst. cbn [fold_left List.length] in *.
    destruct (fadd_within a 1 acc e Ha ltac:(lia) ltac:(lia) Wa We) as (W & P).
    specialize (P Pa (pos0_nn e Pe)).
    destruct (fadd_lower acc e (pos0_nn _ Pa) (pos0_nn _ Pe) (proj1 W)) as (L1 & L2).
    destruct (IH (acc + e) (a + 1)%Z P W ltac:(lia) Hl' ltac:(lia)) as (L & F).
    split; [lia|]. apply Forall_cons; [lia|exact F].
Qed.

Lemma root_mean_percent_zero l :
  Forall (fun e => pos0 e /\ within 1 e) l ->
  (0 < Z.of_nat (List.length l) < 2 ^ 53)%Z ->
  (root_mean_percent l =? 0) = true ->
  Forall (fun e => (fmag e < 2 ^ 1057)%Z) l.
Proof.
  intros Hl Hn Hz.
  assert (P00 : pos0 0) by (split; [exact I|reflexivity]).
  assert (W00 : within 0 0) by (split; [exact I|vm_compute; discriminate]).
  destruct (sum_within l 0 0%Z P00 W00 ltac:(lia) Hl ltac:(lia)) as (Ps & Ws).
  destruct (sum_lower l 0 0%Z P00 W00 ltac:(lia) Hl ltac:(lia)) as (_ & Hlow).
  rewrite Z.add_0_l in Ws.
  destruct (fdiv_within _ _ Hn Ws) as (Wm & Sm).
  fold (sum_of l) in Ps, Ws, Hlow, Wm, Sm.
  assert (Pm : pos0 (sum_of l / Number_of_Z (Z.of_nat (List.length l)))).
  { split; [exact (proj1 Wm)|]. rewrite Sm. exact (proj2 Ps). }
  destruct (fsqrt_within _ Pm Wm) as (Pr & Wr).
  destruct (fmul_100_within _ Wr) as (Wp & _).
  assert (Hsum : (fmag (sum_of l) < 2 ^ 1057)%Z).
  { destruct (Z_lt_le_dec (fmag (sum_of l)) (2 ^ 1057)) as [|Hge]; [assumption|exfalso].
    assert (Hk : (Z.of_nat (List.length l) <= fmag (sum_of l))%Z).
    { apply Z.le_trans with (2 := Hge). apply Z.lt_le_incl.
      apply Z.lt_le_trans with (2 ^ 53)%Z; [lia|].
      apply Z.pow_le_mono_r; lia. }
    pose proof (fdiv_pos _ _ Hn Hk (proj1 Wm)) as H1.
    pose proof (fsqrt_pos _ Pm H1 (proj1 Wr)) as H2.
    pose proof (fmul_100_pos _ H2 (proj1 Wp)) as H3.
    apply eqb_zero_fmag in H3. unfold root_mean_percent, length_Number, Math_sqrt in Hz.
    congruence. }
  eapply Forall_impl; [|exact Hlow]. cbv beta. intros e He. lia.
Qed.

End Sums.

(** ** The answers of a session with a root mean square of zero *)

Lemma squared_errors_within q v :
  byte_channels q ->
  Forall (fun e => pos0 e /\ within 1 e) (map square (rgbErrors q v)).
Proof.
  intros (Hr & Hg & Hb). unfold rgbErrors, userRgb.
  destruct (hexToRgb_bytes ("#" ++ or_else v "000000")) as (r & g & b & -> & Hr' & Hg' & Hb').
  cbn [combine map fst snd].
  destruct (rgbError_within r (Question.r q) Hr' Hr) as (_ & Q0 & W0).
  destruct (rgbError_within g (Question.g q) Hg' Hg) as (_ & Q1 & W1).
  destruct (rgbError_within b (Question.b q) Hb' Hb) as (_ & Q2 & W2).
  repeat (apply Forall_cons; [split; assumption|]). apply Forall_nil.
Qed.

Lemma pooled_within qs inputs l :
  Forall byte_channels qs ->
  Forall (fun e => pos0 e /\ within 1 e)
         (flat_map (squared_errors_at qs inputs) l).
Proof.
  intros Hqs. induction l as [|i l IH]; [apply Forall_nil|].
  cbn [flat_map]. apply Forall_app. split; [|exact IH].
  unfold squared_errors_at.
  destruct (nth_error qs i) as [q|] eqn:Eq; [|apply Forall_nil].
  destruct (nth_error inputs i) as [v|]; [|apply Forall_nil].
  apply squared_errors_within.
  rewrite Forall_forall in Hqs. apply Hqs. eapply nth_error_In, Eq.
Qed.

Lemma small_squares_same q v :
  byte_channels q ->
  Forall (fun e => fmag e < 2 ^ 1057) (map square (rgbErrors q v)) ->
  userRgb v = [Question.r q; Question.g q; Question.b q].
Proof.
  intros (Hr & Hg & Hb). unfold rgbErrors, userRgb.
  destruct (hexToRgb_bytes ("#" ++ or_else v "000000")) as (r & g & b & -> & Hr' & Hg' & Hb').
  cbn [combine map fst snd]. intros H.
  inversion H as [|? ? H0 H']; subst. inversion H' as [|? ? H1 H'']; subst.
  inversion H'' as [|? ? H2 _]; subst.
  assert (E : forall u c, 0 <= u <= 255 -> 0 <= c <= 255 ->
                fmag (square ((Number_of_Z u - Number_of_Z c) / 255)%float) < 2 ^ 1057 ->
                u = c).
  { intros u c Hu Hc Hlt. destruct (Z.eq_dec u c) as [|Hne]; [assumption|exfalso].
    pose proof (square_error_lower u c Hu Hc Hne). lia. }
  rewrite (E r (Question.r q)), (E g (Question.g q)), (E b (Question.b q)) by assumption.
  reflexivity.
Qed.

Lemma redrawn_well_formed q : byte_channels q -> well_formed (redrawn q).
Proof.
  intros (Hr & Hg & Hb). unfold well_formed.
  cbn [redrawn Question.r Question.g Question.b Question.hex].
  repeat split; lia.
Qed.

Lemma userRgb_redrawn q :
  byte_channels q ->
  userRgb (answer_of (redrawn q)) = [Question.r q; Question.g q; Question.b q].
Proof. intros (Hr & Hg & Hb). apply userRgb_answer; assumption. Qed.

(** Answers that all decode to the stored colours score like the
    stored answers themselves. *)
Lemma calculateScore_all_right n qs inputs :
  (0 < n)%nat -> 3 * Z.of_nat n < 2 ^ 53 ->
  (n <= List.length qs)%nat -> (n <= List.length inputs)%nat ->
  Forall byte_channels qs ->
  (forall i q v, (i < n)%nat -> nth_error qs i = Some q -> nth_error inputs i = Some v ->
                 userRgb v = [Question.r q; Question.g q; Question.b q]) ->
  calculateScore n qs inputs = Return zero_report.
Proof.
  intros Hn H3 Hq Hi Hb Hall.
  set (qs' := map redrawn (firstn n qs)).
  assert (Hlen : List.length qs' = n).
  { unfold qs'. rewrite length_map, length_firstn. lia. }
  assert (Hbf : Forall byte_channels (firstn n qs)).
  { rewrite Forall_forall in *. intros q Hin. apply Hb.
    rewrite <- (firstn_skipn n qs). apply in_or_app. left. exact Hin. }
  rewrite (calculateScore_depends n qs qs' inputs (map answer_of qs')).
  - apply calculateScore_perfect; try assumption.
    unfold qs'. apply Forall_map.
    eapply Forall_impl; [|exact Hbf]. apply redrawn_well_formed.
  - assert (F1 : firstn n qs' = qs') by (apply firstn_all2; lia).
    rewrite F1. unfold qs'. rewrite map_map.
    apply map_ext. reflexivity.
  - assert (F2 : firstn n (map answer_of qs') = map answer_of qs')
      by (apply firstn_all2; rewrite length_map; lia).
    rewrite F2. unfold qs'. rewrite !map_map.
    apply nth_error_ext. intros i.
    rewrite !nth_error_map, !nth_error_firstn.
    destruct (Nat.ltb_spec i n) as [Hlt|Hge]; [|reflexivity].
    destruct (nth_error qs i) as [q|] eqn:Eq;
      [|apply nth_error_None in Eq; lia].
    destruct (nth_error inputs i) as [v|] eqn:Ev;
      [|apply nth_error_None in Ev; lia].
    cbn [option_map]. f_equal.
    rewrite (Hall i q v Hlt Eq Ev). symmetry. apply userRgb_redrawn.
    rewrite Forall_forall in Hb. apply Hb. eapply nth_error_In, Eq.
Qed.

Lemma zero_rmse_all_right n qs inputs :
  (0 < n)%nat -> 3 * Z.of_nat n < 2 ^ 53 ->
  (n <= List.length qs)%nat -> (n <= List.length inputs)%nat ->
  Forall byte_channels qs ->
  exists rep, calculateScore n qs inputs = Return rep
    /\ ((rmse rep =? 0)%float = true
        <-> forall i q v, (i < n)%nat -> nth_error qs i = Some q ->
              nth_error inputs i = Some v ->
              userRgb v = [Question.r q; Question.g q; Question.b q])
    /\ ((rmse rep =? 0)%float = true -> rep = zero_report).
Proof.
  intros Hn H3 Hq Hi Hb.
  destruct (calculateScore_rmse n qs inputs Hq Hi) as (rep & Hrep & Hrmse).
  exists rep. split; [exact Hrep|].
  assert (Hfwd : (rmse rep =? 0)%float = true ->
                 forall i q v, (i < n)%nat -> nth_error qs i = Some q ->
                   nth_error inputs i = Some v ->
                   userRgb v = [Question.r q; Question.g q; Question.b q]).
  { intros Hz i q v Hlt Eq Ev. rewrite Hrmse in Hz.
    pose proof (pooled_length qs inputs n 0 ltac:(lia) ltac:(lia)) as Hlen.
    fold (pooled_squared_errors n qs inputs) in Hlen.
    apply root_mean_percent_zero in Hz.
    - apply small_squares_same.
      + rewrite Forall_forall in Hb. apply Hb. eapply nth_error_In, Eq.
      + rewrite Forall_forall in *. intros e He. apply Hz.
        unfold pooled_squared_errors. apply in_flat_map. exists i. split.
        * apply in_seq. lia.
        * unfold squared_errors_at. rewrite Eq, Ev. exact He.
    - apply pooled_within. exact Hb.
    - rewrite Hlen. lia. }
  split; [split; [exact Hfwd|]|].
  - intros Hall.
    rewrite (calculateScore_all_right n qs inputs Hn H3 Hq Hi Hb Hall) in Hrep.
    injection Hrep as <-. reflexivity.
  - intros Hz.
    rewrite (calculateScore_all_right n qs inputs Hn H3 Hq Hi Hb (Hfwd Hz)) in Hrep.
    injection Hrep as <-. reflexivity.
Qed.

(* ================================================================= *)
(** ** Further properties of the program *)

(** X1.  [hexToRgb] reads the hex digits after the first character as
    one number and returns its three low bytes: fewer than six digits
    are right-aligned ("#FFF" is [0; 15; 255], not white), and of more
    than six only the last six count (up to 13 digits, where the number
    is still exact). *)
Theorem X1_hexToRgb_low_bytes c0 s :
  s <> "" -> all_hex s = true -> (String.length s <= 13)%nat ->
  hexToRgb (String c0 s) = low_bytes (hex_number 0 s).
Proof. intros Hne Hh Hl. apply hexToRgb_low_bytes; assumption. Qed.

Lemma X1_witness :
  hexToRgb "#FFF" = [0; 15; 255] /\ hexToRgb "#FF123456" = [18; 52; 86].
Proof.
  split.
  - apply (X1_hexToRgb_low_bytes "#" "FFF"); [discriminate|reflexivity|cbn; lia].
  - apply (X1_hexToRgb_low_bytes "#" "FF123456"); [discriminate|reflexivity|cbn; lia].
Defined.

(** X2.  [hexToRgb] stops reading at the first character that is not a
    hex digit (other than an x after a single 0) and ignores the rest;
    when the text has no leading digit, sign or white space at all, the
    colour is black. *)
Theorem X2_hexToRgb_stops_at_first_bad_character c0 s c rest :
  radix_digit 16 c = None ->
  (s <> "" -> all_hex s = true ->
   (c =? "x")%char = false -> (c =? "X")%char = false ->
   hexToRgb (String c0 (s ++ String c rest)) = hexToRgb (String c0 s))
  /\ (is_white_space c = false -> (c =? "-")%char = false -> (c =? "+")%char = false ->
      hexToRgb (String c0 (String c rest)) = [0; 0; 0]).
Proof.
  intros Hc. split.
  - intros Hne Hs Hx HX. apply hexToRgb_stops_at_first_bad; assumption.
  - intros Hw Hm Hp. apply hexToRgb_no_digit; assumption.
Qed.

Lemma X2_witness :
  hexToRgb "#12G456" = hexToRgb "#12" /\ hexToRgb "#G12345" = [0; 0; 0].
Proof.
  split.
  - apply (proj1 (X2_hexToRgb_stops_at_first_bad_character "#" "12" "G" "456" eq_refl));
      [discriminate|reflexivity|reflexivity|reflexivity].
  - apply (proj2 (X2_hexToRgb_stops_at_first_bad_character "#" "" "G" "12345" eq_refl));
      reflexivity.
Defined.

(** X3.  What [parseInt] accepts before the digits does not change the
    colour: leading white space, a plus sign, and the prefix 0x or 0X. *)
Theorem X3_hexToRgb_ignores_prefixes c0 w s :
  all_white_space w = true -> all_hex s = true ->
  hexToRgb (String c0 (w ++ s)) = hexToRgb (String c0 s)
  /\ hexToRgb (String c0 (w ++ "+" ++ s)) = hexToRgb (String c0 s)
  /\ hexToRgb (String c0 (w ++ "0x" ++ s)) = hexToRgb (String c0 s)
  /\ hexToRgb (String c0 (w ++ "0X" ++ s)) = hexToRgb (String c0 s).
Proof. intros Hw Hs. apply hexToRgb_prefixes; assumption. Qed.

Lemma X3_witness :
  hexToRgb "# 1A2B" = hexToRgb "#1A2B" /\ hexToRgb "# +1A2B" = hexToRgb "#1A2B"
  /\ hexToRgb "# 0x1A2B" = hexToRgb "#1A2B" /\ hexToRgb "# 0X1A2B" = hexToRgb "#1A2B".
Proof.
  apply (X3_hexToRgb_ignores_prefixes "#" " " "1A2B"); reflexivity.
Defined.

(** X4.  A minus sign before the digits gives the three low bytes of
    the negated number, in two's complement: "#-1" is white. *)
Theorem X4_hexToRgb_minus_sign c0 s :
  s <> "" -> all_hex s = true -> (String.length s <= 13)%nat ->
  hexToRgb (String c0 (String "-" s)) = low_bytes (- hex_number 0 s).
Proof. intros Hne Hh Hl. apply hexToRgb_minus_digits; assumption. Qed.

Lemma X4_witness : hexToRgb "#-1" = [255; 255; 255].
Proof.
  apply (X4_hexToRgb_minus_sign "#" "1"); [discriminate|reflexivity|cbn; lia].
Defined.

(** X5.  The hex string that [generateRandomColor] formats from three
    bytes is "#" followed by exactly six characters, each one of 0-9
    and A-F. *)
Theorem X5_hexOf_format r g b :
  0 <= r <= 255 -> 0 <= g <= 255 -> 0 <= b <= 255 ->
  exists s, hexOf r g b = String "#" s
    /\ String.length s = 6%nat /\ all_upper_hex s = true.
Proof. intros Hr Hg Hb. apply hexOf_format; assumption. Qed.

Lemma X5_witness :
  exists s, hexOf 0 10 255 = String "#" s
    /\ String.length s = 6%nat /\ all_upper_hex s = true.
Proof. apply (X5_hexOf_format 0 10 255); lia. Defined.

(** X6.  Decoding then encoding: for six hex digits in either case,
    formatting the bytes that [hexToRgb] returns gives the same string
    in upper case. *)
Theorem X6_hexOf_inverts_hexToRgb c0 s :
  String.length s = 6%nat -> all_hex s = true ->
  exists r g b, hexToRgb (String c0 s) = [r; g; b]
    /\ hexOf r g b = String "#" (toUpperCase s).
Proof. intros Hl Hh. apply hexOf_hexToRgb; assumption. Qed.

Lemma X6_witness :
  exists r g b, hexToRgb "#a1B2c3" = [r; g; b] /\ hexOf r g b = "#A1B2C3".
Proof.
  apply (X6_hexOf_inverts_hexToRgb "#" "a1B2c3"); reflexivity.
Defined.

(** X7.  [Math.floor(Math.random() * 256)] is an integer from 0 to 255
    for every random Number in [0, 1), and each of the 256 values is
    the result for some random Number. *)
Theorem X7_random_channel_is_a_byte :
  (forall u, unit_interval u = true ->
     exists z, random_channel u = Some z /\ 0 <= z <= 255)
  /\ (forall z, 0 <= z <= 255 ->
        exists u, unit_interval u = true /\ random_channel u = Some z).
Proof.
  split.
  - intros u Hu. unfold unit_interval in Hu. apply andb_prop in Hu.
    apply random_channel_byte; tauto.
  - intros z Hz. destruct (random_channel_onto z Hz) as (u & H0 & H1 & H).
    exists u. unfold unit_interval. rewrite H0, H1. split; [reflexivity|exact H].
Qed.

Lemma X7_witness :
  exists z, random_channel 0x1.fffffffffffffp-1%float = Some z /\ 0 <= z <= 255.
Proof.
  apply (proj1 X7_random_channel_is_a_byte 0x1.fffffffffffffp-1%float). reflexivity.
Defined.

(** X8.  [generateRandomColor] returns a hex string and three channels
    that agree: the channels are bytes, the string is their formatting,
    and [hexToRgb] reads the channels back from it. *)
Theorem X8_generateRandomColor_consistent u1 u2 u3 :
  unit_interval u1 = true -> unit_interval u2 = true -> unit_interval u3 = true ->
  exists hex r g b,
    generateRandomColor_of u1 u2 u3 = Some (hex, r, g, b)
    /\ 0 <= r <= 255 /\ 0 <= g <= 255 /\ 0 <= b <= 255
    /\ hex = hexOf r g b /\ hexToRgb hex = [r; g; b].
Proof. intros H1 H2 H3. apply generateRandomColor_of_well_formed; assumption. Qed.

Lemma X8_witness :
  exists hex r g b,
    generateRandomColor_of 0%float 0.5%float 0x1.fffffffffffffp-1%float
    = Some (hex, r, g, b)
    /\ 0 <= r <= 255 /\ 0 <= g <= 255 /\ 0 <= b <= 255
    /\ hex = hexOf r g b /\ hexToRgb hex = [r; g; b].
Proof.
  apply (X8_generateRandomColor_consistent 0%float 0.5%float 0x1.fffffffffffffp-1%float);
    reflexivity.
Defined.

(** X9.  [calculateScore] throws a TypeError exactly when fewer than
    [numQuestions] questions are stored or fewer than [numQuestions]
    answer inputs exist; otherwise it returns a report. *)
Theorem X9_calculateScore_TypeError n questions inputs :
  (calculateScore n questions inputs = TypeError
   <-> (List.length questions < n)%nat \/ (List.length inputs < n)%nat)
  /\ ((n <= List.length questions)%nat -> (n <= List.length inputs)%nat ->
      exists rep, calculateScore n questions inputs = Return rep).
Proof.
  split; [apply calculateScore_TypeError|].
  intros Hq Hi. destruct (calculateScore_rmse n questions inputs Hq Hi) as (rep & H & _).
  exists rep. exact H.
Qed.

Lemma X9_witness :
  calculateScore numQuestions [red_question] [""] = TypeError
  /\ exists rep, calculateScore 1 [red_question] [""] = Return rep.
Proof.
  split.
  - apply (proj1 (X9_calculateScore_TypeError numQuestions [red_question] [""])).
    left. unfold numQuestions. cbn. lia.
  - apply (proj2 (X9_calculateScore_TypeError 1 [red_question] [""])); cbn; lia.
Defined.

(** X10.  The score depends only on the stored channels of the first
    [numQuestions] questions and on the colours parsed from the first
    [numQuestions] answers: not on the [hex] field of a question, not on
    how an answer spells its colour, not on anything beyond. *)
Theorem X10_calculateScore_reads_channels_only n questions questions' inputs inputs' :
  map channels (firstn n questions) = map channels (firstn n questions') ->
  map userRgb (firstn n inputs) = map userRgb (firstn n inputs') ->
  calculateScore n questions inputs = calculateScore n questions' inputs'.
Proof. intros Hq Hv. apply calculateScore_depends; assumption. Qed.

Lemma X10_witness :
  calculateScore 1 [red_question; black_question] ["ff0000"; "junk"]
  = calculateScore 1
      [{| Question.hex := "?"; Question.r := 255; Question.g := 0; Question.b := 0 |}]
      ["0xFF0000"].
Proof.
  apply X10_calculateScore_reads_channels_only; vm_compute; reflexivity.
Defined.

(** X11.  For questions whose channels are bytes, whatever the answers
    are, every figure of the report is an ordinary number in its range:
    the RMSE in [0, 100], the average RGB errors in [-100, 100], the
    average hue error in [0, 100], the average saturation and lightness
    errors in [-100, 100] (for any number of questions from 1 up to
    2^53 / 3). *)
Theorem X11_score_in_range n questions inputs :
  (0 < n)%nat -> 3 * Z.of_nat n < 2 ^ 53 ->
  (n <= List.length questions)%nat -> (n <= List.length inputs)%nat ->
  Forall byte_channels questions ->
  exists rep, calculateScore n questions inputs = Return rep
    /\ in_percent (rmse rep) = true
    /\ (exists r g b, avgRgbError rep = [r; g; b]
          /\ in_signed_percent r = true /\ in_signed_percent g = true
          /\ in_signed_percent b = true)
    /\ (exists h s l, avgHslError rep = [h; s; l]
          /\ in_percent h = true /\ in_signed_percent s = true
          /\ in_signed_percent l = true).
Proof. intros Hn H3 Hq Hi Hb. apply calculateScore_in_range; assumption. Qed.

Lemma X11_witness :
  exists rep, calculateScore 1 [red_question] ["00FF00"] = Return rep
    /\ in_percent (rmse rep) = true
    /\ (exists r g b, avgRgbError rep = [r; g; b]
          /\ in_signed_percent r = true /\ in_signed_percent g = true
          /\ in_signed_percent b = true)
    /\ (exists h s l, avgHslError rep = [h; s; l]
          /\ in_percent h = true /\ in_signed_percent s = true
          /\ in_signed_percent l = true).
Proof.
  apply (X11_score_in_range 1 [red_question] ["00FF00"]);
    [lia|vm_compute; reflexivity|cbn; lia|cbn; lia|].
  apply Forall_cons; [|apply Forall_nil]. unfold byte_channels. cbn. lia.
Defined.

(** X12.  The hue that [rgbToHsl] gives a colour that is not grey lies
    in the sextants of its largest channel: red largest gives a hue in
    [0, 60] or in [300, 360), green largest a hue in [60, 180], blue
    largest a hue in [180, 300]. *)
Theorem X12_hue_sector r g b :
  0 <= r <= 255 -> 0 <= g <= 255 -> 0 <= b <= 255 -> ~ (r = g /\ g = b) ->
  exists h s l,
    rgbToHsl (Number_of_Z r) (Number_of_Z g) (Number_of_Z b) = [h; s; l]
    /\ (g <= r -> b <= r -> b <= g -> (0 <=? h)%float = true /\ (h <=? 60)%float = true)
    /\ (r < g -> b <= g -> (60 <=? h)%float = true /\ (h <=? 180)%float = true)
    /\ (r < b -> g < b -> (180 <=? h)%float = true /\ (h <=? 300)%float = true)
    /\ (g <= r -> b <= r -> g < b -> (300 <=? h)%float = true /\ (h <? 360)%float = true).
Proof. intros Hr Hg Hb Hne. apply hue_sector; assumption. Qed.

Lemma X12_witness :
  exists h s l,
    rgbToHsl (Number_of_Z 10) (Number_of_Z 200) (Number_of_Z 100) = [h; s; l]
    /\ (200 <= 10 -> 100 <= 10 -> 100 <= 200
        -> (0 <=? h)%float = true /\ (h <=? 60)%float = true)
    /\ (10 < 200 -> 100 <= 200 -> (60 <=? h)%float = true /\ (h <=? 180)%float = true)
    /\ (10 < 100 -> 200 < 100 -> (180 <=? h)%float = true /\ (h <=? 300)%float = true)
    /\ (200 <= 10 -> 100 <= 10 -> 200 < 100
        -> (300 <=? h)%float = true /\ (h <? 360)%float = true).
Proof. apply (X12_hue_sector 10 200 100); lia. Defined.

(** X13.  A colour with exactly two equal channels has a hue that is
    exactly a multiple of 60: 0 for red over two equal lower channels,
    60 for red = green, 120 for green, 180 for green = blue, 240 for
    blue, 300 for blue = red. *)
Theorem X13_hue_of_two_equal_channels r g b :
  0 <= r <= 255 -> 0 <= g <= 255 -> 0 <= b <= 255 -> ~ (r = g /\ g = b) ->
  exists h s l,
    rgbToHsl (Number_of_Z r) (Number_of_Z g) (Number_of_Z b) = [h; s; l]
    /\ (g = b -> b < r -> (h =? 0)%float = true)
    /\ (r = g -> b < g -> (h =? 60)%float = true)
    /\ (r = b -> b < g -> (h =? 120)%float = true)
    /\ (g = b -> r < g -> (h =? 180)%float = true)
    /\ (r = g -> g < b -> (h =? 240)%float = true)
    /\ (r = b -> g < b -> (h =? 300)%float = true).
Proof. intros Hr Hg Hb Hne. apply hue_anchor; assumption. Qed.

Lemma X13_witness :
  exists h s l,
    rgbToHsl (Number_of_Z 7) (Number_of_Z 7) (Number_of_Z 201) = [h; s; l]
    /\ (h =? 240)%float = true.
Proof.
  destruct (X13_hue_of_two_equal_channels 7 7 201) as (h & s & l & E & _ & _ & _ & _ & H & _);
    try lia.
  exists h, s, l. split; [exact E|]. apply H; lia.
Defined.

(** X14.  For byte channels the saturation is 0 exactly for the greys
    (and positive otherwise), the lightness is 0 exactly for black and
    100 exactly for white. *)
Theorem X14_saturation_and_lightness_extremes r g b :
  0 <= r <= 255 -> 0 <= g <= 255 -> 0 <= b <= 255 ->
  exists h s l,
    rgbToHsl (Number_of_Z r) (Number_of_Z g) (Number_of_Z b) = [h; s; l]
    /\ ((s =? 0)%float = true <-> r = g /\ g = b)
    /\ (~ (r = g /\ g = b) -> (0 <? s)%float = true)
    /\ ((l =? 0)%float = true <-> r = 0 /\ g = 0 /\ b = 0)
    /\ ((l =? 100)%float = true <-> r = 255 /\ g = 255 /\ b = 255).
Proof. intros Hr Hg Hb. apply hsl_extremes; assumption. Qed.

Lemma X14_witness :
  exists h s l,
    rgbToHsl (Number_of_Z 254) (Number_of_Z 255) (Number_of_Z 255) = [h; s; l]
    /\ ((s =? 0)%float = true <-> 254 = 255 /\ 255 = 255)
    /\ (~ (254 = 255 /\ 255 = 255) -> (0 <? s)%float = true)
    /\ ((l =? 0)%float = true <-> 254 = 0 /\ 255 = 0 /\ 255 = 0)
    /\ ((l =? 100)%float = true <-> 254 = 255 /\ 255 = 255 /\ 255 = 255).
Proof. apply (X14_saturation_and_lightness_extremes 254 255 255); lia. Defined.

(** X15.  Saturation and lightness do not depend on which channel holds
    which value: permuting the three bytes changes at most the hue. *)
Theorem X15_saturation_lightness_symmetric r g b r' g' b' :
  0 <= r <= 255 -> 0 <= g <= 255 -> 0 <= b <= 255 ->
  Permutation [r; g; b] [r'; g'; b'] ->
  exists h h' s l,
    rgbToHsl (Number_of_Z r) (Number_of_Z g) (Number_of_Z b) = [h; s; l]
    /\ rgbToHsl (Number_of_Z r') (Number_of_Z g') (Number_of_Z b') = [h'; s; l].
Proof. intros Hr Hg Hb P. apply saturation_lightness_symmetric; assumption. Qed.

Lemma X15_witness :
  exists h h' s l,
    rgbToHsl (Number_of_Z 1) (Number_of_Z 2) (Number_of_Z 3) = [h; s; l]
    /\ rgbToHsl (Number_of_Z 2) (Number_of_Z 1) (Number_of_Z 3) = [h'; s; l].
Proof.
  apply (X15_saturation_lightness_symmetric 1 2 3 2 1 3); try lia.
  apply perm_swap.
Defined.

(** X16.  [rgbToHsl] with a NaN channel returns [NaN, NaN, NaN]: no
    [case] of the [switch] matches, so [h] stays [undefined]. *)
Theorem X16_rgbToHsl_NaN r g b :
  is_nan r = true \/ is_nan g = true \/ is_nan b = true ->
  rgbToHsl r g b = [nan; nan; nan].
Proof. intros H. apply rgbToHsl_nan, H. Qed.

Lemma X16_witness : rgbToHsl 10%float nan 30%float = [nan; nan; nan].
Proof. apply X16_rgbToHsl_NaN. right. left. reflexivity. Defined.

(** X17.  On the page, from loading on and whatever is typed and
    clicked: when the submit button is disabled a click on it does
    nothing; when it is enabled every answer has exactly six characters,
    so [calculateScore] uses no "000000" in place of an answer, throws
    nothing, and shows a report whose RMSE is in [0, 100]. *)
Theorem X17_submit_on_a_reachable_page p0 draw events :
  byte_draw draw -> Forall byte_event events ->
  let p := page_after p0 draw events in
  (Page.submitDisabled p = true /\ on_submit p = p)
  \/ (Page.submitDisabled p = false
      /\ Forall (fun v => String.length v = 6%nat) (Page.values p)
      /\ map (fun v => or_else v "000000") (Page.values p) = Page.values p
      /\ exists rep,
           calculateScore numQuestions (Page.questions p) (Page.values p) = Return rep
           /\ Page.resultText (on_submit p) = Some (display rep)
           /\ Page.resultShown (on_submit p) = true
           /\ in_percent (rmse rep) = true).
Proof. intros Hd Hev. apply submit_on_reachable; assumption. Qed.

Lemma X17_witness :
  let p := page_after blank_page sample_draw sample_events in
  (Page.submitDisabled p = true /\ on_submit p = p)
  \/ (Page.submitDisabled p = false
      /\ Forall (fun v => String.length v = 6%nat) (Page.values p)
      /\ map (fun v => or_else v "000000") (Page.values p) = Page.values p
      /\ exists rep,
           calculateScore numQuestions (Page.questions p) (Page.values p) = Return rep
           /\ Page.resultText (on_submit p) = Some (display rep)
           /\ Page.resultShown (on_submit p) = true
           /\ in_percent (rmse rep) = true).
Proof.
  apply (X17_submit_on_a_reachable_page blank_page sample_draw sample_events).
  - intros i.
    do 9 (destruct i as [|i]; [vm_compute; repeat split; discriminate|]).
    destruct i; vm_compute; repeat split; discriminate.
  - unfold sample_events. cbn [numQuestions seq map app].
    repeat (apply Forall_cons; [exact I|]). apply Forall_nil.
Defined.

(** X18.  [setupQuestions] starts a session of [numQuestions] questions
    whose colour box shows exactly the colour that is scored (the hex
    string decodes to the stored channels, which are bytes), with every
    answer empty and the submit button out of use. *)
Theorem X18_setupQuestions_session draw p :
  byte_draw draw ->
  let p' := setupQuestions_page draw p in
  List.length (Page.questions p') = numQuestions
  /\ Forall (fun q => byte_channels q
                      /\ hexToRgb (Question.hex q)
                         = [Question.r q; Question.g q; Question.b q])
       (Page.questions p')
  /\ Page.values p' = repeat EmptyString numQuestions
  /\ Page.answers p' = repeat EmptyString numQuestions
  /\ on_submit p' = p'.
Proof. intros Hd. apply setupQuestions_page_session, Hd. Qed.

Lemma X18_witness :
  List.length (Page.questions (setupQuestions_page sample_draw blank_page)) = numQuestions
  /\ on_submit (setupQuestions_page sample_draw blank_page)
     = setupQuestions_page sample_draw blank_page.
Proof.
  destruct (X18_setupQuestions_session sample_draw blank_page) as (H1 & _ & _ & _ & H2).
  - intros i.
    do 9 (destruct i as [|i]; [vm_compute; repeat split; discriminate|]).
    destruct i; vm_compute; repeat split; discriminate.
  - split; [exact H1|exact H2].
Defined.

(** X19.  For questions whose channels are bytes, the RMSE of a session
    is zero exactly when every answer decodes, through [hexToRgb], to the
    stored colour of its question; every figure of the report is then
    zero.  One channel that is off by one already gives an RMSE above
    zero, for any number of questions from 1 up to 2^53 / 3. *)
Theorem X19_zero_rmse_iff_all_right n questions inputs :
  (0 < n)%nat -> 3 * Z.of_nat n < 2 ^ 53 ->
  (n <= List.length questions)%nat -> (n <= List.length inputs)%nat ->
  Forall byte_channels questions ->
  exists rep, calculateScore n questions inputs = Return rep
    /\ ((rmse rep =? 0)%float = true
        <-> forall i q v, (i < n)%nat -> nth_error questions i = Some q ->
              nth_error inputs i = Some v ->
              userRgb v = [Question.r q; Question.g q; Question.b q])
    /\ ((rmse rep =? 0)%float = true -> rep = zero_report).
Proof. intros Hn H3 Hq Hi Hb. apply zero_rmse_all_right; assumption. Qed.

Lemma X19_witness :
  exists rep, calculateScore 1 [red_question] ["ff0000"] = Return rep
    /\ ((rmse rep =? 0)%float = true
        <-> forall i q v, (i < 1)%nat -> nth_error [red_question] i = Some q ->
              nth_error ["ff0000"] i = Some v ->
              userRgb v = [Question.r q; Question.g q; Question.b q])
    /\ ((rmse rep =? 0)%float = true -> rep = zero_report).
Proof.
  apply (X19_zero_rmse_iff_all_right 1 [red_question] ["ff0000"]);
    [lia|vm_compute; reflexivity|cbn; lia|cbn; lia|].
  apply Forall_cons; [|apply Forall_nil]. unfold byte_channels. cbn. lia.
Defined.
